(** * The template context layer of doxygen (src/context.cpp)

    A shallow embedding of the parts of [context.cpp] that carry the
    property tables, the per-definition documentation cache, the depth
    metrics of the navigation trees, the class-hierarchy nesting tree and the
    inherited-member lists, together with the generic list and its iterator,
    the configuration lookups, the navigation path, the ids of tree nodes,
    the spaceless filters and the grouping of search symbols, followed by
    the properties proved about them.

    Conventions.
    - C++ [int] values are [Z]; the counters below stay between 0 and the
      number of nodes of the tree they count (see [numNodes_bounds]), so no
      addition leaves the range of [int].
    - [const ClassDef *] and [const Definition *] are identities ([nat]);
      what the pointed-to object answers is a field of the model record.
    - [std::unordered_map<std::string,...>] is a [gmap string], [ClassDefSet]
      (a [std::set<const ClassDef*>]) is a [gset nat].
    - Recursion over the inheritance graph is not structural; those functions
      take a [fuel] and return [None] when it runs out.  Each comes with a
      totality lemma that gives the fuel that is always enough. *)

From Stdlib Require Import ZArith Lia Bool.
From Stdlib Require Import Strings.String Strings.Ascii.
From stdpp Require Import base gmap strings list sorting pretty.

Local Open Scope Z_scope.

(* ===================================================================== *)
(** * Variants *)
(* ===================================================================== *)

(** [TemplateVariant]: the value kinds of the template engine.  Structs and
    lists are shared handles; a string carries the [raw] flag of the C++
    constructor [TemplateVariant(const char*,bool raw=FALSE)]. *)
Inductive TemplateVariant : Type :=
  | VNone
  | VBool (b : bool)
  | VInt (n : Z)
  | VString (s : string) (raw : bool)
  | VStruct (handle : nat)
  | VList (handle : nat)
  | VFunction (handle : nat).

#[global] Instance TemplateVariant_eq_dec : EqDecision TemplateVariant.
Proof. solve_decision. Defined.

(** The order [std::sort] uses on [std::string]: bytewise lexicographic. *)
Definition string_le (a b : string) : Prop := String.leb a b = true.

#[global] Instance string_le_dec : RelDecision string_le.
Proof. intros a b. unfold string_le. apply _. Defined.

(* ===================================================================== *)
(** * PropertyMapper *)
(* ===================================================================== *)

Module PropertyMapper.

(** [typedef TemplateVariant (T::*Handler)() const], for the class [T] whose
    member functions are registered.  A handler is a [const] member function,
    but it may still write to the caches that hang off the definition, so it
    runs over a [World]. *)
Abbreviation Handler T World := (T → World → TemplateVariant * World) (only parsing).

Section Mapper.

Context {T World : Type}.

(** The mapper itself together with the error stream [err] writes to. *)
Record Mapper : Type := mkMapper {
  m_map : gmap string (Handler T World);
  errLog : list string
}.

Definition empty : Mapper := mkMapper ∅ [].

Definition newline : string := String (ascii_of_nat 10) EmptyString.

Definition errMoreThanOnce (name : string) : string :=
  String.append "adding property '"
    (String.append name (String.append "' more than once" newline)).

(** [void addProperty(const char *name, Handler handle)] *)
Definition addProperty (name : string) (handle : Handler T World) (pm : Mapper)
  : Mapper :=
  match m_map pm !! name with
  | Some _ => mkMapper (m_map pm) (errLog pm ++ [errMoreThanOnce name])
  | None => mkMapper (<[name := handle]> (m_map pm)) (errLog pm)
  end.

(** [TemplateVariant get(const T *obj,const QCString &name) const] *)
Definition get (pm : Mapper) (obj : T) (name : string) (w : World)
  : TemplateVariant * World :=
  match m_map pm !! name with
  | Some h => h obj w
  | None => (VNone, w)
  end.

(** [fields()], for an arbitrary iteration order [iter] of the unordered
    map: the keys are pushed in that order and then sorted. *)
Definition fieldsFrom (iter : list string) : list string :=
  merge_sort string_le iter.

(** [StringVector fields() const] *)
Definition fields (pm : Mapper) : list string :=
  fieldsFrom ((map_to_list (m_map pm)).*1).

(** A run of [addProperty] calls, as in the [static bool init] blocks. *)
Definition addProperties (regs : list (string * Handler T World)) (pm : Mapper)
  : Mapper :=
  foldl (λ acc r, addProperty r.1 r.2 acc) pm regs.

(** The first handler a registration sequence gives for [name]. *)
Fixpoint firstRegistered (name : string) (regs : list (string * Handler T World))
  : option (Handler T World) :=
  match regs with
  | [] => None
  | (n, h) :: rest =>
      if decide (n = name) then Some h else firstRegistered name rest
  end.

End Mapper.
Arguments Mapper : clear implicits.
End PropertyMapper.

(* ===================================================================== *)
(** * DefinitionContext: the documentation cache *)
(* ===================================================================== *)

Module DefinitionContext.

Inductive ContextOutputFormat : Type :=
  | ContextOutputFormat_Unspecified
  | ContextOutputFormat_Html
  | ContextOutputFormat_Latex
  | ContextOutputFormat_Rtf
  | ContextOutputFormat_ManPage
  | ContextOutputFormat_DocBook
  | ContextOutputFormat_Xml
  | ContextOutputFormat_TagFile.

#[global] Instance ContextOutputFormat_eq_dec : EqDecision ContextOutputFormat.
Proof. solve_decision. Defined.

(** What a [Definition] answers to the accessors used below.  It does not
    change while output is generated. *)
Record Def : Type := mkDef {
  docFile : string;
  docLine : Z;
  documentation : string;
  briefFile : string;
  briefLine : Z;
  briefDescription : string;
  hasBriefDescription : bool;
  inbodyFile : string;
  inbodyLine : Z;
  inbodyDocumentation : string;
  getDefFileExtension : string
}.

(** The text slots of [DefinitionContext::Cachable].  The list and struct
    slots ([navPath], [sourceDef], [fileLink], [lineLink]) play no part in
    the three accessors modelled here. *)
Record Cachable : Type := mkCachable {
  details : option TemplateVariant;
  detailsOutputFormat : ContextOutputFormat;
  brief : option TemplateVariant;
  briefOutputFormat : ContextOutputFormat;
  inbodyDocs : option TemplateVariant;
  inbodyDocsOutputFormat : ContextOutputFormat
}.

(** [Cachable(const Definition *def)] *)
Definition newCachable : Cachable :=
  mkCachable None ContextOutputFormat_Unspecified
             None ContextOutputFormat_Unspecified
             None ContextOutputFormat_Unspecified.

(** One invocation of the documentation parser ([validatingParseDoc]). *)
Record ParseCall : Type := mkParseCall {
  pc_def : nat;
  pc_file : string;
  pc_line : Z;
  pc_docStr : string;
  pc_isBrief : bool;
  pc_format : ContextOutputFormat
}.

(** The mutable state the accessors see: [g_globals.outputFormat], the
    cookie of every definition, the calls made to the parser so far and
    the error stream. *)
Record World : Type := mkWorld {
  outputFormat : ContextOutputFormat;
  cookies : gmap nat Cachable;
  parseCalls : list ParseCall;
  errors : list string
}.

Definition setCookies (ck : gmap nat Cachable) (w : World) : World :=
  mkWorld (outputFormat w) ck (parseCalls w) (errors w).

Definition setOutputFormat (f : ContextOutputFormat) (w : World) : World :=
  mkWorld f (cookies w) (parseCalls w) (errors w).

Definition setDetails (v : TemplateVariant) (f : ContextOutputFormat) (c : Cachable)
  : Cachable :=
  mkCachable (Some v) f (brief c) (briefOutputFormat c)
             (inbodyDocs c) (inbodyDocsOutputFormat c).

Definition setBrief (v : TemplateVariant) (c : Cachable) : Cachable :=
  mkCachable (details c) (detailsOutputFormat c) (Some v) (briefOutputFormat c)
             (inbodyDocs c) (inbodyDocsOutputFormat c).

Definition setBriefOutputFormat (f : ContextOutputFormat) (c : Cachable) : Cachable :=
  mkCachable (details c) (detailsOutputFormat c) (brief c) f
             (inbodyDocs c) (inbodyDocsOutputFormat c).

Definition setInbodyDocs (v : TemplateVariant) (c : Cachable) : Cachable :=
  mkCachable (details c) (detailsOutputFormat c) (brief c) (briefOutputFormat c)
             (Some v) (inbodyDocsOutputFormat c).

Definition setInbodyDocsOutputFormat (f : ContextOutputFormat) (c : Cachable)
  : Cachable :=
  mkCachable (details c) (detailsOutputFormat c) (brief c) (briefOutputFormat c)
             (inbodyDocs c) f.

(** The collaborators [parseDoc] hands the text to: the comment parser and
    the two visitors that print its tree.  They live outside
    [context.cpp]. *)
Record DocTools : Type := mkDocTools {
  DocRoot : Type;
  validatingParseDoc : string → Z → nat → string → bool → DocRoot;
  rootIsEmpty : DocRoot → bool;
  htmlDocVisitor : DocRoot → string → nat → string;
  latexDocVisitor : DocRoot → string → string → string → string
}.

Section Accessors.

Variable tools : DocTools.
(** The symbol graph: what each definition answers. *)
Variable symbols : nat → Def.
(** [Config_getBool(CREATE_SUBDIRS)] *)
Variable createSubdirs : bool.

Definition errNotSupported : string :=
  String.append "context.cpp: output format not yet supported"
                (String (ascii_of_nat 10) EmptyString).

(** [static TemplateVariant parseDoc(def,file,line,relPath,docStr,isBrief)] *)
Definition parseDoc (def : nat) (file : string) (line : Z) (relPath : string)
    (docStr : string) (isBrief : bool) (w : World) : TemplateVariant * World :=
  let root := validatingParseDoc tools file line def docStr isBrief in
  let call := mkParseCall def file line docStr isBrief (outputFormat w) in
  let w1 := mkWorld (outputFormat w) (cookies w) (parseCalls w ++ [call]) (errors w) in
  let '(ts, w2) :=
    match outputFormat w with
    | ContextOutputFormat_Html =>
        (htmlDocVisitor tools root relPath def, w1)
    | ContextOutputFormat_Latex =>
        (latexDocVisitor tools root relPath file (getDefFileExtension (symbols def)), w1)
    | _ =>
        (EmptyString,
         mkWorld (outputFormat w1) (cookies w1) (parseCalls w1)
                 (errors w1 ++ [errNotSupported]))
    end in
  (if rootIsEmpty tools root then VString EmptyString false else VString ts true, w2).

(** [QCString relPathAsString() const] *)
Definition relPathAsString : string :=
  if createSubdirs then "../../"%string else EmptyString.

(** [Cachable &getCache() const]: [None] is the failed [assert(c!=0)]. *)
Definition getCache (def : nat) (w : World) : option Cachable :=
  cookies w !! def.

(** The constructors of the concrete contexts:
    [if (!d->cookie()) d->setCookie(new Cachable(d))]. *)
Definition attachCookie (def : nat) (w : World) : World :=
  match cookies w !! def with
  | Some _ => w
  | None => setCookies (<[def := newCachable]> (cookies w)) w
  end.

(** [TemplateVariant details() const] *)
Definition getDetails (def : nat) (w : World) : option (TemplateVariant * World) :=
  cache ← getCache def w;
  let recompute :=
    let '(v, w1) := parseDoc def (docFile (symbols def)) (docLine (symbols def))
                             relPathAsString (documentation (symbols def)) false w in
    let cache1 := setDetails v (outputFormat w1) cache in
    Some (v, setCookies (<[def := cache1]> (cookies w1)) w1) in
  match details cache with
  | None => recompute
  | Some stored =>
      if decide (outputFormat w ≠ detailsOutputFormat cache) then recompute
      else Some (stored, w)
  end.

(** [TemplateVariant brief() const] *)
Definition getBrief (def : nat) (w : World) : option (TemplateVariant * World) :=
  cache ← getCache def w;
  let recompute :=
    if hasBriefDescription (symbols def) then
      let '(v, w1) := parseDoc def (briefFile (symbols def)) (briefLine (symbols def))
                               relPathAsString (briefDescription (symbols def)) true w in
      let cache1 := setBriefOutputFormat (outputFormat w1) (setBrief v cache) in
      Some (v, setCookies (<[def := cache1]> (cookies w1)) w1)
    else
      let v := VString EmptyString false in
      Some (v, setCookies (<[def := setBrief v cache]> (cookies w)) w) in
  match brief cache with
  | None => recompute
  | Some stored =>
      if decide (outputFormat w ≠ briefOutputFormat cache) then recompute
      else Some (stored, w)
  end.

(** [TemplateVariant inbodyDocs() const] *)
Definition getInbodyDocs (def : nat) (w : World) : option (TemplateVariant * World) :=
  cache ← getCache def w;
  let recompute :=
    if negb (String.eqb (inbodyDocumentation (symbols def)) EmptyString) then
      let '(v, w1) := parseDoc def (inbodyFile (symbols def)) (inbodyLine (symbols def))
                               relPathAsString (inbodyDocumentation (symbols def)) false w in
      let cache1 := setInbodyDocsOutputFormat (outputFormat w1) (setInbodyDocs v cache) in
      Some (v, setCookies (<[def := cache1]> (cookies w1)) w1)
    else
      let v := VString EmptyString false in
      Some (v, setCookies (<[def := setInbodyDocs v cache]> (cookies w)) w) in
  match inbodyDocs cache with
  | None => recompute
  | Some stored =>
      if decide (outputFormat w ≠ inbodyDocsOutputFormat cache) then recompute
      else Some (stored, w)
  end.

(** What a render pass can do to one definition's text cache. *)
Inductive Request : Type :=
  | SetOutputFormat (f : ContextOutputFormat)
  | AttachCookie (def : nat)
  | Details (def : nat)
  | Brief (def : nat)
  | InbodyDocs (def : nat).

(** One request; the answer is [None] for the two that return nothing. *)
Definition step (r : Request) (w : World)
  : option (option TemplateVariant * World) :=
  match r with
  | SetOutputFormat f => Some (None, setOutputFormat f w)
  | AttachCookie def => Some (None, attachCookie def w)
  | Details def => '(v, w1) ← getDetails def w; Some (Some v, w1)
  | Brief def => '(v, w1) ← getBrief def w; Some (Some v, w1)
  | InbodyDocs def => '(v, w1) ← getInbodyDocs def w; Some (Some v, w1)
  end.

(** A sequence of requests, with the answer given to each. *)
Fixpoint run (rs : list Request) (w : World)
  : option (list (Request * option TemplateVariant) * World) :=
  match rs with
  | [] => Some ([], w)
  | r :: rest =>
      '(a, w1) ← step r w;
      '(answers, w2) ← run rest w1;
      Some ((r, a) :: answers, w2)
  end.

(** What [parseDoc] writes to the error stream when the format has no
    generator. *)
Definition formatErrors (f : ContextOutputFormat) : list string :=
  match f with
  | ContextOutputFormat_Html | ContextOutputFormat_Latex => []
  | _ => [errNotSupported]
  end.

(** The call [details()] makes to [parseDoc], and its record in the log. *)
Definition detailsParse (def : nat) (w : World) : TemplateVariant * World :=
  parseDoc def (docFile (symbols def)) (docLine (symbols def))
           relPathAsString (documentation (symbols def)) false w.

Definition detailsCall (def : nat) (f : ContextOutputFormat) : ParseCall :=
  mkParseCall def (docFile (symbols def)) (docLine (symbols def))
              (documentation (symbols def)) false f.

(** The same for [brief()], when there is a brief description. *)
Definition briefParse (def : nat) (w : World) : TemplateVariant * World :=
  parseDoc def (briefFile (symbols def)) (briefLine (symbols def))
           relPathAsString (briefDescription (symbols def)) true w.

Definition briefCall (def : nat) (f : ContextOutputFormat) : ParseCall :=
  mkParseCall def (briefFile (symbols def)) (briefLine (symbols def))
              (briefDescription (symbols def)) true f.

(** The same for [inbodyDocs()], when there is documentation in the body. *)
Definition inbodyParse (def : nat) (w : World) : TemplateVariant * World :=
  parseDoc def (inbodyFile (symbols def)) (inbodyLine (symbols def))
           relPathAsString (inbodyDocumentation (symbols def)) false w.

Definition inbodyCall (def : nat) (f : ContextOutputFormat) : ParseCall :=
  mkParseCall def (inbodyFile (symbols def)) (inbodyLine (symbols def))
              (inbodyDocumentation (symbols def)) false f.

(** The brief slot of [def] holds nothing or the empty string: what every
    write of [brief()] leaves behind when there is no brief description. *)
Definition briefUnsetOrEmpty (def : nat) (w : World) : Prop :=
  ∀ cache, cookies w !! def = Some cache →
    brief cache = None ∨ brief cache = Some (VString EmptyString false).

(** The parser calls made for the brief description of [def]. *)
Definition briefParses (def : nat) (w : World) : list ParseCall :=
  filter (λ c, pc_def c = def ∧ pc_isBrief c = true) (parseCalls w).

End Accessors.

(** The caching contract of one text slot of the cookie of [def], for the
    accessor [get], in the state [w] where the cookie is [cache]; [parsed w]
    is what the parser returns in [w] and [call f] the record of that call in
    the format [f].
    - A miss (slot unset, or computed for another format) calls the parser
      once and stores the value with the current format.
    - A hit returns the stored value and changes nothing.
    - A second request in the same format repeats the value with no call.
    - From an unset slot, two requests in one format cost one call.
    - From an unset slot, one request in each of two formats costs two. *)
Definition cachedPerFormat (get : World → option (TemplateVariant * World))
    (slot : Cachable → option TemplateVariant)
    (slotFormat : Cachable → ContextOutputFormat)
    (parsed : World → TemplateVariant) (call : ContextOutputFormat → ParseCall)
    (def : nat) (w : World) (cache : Cachable) : Prop :=
  (slot cache = None ∨ outputFormat w ≠ slotFormat cache →
   ∃ w' cache',
     get w = Some (parsed w, w')
     ∧ cookies w' !! def = Some cache'
     ∧ slot cache' = Some (parsed w)
     ∧ slotFormat cache' = outputFormat w
     ∧ outputFormat w' = outputFormat w
     ∧ parseCalls w' = parseCalls w ++ [call (outputFormat w)])
  ∧ (∀ stored, slot cache = Some stored → outputFormat w = slotFormat cache →
               get w = Some (stored, w))
  ∧ (∃ v w1, get w = Some (v, w1) ∧ get w1 = Some (v, w1))
  ∧ (slot cache = None →
     ∃ v w1, get w = Some (v, w1) ∧ get w1 = Some (v, w1)
             ∧ length (parseCalls w1) = S (length (parseCalls w)))
  ∧ (slot cache = None → ∀ f1 f2, f1 ≠ f2 →
     ∃ v1 w1 v2 w2,
       get (setOutputFormat f1 w) = Some (v1, w1)
       ∧ get (setOutputFormat f2 w1) = Some (v2, w2)
       ∧ parseCalls w2 = parseCalls w ++ [call f1; call f2]).

(** The state at the start of a run: nothing attached, nothing parsed. *)
Definition initialWorld : World :=
  mkWorld ContextOutputFormat_Unspecified ∅ [] [].

(** One accessor over render passes: [g_globals.outputFormat] is set, then
    the templates ask for the property. *)
Fixpoint askInPasses (get : World → option (TemplateVariant * World))
    (passes : list ContextOutputFormat) (w : World)
  : option (list TemplateVariant * World) :=
  match passes with
  | [] => Some ([], w)
  | f :: rest =>
      '(v, w1) ← get (setOutputFormat f w);
      '(vs, w2) ← askInPasses get rest w1;
      Some (v :: vs, w2)
  end.

(** The contract of a text slot of the cookie of [def] when the definition
    has no such text, for the accessor [get], in the state [w] where the
    cookie is [cache].
    - A miss (slot unset, or the current format is not the recorded one)
      stores and returns the empty string, calls no parser, writes no error
      and records no format.
    - A hit returns the stored value and changes nothing.
    - From a slot that is unset or holds the empty string, every pass, in
      whatever format, is answered with the empty string, and the parser is
      not called. *)
Definition absentText (get : World → option (TemplateVariant * World))
    (slot : Cachable → option TemplateVariant)
    (slotFormat : Cachable → ContextOutputFormat)
    (def : nat) (w : World) (cache : Cachable) : Prop :=
  (slot cache = None ∨ outputFormat w ≠ slotFormat cache →
   ∃ w' cache',
     get w = Some (VString EmptyString false, w')
     ∧ cookies w' !! def = Some cache'
     ∧ slot cache' = Some (VString EmptyString false)
     ∧ slotFormat cache' = slotFormat cache
     ∧ outputFormat w' = outputFormat w
     ∧ parseCalls w' = parseCalls w
     ∧ errors w' = errors w)
  ∧ (∀ stored, slot cache = Some stored → outputFormat w = slotFormat cache →
               get w = Some (stored, w))
  ∧ (slot cache = None ∨ slot cache = Some (VString EmptyString false) →
     ∀ passes, ∃ w',
       askInPasses get passes w
       = Some (replicate (length passes) (VString EmptyString false), w')
       ∧ parseCalls w' = parseCalls w
       ∧ errors w' = errors w).

End DefinitionContext.

(* ===================================================================== *)
(** * Depth metrics of a navigation tree *)
(* ===================================================================== *)

Module TreeDepth.

(** A node as the three functions see it: all they ask of a
    [TemplateStructIntf] is [get("children").toList()], which is a null
    pointer ([None]) when the property is not a list. *)
#[local] Unset Elimination Schemes.
Inductive TemplateStruct : Type :=
  | mkStruct (children : option (list TemplateStruct)).
#[local] Set Elimination Schemes.

(** [computeMaxDepth(s->get("children").toList())+1], the value [d] of the
    loop body of [computeMaxDepth], by recursion on the node. *)
Fixpoint structDepth (s : TemplateStruct) : Z :=
  match s with
  | mkStruct child =>
      match child with
      | None => 0
      | Some l =>
          (fix each (l : list TemplateStruct) (maxDepth : Z) {struct l} : Z :=
             match l with
             | [] => maxDepth
             | v :: rest =>
                 let d := structDepth v in
                 each rest (if d >? maxDepth then d else maxDepth)
             end) l 0
      end + 1
  end.

(** [static int computeMaxDepth(const TemplateListIntf *list)] *)
Definition computeMaxDepth (nodes : option (list TemplateStruct)) : Z :=
  match nodes with
  | None => 0
  | Some l =>
      foldl (λ maxDepth v,
               let d := structDepth v in
               if d >? maxDepth then d else maxDepth) 0 l
  end.

(** [static int computeNumNodesAtLevel(const TemplateStructIntf *s,int level,int maxLevel)] *)
Fixpoint computeNumNodesAtLevel (s : TemplateStruct) (level maxLevel : Z)
    {struct s} : Z :=
  if level <? maxLevel then
    match s with
    | mkStruct None => 1
    | mkStruct (Some l) =>
        (fix each (l : list TemplateStruct) (num : Z) {struct l} : Z :=
           match l with
           | [] => num
           | v :: rest =>
               each rest (num + computeNumNodesAtLevel v (level + 1) maxLevel)
           end) l 1
    end
  else 0.

(** The inner loop of [computePreferredDepth]: the nodes of all roots
    below level [i]. *)
Definition numNodesUpTo (nodes : list TemplateStruct) (i : Z) : Z :=
  foldl (λ num v, num + computeNumNodesAtLevel v 0 i) 0 nodes.

(** The values [i] takes in [for (int i=1;i<=depth;i++)]. *)
Definition candidateDepths (depth : Z) : list Z :=
  map Z.of_nat (seq 1 (Z.to_nat depth)).

(** The outer loop with its [break]. *)
Fixpoint scanDepths (nodes : list TemplateStruct) (preferredNumEntries : Z)
    (candidates : list Z) (preferredDepth : Z) : Z :=
  match candidates with
  | [] => preferredDepth
  | i :: rest =>
      if numNodesUpTo nodes i <=? preferredNumEntries
      then scanDepths nodes preferredNumEntries rest i
      else preferredDepth
  end.

(** [static int computePreferredDepth(const TemplateListIntf *list,int maxDepth)];
    [preferredNumEntries] is [Config_getInt(HTML_INDEX_NUM_ENTRIES)]. *)
Definition computePreferredDepth (nodes : list TemplateStruct) (maxDepth : Z)
    (preferredNumEntries : Z) : Z :=
  if preferredNumEntries >? 0
  then scanDepths nodes preferredNumEntries (candidateDepths maxDepth) 1
  else 1.

(** Number of nodes of a tree, the bound on every counter above. *)
Fixpoint numNodes (s : TemplateStruct) : Z :=
  match s with
  | mkStruct None => 1
  | mkStruct (Some l) =>
      (fix each (l : list TemplateStruct) : Z :=
         match l with
         | [] => 1
         | v :: rest => numNodes v + each rest
         end) l
  end.

(** The file tree over [F1] and [D1{files:[F2]}]. *)
Definition leafNode : TemplateStruct := mkStruct (Some []).
Definition fileTreeExample : list TemplateStruct :=
  [leafNode; mkStruct (Some [leafNode])].

End TreeDepth.

(* ===================================================================== *)
(** * The class graph *)
(* ===================================================================== *)

Module Symbols.

Inductive Protection : Type := Public | Protected | Private | Package.

(** [MemberListType] values travel as [int], with [-1] for "none". *)
Definition MemberListType : Type := Z.

Inductive MemberListContainer : Type :=
  | ContainerFile | ContainerNamespace | ContainerGroup | ContainerClass.

(** [struct BaseClassDef]: one inheritance edge. *)
Record BaseClassDef : Type := mkBaseClassDef {
  classDef : nat;
  prot : Protection
}.

Record MemberGroup : Type := mkMemberGroup {
  mg_members : list nat;
  allMembersInSameSection : bool;
  mg_container : MemberListContainer
}.

Record MemberList : Type := mkMemberList {
  listType : MemberListType;
  ml_members : list nat;
  getMemberGroupList : list MemberGroup
}.

(** What a [MemberDef] answers. *)
Record MemberDef : Type := mkMemberDef {
  isBriefSectionVisible : bool;
  isReimplementedBy : nat → bool;
  (** [getSectionList(container)->listType()] *)
  sectionListType : MemberListContainer → MemberListType
}.

(** What a [ClassDef] answers. *)
Record ClassDef : Type := mkClassDef {
  isLinkable : bool;
  baseClasses : list BaseClassDef;
  subClasses : list BaseClassDef;
  (** [getLanguage()==SrcLangExt_VHDL] *)
  isVHDL : bool;
  (** [(VhdlDocGen::VhdlClasses)protection()==VhdlDocGen::ENTITYCLASS] *)
  isEntityClass : bool;
  isVisibleInHierarchy : bool;
  getMemberList : MemberListType → option MemberList;
  getMemberGroups : list MemberGroup;
  subGrouping : bool;
  countMembersIncludingGrouped : MemberListType → nat → bool → Z
}.

(** The symbol graph and the helpers of [util.cpp] and [classdef.cpp] that
    [context.cpp] calls on it. *)
Record SymbolGraph : Type := mkSymbolGraph {
  classOf : nat → ClassDef;
  memberOf : nat → MemberDef;
  convertProtectionLevel : MemberListType → Protection → Z * Z;
  classHasVisibleChildren : nat → bool;
  hasVisibleRoot : list BaseClassDef → bool
}.

(** A finite set of classes that contains every class an edge of one of
    its members points to. *)
Definition closedUnder (g : SymbolGraph) (universe : gset nat) : Prop :=
  ∀ cd bcd, cd ∈ universe →
    bcd ∈ baseClasses (classOf g cd) ++ subClasses (classOf g cd) →
    classDef bcd ∈ universe.

End Symbols.

(* ===================================================================== *)
(** * InheritedMemberInfoListContext *)
(* ===================================================================== *)

Module InheritedMembers.
Import Symbols.

(** One [InheritedMemberInfoContext]: the class the members come from, the
    combined member list with the list type it was created for, and the
    title. *)
Record InheritedMemberInfo : Type := mkInfo {
  info_class : nat;
  info_listType : MemberListType;
  info_members : list nat;
  info_title : string
}.

Section Aggregator.

Variable g : SymbolGraph.

(** [Private::addMemberList(inheritedFrom,ml,combinedList)] *)
Definition Private_addMemberList (inheritedFrom : nat) (ml : list nat)
    (combinedList : list nat) : list nat :=
  foldl (λ acc md,
           if isBriefSectionVisible (memberOf g md)
              && negb (isReimplementedBy (memberOf g md) inheritedFrom)
           then acc ++ [md] else acc)
        combinedList ml.

(** [addMemberListIncludingGrouped(inheritedFrom,ml,combinedList)] *)
Definition addMemberListIncludingGrouped (inheritedFrom : nat)
    (ml : option MemberList) (combinedList : list nat) : list nat :=
  match ml with
  | None => combinedList
  | Some l =>
      foldl (λ acc mg, Private_addMemberList inheritedFrom (mg_members mg) acc)
            (Private_addMemberList inheritedFrom (ml_members l) combinedList)
            (getMemberGroupList l)
  end.

(** [addMemberGroupsOfClass(inheritedFrom,cd,lt,combinedList)] *)
Definition addMemberGroupsOfClass (inheritedFrom cd : nat) (lt : MemberListType)
    (combinedList : list nat) : list nat :=
  foldl (λ acc mg,
           if negb (bool_decide (mg_members mg = []))
              && (negb (allMembersInSameSection mg)
                  || negb (subGrouping (classOf g cd)))
           then
             foldl (λ acc1 md,
                      if (lt =? sectionListType (memberOf g md) (mg_container mg))
                         && negb (isReimplementedBy (memberOf g md) inheritedFrom)
                         && isBriefSectionVisible (memberOf g md)
                      then acc1 ++ [md] else acc1)
                   acc (mg_members mg)
           else acc)
        combinedList (getMemberGroups (classOf g cd)).

(** The [count] of [addInheritedMembers]. *)
Definition inheritedCount (inheritedFrom cd : nat) (lt1 : MemberListType)
    (lt2 : Z) (additionalList : bool) : Z :=
  let count :=
    countMembersIncludingGrouped (classOf g cd) lt1 inheritedFrom additionalList in
  if lt2 =? -1 then count
  else count
       + countMembersIncludingGrouped (classOf g cd) lt2 inheritedFrom additionalList.

(** The [combinedList] of [addInheritedMembers]. *)
Definition combinedMembers (inheritedFrom cd : nat) (lt lt1 : MemberListType)
    (lt2 : Z) : list nat :=
  let ml := getMemberList (classOf g cd) lt1 in
  let ml2 := if lt2 =? -1 then None else getMemberList (classOf g cd) lt2 in
  let c1 := addMemberListIncludingGrouped inheritedFrom ml [] in
  let c2 := addMemberListIncludingGrouped inheritedFrom ml2 c1 in
  let c3 := addMemberGroupsOfClass inheritedFrom cd lt c2 in
  if lt2 =? -1 then c3 else addMemberGroupsOfClass inheritedFrom cd lt2 c3.

(** [addInheritedMembers(inheritedFrom,cd,lt,lt1,lt2,title,additionalList)];
    [out] is the list the context has accumulated so far. *)
Definition addInheritedMembers (inheritedFrom cd : nat) (lt lt1 : MemberListType)
    (lt2 : Z) (title : string) (additionalList : bool)
    (out : list InheritedMemberInfo) : list InheritedMemberInfo :=
  if inheritedCount inheritedFrom cd lt1 lt2 additionalList >? 0
  then out ++ [mkInfo cd lt (combinedMembers inheritedFrom cd lt lt1 lt2) title]
  else out.

(** [findInheritedMembers(inheritedFrom,cd,lt,lt2,title,additionalList,visitedClasses)].
    The state is the visited set (a reference in the source) and the
    list of the context; [lt2] is the local copy the loop overwrites. *)
Fixpoint findInheritedMembers (fuel : nat) (inheritedFrom cd : nat)
    (lt : MemberListType) (lt2 : Z) (title : string) (additionalList : bool)
    (st : gset nat * list InheritedMemberInfo) {struct fuel}
  : option (gset nat * list InheritedMemberInfo) :=
  match fuel with
  | O => None
  | S fuel' =>
      (fix each (bcl : list BaseClassDef) (lt2 : Z)
                (st : gset nat * list InheritedMemberInfo) {struct bcl}
         : option (gset nat * list InheritedMemberInfo) :=
         match bcl with
         | [] => Some st
         | ibcd :: rest =>
             let icd := classDef ibcd in
             if isLinkable (classOf g icd) then
               let '(lt1, lt3) := convertProtectionLevel g lt (prot ibcd) in
               let lt2 := if (lt2 =? -1) && negb (lt3 =? -1) then lt3 else lt2 in
               if decide (icd ∈ st.1) then each rest lt2 st
               else
                 let visitedClasses := {[icd]} ∪ st.1 in
                 if negb (lt1 =? -1) then
                   let out := addInheritedMembers inheritedFrom icd lt lt1 lt2
                                                  title additionalList st.2 in
                   match findInheritedMembers fuel' inheritedFrom icd lt1 lt2
                                              title additionalList
                                              (visitedClasses, out) with
                   | None => None
                   | Some st' => each rest lt2 st'
                   end
                 else each rest lt2 (visitedClasses, st.2)
             else each rest lt2 st
         end) (baseClasses (classOf g cd)) lt2 st
  end.

(** The two flags of [InheritedMemberInfoListContext::addMemberList]. *)
Definition memberInSection (cd : nat) (lt : MemberListType) : bool :=
  countMembersIncludingGrouped (classOf g cd) lt cd false >? 0.

Definition show (cd : nat) (lt : MemberListType) (additionalList : bool) : bool :=
  (additionalList && negb (memberInSection cd lt))
  || (negb additionalList && memberInSection cd lt).

(** [InheritedMemberInfoListContext::addMemberList(cd,lt,title,additionalList)]
    on a context that holds [out]. *)
Definition addMemberList (fuel : nat) (cd : nat) (lt : MemberListType)
    (title : string) (additionalList : bool) (out : list InheritedMemberInfo)
  : option (list InheritedMemberInfo) :=
  let visited : gset nat := ∅ in
  if show cd lt additionalList
  then snd <$> findInheritedMembers fuel cd cd lt (-1) title additionalList
                                    (visited, out)
  else Some out.

End Aggregator.



End InheritedMembers.

(* ===================================================================== *)
(** * The class-hierarchy nesting tree *)
(* ===================================================================== *)

Module Nesting.
Import Symbols.

(** A [NestingNodeContext] of the class-inheritance tree: the class, its
    index among its siblings, its level and its [m_children].  The
    [m_members] list holds member nodes only; a member is no class, so
    [addClasses] adds nothing below it and it is left out here. *)
#[local] Unset Elimination Schemes.
Inductive NestingNode : Type :=
  | mkNode (n_def : nat) (n_index n_level : Z) (n_children : list NestingNode).
#[local] Set Elimination Schemes.

Definition n_def (n : NestingNode) : nat :=
  match n with mkNode d _ _ _ => d end.
Definition n_children (n : NestingNode) : list NestingNode :=
  match n with mkNode _ _ _ c => c end.

(** A [NestingContext]: its nodes and the running [m_index]. *)
Record NestingContext : Type := mkContext {
  m_level : Z;
  m_index : Z;
  m_nodes : list NestingNode
}.

(** [NestingContext::alloc(parent,type,level)] *)
Definition newContext (level : Z) : NestingContext := mkContext level 0 [].

(** [append(node); m_index++] *)
Definition appendNode (n : NestingNode) (c : NestingContext) : NestingContext :=
  mkContext (m_level c) (m_index c + 1) (m_nodes c ++ [n]).

Section Builder.

Variable g : SymbolGraph.

(** [hasChildren] of [NestingNodeContext::Private::addClasses] *)
Definition hasChildren (cd : nat) (hideSuper : bool) (visitedClasses : gset nat)
  : bool :=
  bool_decide (cd ∉ visitedClasses) && negb hideSuper && classHasVisibleChildren g cd.

(** The test of [addDerivedClasses] for one edge: [None] is the
    [continue], [Some b] the value of [cd->isVisibleInHierarchy() && b]. *)
Definition derivedClassShown (cd : nat) : option bool :=
  if isVHDL (classOf g cd) && negb (isEntityClass (classOf g cd)) then None
  else
    let b := if isVHDL (classOf g cd)
             then hasVisibleRoot g (subClasses (classOf g cd))
             else hasVisibleRoot g (baseClasses (classOf g cd)) in
    Some (isVisibleInHierarchy (classOf g cd) && b).

(** [NestingNodeContext::alloc(parent,type,cd,index,level,TRUE,FALSE,TRUE,hideSuper,visitedClasses)]
    for a class: the constructor creates [m_children] at [level+1] and
    runs [addClasses(inherit=TRUE,hideSuper,visitedClasses)], which fills
    it through [NestingContext::Private::addDerivedClasses].  The inner
    loop is that function, called with [hideSuper=false]. *)
Fixpoint allocNode (fuel : nat) (cd : nat) (index level : Z) (hideSuper : bool)
    (visitedClasses : gset nat) {struct fuel}
  : option (NestingNode * gset nat) :=
  match fuel with
  | O => None
  | S fuel' =>
      if hasChildren cd hideSuper visitedClasses then
        let visitedClasses := {[cd]} ∪ visitedClasses in
        let bcl := if isVHDL (classOf g cd)
                   then baseClasses (classOf g cd)
                   else subClasses (classOf g cd) in
        match
          (fix addDerivedClasses (bcl : list BaseClassDef) (ctx : NestingContext)
               (visitedClasses : gset nat) {struct bcl}
             : option (NestingContext * gset nat) :=
             match bcl with
             | [] => Some (ctx, visitedClasses)
             | bcd :: rest =>
                 match derivedClassShown (classDef bcd) with
                 | Some true =>
                     match allocNode fuel' (classDef bcd) (m_index ctx) (m_level ctx)
                                     false visitedClasses with
                     | None => None
                     | Some (tnc, visitedClasses') =>
                         addDerivedClasses rest (appendNode tnc ctx) visitedClasses'
                     end
                 | _ => addDerivedClasses rest ctx visitedClasses
                 end
             end) bcl (newContext (level + 1)) visitedClasses
        with
        | None => None
        | Some (children, visitedClasses') =>
            Some (mkNode cd index level (m_nodes children), visitedClasses')
        end
      else Some (mkNode cd index level [], visitedClasses)
  end.

(** [NestingContext::Private::addDerivedClasses(bcl,hideSuper,visitedClasses)]
    as a function of its own. *)
Fixpoint addDerivedClasses (fuel : nat) (bcl : list BaseClassDef) (hideSuper : bool)
    (ctx : NestingContext) (visitedClasses : gset nat) {struct bcl}
  : option (NestingContext * gset nat) :=
  match bcl with
  | [] => Some (ctx, visitedClasses)
  | bcd :: rest =>
      match derivedClassShown (classDef bcd) with
      | Some true =>
          match allocNode fuel (classDef bcd) (m_index ctx) (m_level ctx)
                          hideSuper visitedClasses with
          | None => None
          | Some (tnc, visitedClasses') =>
              addDerivedClasses fuel rest hideSuper (appendNode tnc ctx) visitedClasses'
          end
      | _ => addDerivedClasses fuel rest hideSuper ctx visitedClasses
      end
  end.

(** The test of [addClassHierarchy] for one class: is it a root? *)
Definition isHierarchyRoot (cd : nat) : bool :=
  if isVHDL (classOf g cd) then
    if negb (isEntityClass (classOf g cd)) then false
    else negb (hasVisibleRoot g (subClasses (classOf g cd)))
  else negb (hasVisibleRoot g (baseClasses (classOf g cd))).

(** [NestingContext::Private::addClassHierarchy(classLinkedMap,visitedClasses)] *)
Fixpoint addClassHierarchy (fuel : nat) (classLinkedMap : list nat)
    (ctx : NestingContext) (visitedClasses : gset nat) {struct classLinkedMap}
  : option (NestingContext * gset nat) :=
  match classLinkedMap with
  | [] => Some (ctx, visitedClasses)
  | cd :: rest =>
      if isHierarchyRoot cd && isVisibleInHierarchy (classOf g cd) then
        match allocNode fuel cd (m_index ctx) (m_level ctx) false visitedClasses with
        | None => None
        | Some (nnc, visitedClasses') =>
            addClassHierarchy fuel rest (appendNode nnc ctx) visitedClasses'
        end
      else addClassHierarchy fuel rest ctx visitedClasses
  end.

(** The constructor of [ClassHierarchyContext::Private]: one tree, one
    visited set, first the visible classes, then the hidden ones. *)
Definition classHierarchy (fuel : nat) (classLinkedMap hiddenClassLinkedMap : list nat)
  : option (list NestingNode) :=
  let visitedClasses : gset nat := ∅ in
  '(tree1, visited1) ← addClassHierarchy fuel classLinkedMap (newContext 0)
                                         visitedClasses;
  '(tree2, _) ← addClassHierarchy fuel hiddenClassLinkedMap tree1 visited1;
  Some (m_nodes tree2).

(** The classes of the nodes found below a node, at any depth. *)
Fixpoint classesBelow (n : NestingNode) : list nat :=
  match n with
  | mkNode _ _ _ children =>
      (fix each (l : list NestingNode) : list nat :=
         match l with
         | [] => []
         | c :: rest => n_def c :: classesBelow c ++ each rest
         end) children
  end.

End Builder.

End Nesting.

(* ===================================================================== *)
(** * GenericNodeListContext and its iterator *)
(* ===================================================================== *)

Module GenericList.

(** The list is its [m_children]; lists are taken to be shorter than
    [2^31], so the casts of [size()] to [uint] and [int] change nothing. *)

(** [uint count() const] *)
Definition count (m_children : list TemplateVariant) : nat := length m_children.

(** [TemplateVariant at(uint index) const] *)
Definition at_ (m_children : list TemplateVariant) (index : nat) : TemplateVariant :=
  if decide (index < count m_children)%nat
  then default VNone (m_children !! index)
  else VNone.

(** [void append(const TemplateVariant &ctn)] *)
Definition append (ctn : TemplateVariant) (m_children : list TemplateVariant)
  : list TemplateVariant :=
  m_children ++ [ctn].

(** [bool isEmpty() const] *)
Definition isEmpty (m_children : list TemplateVariant) : bool :=
  bool_decide (m_children = []).

(** [static_cast<int>(m_list.size())] of [GenericConstIterator]. *)
Definition size (m_list : list TemplateVariant) : Z := Z.of_nat (length m_list).

(** The cursor of [GenericConstIterator] is its [m_index]. *)

(** [void toFirst()] *)
Definition toFirst (m_index : Z) : Z := 0.

(** [void toLast()] *)
Definition toLast (m_list : list TemplateVariant) (m_index : Z) : Z :=
  size m_list - 1.

(** [void toNext()] *)
Definition toNext (m_list : list TemplateVariant) (m_index : Z) : Z :=
  if m_index <? size m_list then m_index + 1 else m_index.

(** [void toPrev()] *)
Definition toPrev (m_index : Z) : Z :=
  if m_index >=? 0 then m_index - 1 else m_index.

(** [bool current(TemplateVariant &v) const]: the result and the value left
    in [v]. *)
Definition current (m_list : list TemplateVariant) (m_index : Z)
  : bool * TemplateVariant :=
  if (m_index >=? 0) && (m_index <? size m_list)
  then (true, default VNone (m_list !! Z.to_nat m_index))
  else (false, VNone).

(** [for (it->toFirst();it->current(v);it->toNext())], collecting [v]:
    the loop from a given cursor, with the values seen so far. *)
Fixpoint forward (fuel : nat) (m_list : list TemplateVariant) (m_index : Z)
    (seen : list TemplateVariant) : option (list TemplateVariant) :=
  match fuel with
  | O => None
  | S fuel' =>
      let '(ok, v) := current m_list m_index in
      if ok then forward fuel' m_list (toNext m_list m_index) (seen ++ [v])
      else Some seen
  end.

Definition forEach (fuel : nat) (m_list : list TemplateVariant)
  : option (list TemplateVariant) :=
  forward fuel m_list (toFirst 0) [].

(** [for (it->toLast();it->current(v);it->toPrev())], collecting [v]. *)
Fixpoint backward (fuel : nat) (m_list : list TemplateVariant) (m_index : Z)
    (seen : list TemplateVariant) : option (list TemplateVariant) :=
  match fuel with
  | O => None
  | S fuel' =>
      let '(ok, v) := current m_list m_index in
      if ok then backward fuel' m_list (toPrev m_index) (seen ++ [v])
      else Some seen
  end.

Definition forEachReversed (fuel : nat) (m_list : list TemplateVariant)
  : option (list TemplateVariant) :=
  backward fuel m_list (toLast m_list 0) [].

End GenericList.

(* ===================================================================== *)
(** * More on the depth metrics *)
(* ===================================================================== *)

Module TreeSize.
Import TreeDepth.

(** The number of nodes of a whole tree list. *)
Definition totalNodes (nodes : list TemplateStruct) : Z :=
  foldl (λ n v, n + numNodes v) 0 nodes.

End TreeSize.

(* ===================================================================== *)
(** * The shape of the inherited-member entries *)
(* ===================================================================== *)

Module InheritedShape.
Import Symbols InheritedMembers.

Section Shape.

Variable g : SymbolGraph.

(** [icd] is reached from [cd] along base-class edges that all lead to
    linkable classes. *)
Inductive linkableAncestor : nat → nat → Prop :=
  | ancestor_direct cd bcd :
      bcd ∈ baseClasses (classOf g cd) →
      isLinkable (classOf g (classDef bcd)) = true →
      linkableAncestor cd (classDef bcd)
  | ancestor_further cd mid icd :
      linkableAncestor cd mid → linkableAncestor mid icd →
      linkableAncestor cd icd.

(** A member that [Private::addMemberList] and [addMemberGroupsOfClass] let
    through. *)
Definition shownMember (inheritedFrom md : nat) : Prop :=
  isBriefSectionVisible (memberOf g md) = true
  ∧ isReimplementedBy (memberOf g md) inheritedFrom = false.

(** The local [lt2] of [findInheritedMembers] after its loop has passed the
    base classes [bcl], in the call with the list type [lt] that started
    with [lt2]: the first second list type [convertProtectionLevel] gave for
    a linkable base class is kept. *)
Definition lt2After (lt : MemberListType) (bcl : list BaseClassDef) (lt2 : Z) : Z :=
  foldl (λ lt2 ibcd,
           if isLinkable (classOf g (classDef ibcd)) then
             if (lt2 =? -1)
                && negb ((convertProtectionLevel g lt (prot ibcd)).2 =? -1)
             then (convertProtectionLevel g lt (prot ibcd)).2 else lt2
           else lt2)
        lt2 bcl.

(** One step down of the traversal.  A call of [findInheritedMembers] is
    the class it is made for with its arguments [lt] and [lt2]; it goes to
    a linkable base class with the first list type [convertProtectionLevel]
    gives for the edge, unless that is [-1], and with the [lt2] the loop
    holds at that edge. *)
Inductive descends
  : nat * MemberListType * Z → nat * MemberListType * Z → Prop :=
  | descends_edge cd lt lt2 pre ibcd post :
      baseClasses (classOf g cd) = pre ++ ibcd :: post →
      isLinkable (classOf g (classDef ibcd)) = true →
      (convertProtectionLevel g lt (prot ibcd)).1 ≠ -1 →
      descends (cd, lt, lt2)
               (classDef ibcd, (convertProtectionLevel g lt (prot ibcd)).1,
                lt2After lt (pre ++ [ibcd]) lt2).

(** An entry as [addInheritedMembers] makes it in a traversal for
    [inheritedFrom] that began with the call [start]: a linkable class
    reached by steps down from [start], the given title, the list type of
    the call the last step left, the combined list of the class for that
    list type and the two list types of the last step, a positive member
    count for these two, and only members that are shown. *)
Definition entryFrom (inheritedFrom : nat) (start : nat * MemberListType * Z)
    (title : string) (additionalList : bool) (e : InheritedMemberInfo) : Prop :=
  isLinkable (classOf g (info_class e)) = true
  ∧ info_title e = title
  ∧ (∃ cd lt lt2 lt1 lt2',
       rtc descends start (cd, lt, lt2)
       ∧ descends (cd, lt, lt2) (info_class e, lt1, lt2')
       ∧ info_listType e = lt
       ∧ info_members e
         = combinedMembers g inheritedFrom (info_class e) lt lt1 lt2'
       ∧ 0 < inheritedCount g inheritedFrom (info_class e) lt1 lt2' additionalList)
  ∧ Forall (shownMember inheritedFrom) (info_members e).

(** The entries of [addMemberList(cd,lt,title,additionalList)]: the
    traversal begins with the call for [cd] itself, with [lt] and [-1]. *)
Definition entryOf (cd : nat) (lt : MemberListType) (title : string)
    (additionalList : bool) (e : InheritedMemberInfo) : Prop :=
  entryFrom cd (cd, lt, -1) title additionalList e.

End Shape.

End InheritedShape.

(* ===================================================================== *)
(** * The shape of the class-hierarchy tree *)
(* ===================================================================== *)

Module NestingShape.
Import Symbols Nesting.

Definition n_index (n : NestingNode) : Z :=
  match n with mkNode _ i _ _ => i end.
Definition n_level (n : NestingNode) : Z :=
  match n with mkNode _ _ l _ => l end.

(** [TemplateVariant isLeafNode() const]: [m_children->count()==0] *)
Definition isLeafNode (n : NestingNode) : bool :=
  bool_decide (length (n_children n) = 0%nat).

(** A node as [computeMaxDepth] and [computeNumNodesAtLevel] see it:
    [children()] returns [m_children], always a list. *)
Fixpoint toTemplateStruct (n : NestingNode) : TreeDepth.TemplateStruct :=
  match n with
  | mkNode _ _ _ c => TreeDepth.mkStruct (Some (List.map toTemplateStruct c))
  end.

(** A node and all nodes below it. *)
Fixpoint subtree (n : NestingNode) : list NestingNode :=
  match n with
  | mkNode _ _ _ c => n :: List.concat (List.map subtree c)
  end.

(** The classes that have children somewhere in the tree of [n], one
    occurrence for each place. *)
Fixpoint expanded (n : NestingNode) : list nat :=
  match n with
  | mkNode d _ _ c =>
      (if c is [] then [] else [d]) ++ List.concat (List.map expanded c)
  end.

(** The nodes of a list carry the indices [index], [index+1], ... and the
    level [level], and so on below them, from index 0 one level deeper. *)
Fixpoint numbered (n : NestingNode) (index level : Z) : Prop :=
  match n with
  | mkNode _ i l c =>
      i = index ∧ l = level
      ∧ (fix each (l0 : list NestingNode) (k : Z) : Prop :=
           match l0 with
           | [] => True
           | x :: rest => numbered x k (level + 1) ∧ each rest (k + 1)
           end) c 0
  end.

Fixpoint numberedFrom (nodes : list NestingNode) (index level : Z) : Prop :=
  match nodes with
  | [] => True
  | x :: rest => numbered x index level ∧ numberedFrom rest (index + 1) level
  end.

Section Edges.

Variable g : SymbolGraph.

(** The edges [addClasses] follows from [cd]. *)
Definition edgesOf (cd : nat) : list BaseClassDef :=
  if isVHDL (classOf g cd) then baseClasses (classOf g cd)
  else subClasses (classOf g cd).

(** The classes [addDerivedClasses] makes nodes of, in the order of the
    edges. *)
Definition shownClasses (bcl : list BaseClassDef) : list nat :=
  classDef <$> filter (λ b, derivedClassShown g (classDef b) = Some true) bcl.

(** The classes [addClassHierarchy] makes roots of, in the order of the
    class list. *)
Definition rootClasses (classLinkedMap : list nat) : list nat :=
  filter (λ cd, isHierarchyRoot g cd && isVisibleInHierarchy (classOf g cd) = true)
         classLinkedMap.

End Edges.

End NestingShape.

(* ===================================================================== *)
(** * The life of a cookie *)
(* ===================================================================== *)

Module Cookies.
Import DefinitionContext.

(** The end of [generateOutputViaTemplate]:
    [for (const auto &kv : *Doxygen::symbolMap) kv.second->setCookie(0);]
    A cleared cookie is an absent one. *)
Definition clearCookies (symbolMap : list nat) (w : World) : World :=
  setCookies (foldl (λ ck def, delete def ck) (cookies w) symbolMap) w.

(** The slots of a cookie other than [details]. *)
Definition besidesDetails (c : Cachable) :=
  (brief c, briefOutputFormat c, inbodyDocs c, inbodyDocsOutputFormat c).

(** The slots of a cookie other than [brief]. *)
Definition besidesBrief (c : Cachable) :=
  (details c, detailsOutputFormat c, inbodyDocs c, inbodyDocsOutputFormat c).

(** The slots of a cookie other than [inbodyDocs]. *)
Definition besidesInbodyDocs (c : Cachable) :=
  (details c, detailsOutputFormat c, brief c, briefOutputFormat c).

(** What an accessor on [def] may change between [w] and [w1]: the cookie
    of [def], the log of parser calls and the error stream, both only by
    appending. *)
Definition framed (def : nat) (w w1 : World) : Prop :=
  outputFormat w1 = outputFormat w
  ∧ (∀ d, d ≠ def → cookies w1 !! d = cookies w !! d)
  ∧ is_Some (cookies w1 !! def)
  ∧ parseCalls w `prefix_of` parseCalls w1
  ∧ errors w `prefix_of` errors w1.

(** An accessor [get] on an attached cookie [c] of [def]: it answers, stays
    within its frame, leaves the slots [besides] its own as they were, and a
    context object made for [def] afterwards gets the same answer from the
    same state. *)
Definition settles {B : Type} (get : nat → World → option (TemplateVariant * World))
    (besides : Cachable → B) (def : nat) (w : World) (c : Cachable) : Prop :=
  ∃ v w1 c1, get def w = Some (v, w1)
    ∧ framed def w w1
    ∧ cookies w1 !! def = Some c1
    ∧ besides c1 = besides c
    ∧ get def (attachCookie def w1) = Some (v, w1).

(** The render passes of [generateOutputViaTemplate] as far as the details
    of one definition go: [g_globals.outputFormat] is set, then the
    templates ask for [details]. *)
Definition detailsInPasses (def : nat) (passes : list ContextOutputFormat)
  : list Request :=
  flat_map (λ f, [SetOutputFormat f; Details def]) passes.

(** No pass of the list has the format [f] of the pass before it. *)
Fixpoint differsFrom (f : ContextOutputFormat) (passes : list ContextOutputFormat)
  : Prop :=
  match passes with
  | [] => True
  | f1 :: rest => f1 ≠ f ∧ differsFrom f1 rest
  end.

Definition alternating (passes : list ContextOutputFormat) : Prop :=
  match passes with
  | [] => True
  | f :: rest => differsFrom f rest
  end.

End Cookies.

(* ===================================================================== *)
(** * The brief description of a tree node *)
(* ===================================================================== *)

Module NodeBrief.
Import DefinitionContext.

Section Node.

Variable tools : DocTools.
Variable symbols : nat → Def.

(** [TemplateVariant NestingNodeContext::Private::brief() const].  The slot
    [m_cache.brief] belongs to the node, not to the cookie of [m_def]; it
    is passed in and returned. *)
Definition nodeBrief (m_def : nat) (m_cache_brief : option TemplateVariant)
    (w : World) : TemplateVariant * option TemplateVariant * World :=
  match m_cache_brief with
  | None =>
      if hasBriefDescription (symbols m_def) then
        let '(v, w1) := parseDoc tools symbols m_def (briefFile (symbols m_def))
                                 (briefLine (symbols m_def)) EmptyString
                                 (briefDescription (symbols m_def)) true w in
        (v, Some v, w1)
      else (VString EmptyString false, Some (VString EmptyString false), w)
  | Some v => (v, m_cache_brief, w)
  end.

(** The same node asked once in each render pass: [g_globals.outputFormat]
    is set, then the template asks for [brief]. *)
Fixpoint briefInPasses (m_def : nat) (passes : list ContextOutputFormat)
    (m_cache_brief : option TemplateVariant) (w : World)
  : list TemplateVariant * option TemplateVariant * World :=
  match passes with
  | [] => ([], m_cache_brief, w)
  | f :: rest =>
      let '(v, slot1, w1) := nodeBrief m_def m_cache_brief (setOutputFormat f w) in
      let '(vs, slot2, w2) := briefInPasses m_def rest slot1 w1 in
      (v :: vs, slot2, w2)
  end.

End Node.

End NodeBrief.

(* ===================================================================== *)
(** * ConfigContext *)
(* ===================================================================== *)

Module ConfigContext.

(** [ConfigValues::Info]: the type tag of an option together with the value
    its member pointer selects.  [InfoOther] stands for a tag that has no
    case in the [switch]. *)
Inductive Info : Type :=
  | InfoBool (b : bool)
  | InfoInt (i : Z)
  | InfoString (s : string)
  | InfoList (l : list string)
  | InfoOther.

(** [ConfigContext::Private] and the [TemplateList] objects it allocated: a
    list variant is the handle of one of them, its position in [lists]. *)
Record Private : Type := mkPrivate {
  m_cachedLists : gmap string TemplateVariant;
  lists : list (list TemplateVariant)
}.

Definition newPrivate : Private := mkPrivate ∅ [].

(** [TemplateVariant fetchList(const QCString &name,const StringVector &list)] *)
Definition fetchList (name : string) (list : list string) (p : Private)
  : TemplateVariant * Private :=
  match m_cachedLists p !! name with
  | None =>
      let tlist := length (lists p) in
      (VList tlist,
       mkPrivate (<[name := VList tlist]> (m_cachedLists p))
                 (lists p ++ [(λ s, VString s false) <$> list]))
  | Some v => (v, p)
  end.

Section Get.

(** [ConfigValues::instance().get(name)] *)
Variable options : string → option Info.

(** [TemplateVariant ConfigContext::get(const QCString &name) const] *)
Definition get (name : string) (p : Private) : TemplateVariant * Private :=
  if negb (String.eqb name EmptyString) then
    match options name with
    | Some (InfoBool b) => (VBool b, p)
    | Some (InfoInt i) => (VInt i, p)
    | Some (InfoString s) => (VString s false, p)
    | Some (InfoList l) => fetchList name l p
    | Some InfoOther => (VNone, p)
    | None => (VNone, p)
    end
  else (VNone, p).

(** A run of lookups, as a template makes them. *)
Fixpoint getAll (names : list string) (p : Private)
  : list TemplateVariant * Private :=
  match names with
  | [] => ([], p)
  | name :: rest =>
      let '(v, p1) := get name p in
      let '(vs, p2) := getAll rest p1 in
      (v :: vs, p2)
  end.

(** Every cached entry is the handle of a list that holds the strings of
    the option it is cached for. *)
Definition cacheSound (p : Private) : Prop :=
  ∀ name v, m_cachedLists p !! name = Some v →
    ∃ tlist l, v = VList tlist
               ∧ options name = Some (InfoList l)
               ∧ lists p !! tlist = Some ((λ s, VString s false) <$> l).

End Get.

End ConfigContext.

(* ===================================================================== *)
(** * The navigation path *)
(* ===================================================================== *)

Module NavigationPath.

Inductive DefType : Type :=
  | TypeClass | TypeFile | TypeNamespace | TypeGroup | TypePackage
  | TypePage | TypeDir | TypeConcept | TypeMember.

#[global] Instance DefType_eq_dec : EqDecision DefType.
Proof. solve_decision. Defined.

(** What a [Definition] answers to [fillPath]; [getDirDef] is the one of
    [toFileDef(def)] and is read for files only. *)
Record Scoped : Type := mkScoped {
  getOuterScope : option nat;
  definitionType : DefType;
  getDirDef : option nat
}.

Section Path.

Variable defs : nat → Scoped.
(** [Doxygen::globalScope] *)
Variable globalScope : nat.

(** [void fillPath(const Definition *def,TemplateList *list) const]; the
    list holds the definition of each [NavPathElemContext] appended. *)
Fixpoint fillPath (fuel : nat) (def : nat) (list : list nat)
  : option (Datatypes.list nat) :=
  match fuel with
  | O => None
  | S fuel' =>
      let outerScope := getOuterScope (defs def) in
      let type := definitionType (defs def) in
      let elseBranch :=
        match type, getDirDef (defs def) with
        | TypeFile, Some dir => fillPath fuel' dir list
        | _, _ => Some list
        end in
      list1 ← match outerScope with
              | Some outer =>
                  if decide (outer ≠ globalScope) then fillPath fuel' outer list
                  else elseBranch
              | None => elseBranch
              end;
      Some (list1 ++ [def])
  end.

(** [TemplateVariant navigationPath() const]; [navPath] is the slot of the
    cookie of [m_def], passed in and returned. *)
Definition navigationPath (fuel : nat) (m_def : nat) (navPath : option (list nat))
  : option (list nat * option (list nat)) :=
  match navPath with
  | None =>
      let elseBranch :=
        match definitionType (defs m_def), getDirDef (defs m_def) with
        | TypeFile, Some dir => fillPath fuel dir []
        | _, _ => Some []
        end in
      list ← match getOuterScope (defs m_def) with
             | Some outer =>
                 if decide (outer ≠ globalScope) then fillPath fuel m_def []
                 else elseBranch
             | None => elseBranch
             end;
      Some (list, Some list)
  | Some list => Some (list, navPath)
  end.

(** The definition [fillPath] goes to before it appends [def]: the outer
    scope unless that is missing or global, then the directory of a file. *)
Definition enclosing (def : nat) : option nat :=
  match getOuterScope (defs def) with
  | Some outer =>
      if decide (outer ≠ globalScope) then Some outer
      else match definitionType (defs def) with
           | TypeFile => getDirDef (defs def)
           | _ => None
           end
  | None => match definitionType (defs def) with
            | TypeFile => getDirDef (defs def)
            | _ => None
            end
  end.

(** A path in which every element is enclosed by the one before it, the
    first by [prev]. *)
Fixpoint chainFrom (prev : option nat) (path : list nat) : Prop :=
  match path with
  | [] => True
  | x :: rest => enclosing x = prev ∧ chainFrom (Some x) rest
  end.

End Path.

End NavigationPath.

(* ===================================================================== *)
(** * Spaceless filters *)
(* ===================================================================== *)

Module Spaceless.

(** The characters the two filters look at.  The end of a C string is the
    character [zero]. *)
Definition tab : ascii := ascii_of_nat 9.
Definition newline : ascii := ascii_of_nat 10.
Definition space : ascii := ascii_of_nat 32.
Definition dquote : ascii := ascii_of_nat 34.
Definition squote : ascii := ascii_of_nat 39.
Definition ltChar : ascii := ascii_of_nat 60.
Definition gtChar : ascii := ascii_of_nat 62.
Definition backslash : ascii := ascii_of_nat 92.

(** [case ' ': case '\t': case '\n':] *)
Definition isWhite (c : ascii) : bool :=
  Ascii.eqb c space || Ascii.eqb c tab || Ascii.eqb c newline.

(** The loop of [LatexSpaceless::remove]: [while ((c=*p++))]. *)
Fixpoint latexLoop (p : string) : string :=
  match p with
  | EmptyString => EmptyString
  | String c p1 =>
      if Ascii.eqb c zero then EmptyString
      else if isWhite c then latexLoop p1
      else String c (latexLoop p1)
  end.

(** [QCString LatexSpaceless::remove(const QCString &s)] *)
Definition latexRemove (s : string) : string :=
  match s with
  | EmptyString => s
  | _ => latexLoop s
  end.

(** The members of [HtmlSpaceless]; [m_insideString] is [zero] outside a
    string and the quote that opened it inside one. *)
Record HtmlSpaceless : Type := mkHtmlSpaceless {
  m_insideTag : bool;
  m_insideString : ascii;
  m_removeSpaces : bool
}.

(** [void reset()] *)
Definition reset : HtmlSpaceless := mkHtmlSpaceless false zero true.

(** The loop of [HtmlSpaceless::remove]. *)
Fixpoint htmlLoop (p : string) (st : HtmlSpaceless) : string * HtmlSpaceless :=
  match p with
  | EmptyString => (EmptyString, st)
  | String c p1 =>
      if Ascii.eqb c zero then (EmptyString, st)
      else if Ascii.eqb c ltChar then
        let st1 := if Ascii.eqb (m_insideString st) zero
                   then mkHtmlSpaceless true (m_insideString st) false else st in
        let '(result, st2) := htmlLoop p1 st1 in (String c result, st2)
      else if Ascii.eqb c gtChar then
        let st1 := if Ascii.eqb (m_insideString st) zero
                   then mkHtmlSpaceless false (m_insideString st) true else st in
        let '(result, st2) := htmlLoop p1 st1 in (String c result, st2)
      else if Ascii.eqb c backslash then
        match p1 with
        | String d p2 =>
            if negb (Ascii.eqb (m_insideString st) zero) && negb (Ascii.eqb d zero)
            then let '(result, st2) := htmlLoop p2 st in
                 (String c (String d result), st2)
            else let '(result, st2) := htmlLoop p1 st in (String c result, st2)
        | EmptyString => (String c EmptyString, st)
        end
      else if Ascii.eqb c dquote || Ascii.eqb c squote then
        let st1 :=
          if m_insideTag st then
            if Ascii.eqb (m_insideString st) c
            then mkHtmlSpaceless (m_insideTag st) zero (m_removeSpaces st)
            else if Ascii.eqb (m_insideString st) zero
                 then mkHtmlSpaceless (m_insideTag st) c (m_removeSpaces st)
                 else st
          else st in
        let '(result, st2) := htmlLoop p1 st1 in (String c result, st2)
      else if isWhite c then
        if negb (m_insideTag st)
        then htmlLoop p1 (mkHtmlSpaceless (m_insideTag st) (m_insideString st) true)
        else let '(result, st2) := htmlLoop p1 st in (String space result, st2)
      else
        let '(result, st2) :=
          htmlLoop p1 (mkHtmlSpaceless (m_insideTag st) (m_insideString st) false) in
        (String c result, st2)
  end.

(** [QCString HtmlSpaceless::remove(const QCString &s)] *)
Definition htmlRemove (s : string) (st : HtmlSpaceless) : string * HtmlSpaceless :=
  match s with
  | EmptyString => (s, st)
  | _ => htmlLoop s st
  end.

(** The characters of a string. *)
Definition chars (s : string) : list ascii := list_ascii_of_string s.

(** One round of the loop of [HtmlSpaceless::remove] taken apart: the
    state after the character [c], what is written for it, and whether the
    round also takes the character after it, which happens after a
    backslash inside a string. *)
Definition nextState (c : ascii) (st : HtmlSpaceless) : HtmlSpaceless :=
  if Ascii.eqb c ltChar then
    if Ascii.eqb (m_insideString st) zero
    then mkHtmlSpaceless true (m_insideString st) false else st
  else if Ascii.eqb c gtChar then
    if Ascii.eqb (m_insideString st) zero
    then mkHtmlSpaceless false (m_insideString st) true else st
  else if Ascii.eqb c backslash then st
  else if Ascii.eqb c dquote || Ascii.eqb c squote then
    if m_insideTag st then
      if Ascii.eqb (m_insideString st) c
      then mkHtmlSpaceless (m_insideTag st) zero (m_removeSpaces st)
      else if Ascii.eqb (m_insideString st) zero
           then mkHtmlSpaceless (m_insideTag st) c (m_removeSpaces st)
           else st
    else st
  else if isWhite c then
    if negb (m_insideTag st)
    then mkHtmlSpaceless (m_insideTag st) (m_insideString st) true else st
  else mkHtmlSpaceless (m_insideTag st) (m_insideString st) false.

Definition emitted (c : ascii) (st : HtmlSpaceless) : string :=
  if isWhite c then
    if negb (m_insideTag st) then EmptyString else String space EmptyString
  else String c EmptyString.

Definition escaped (c : ascii) (p1 : string) (st : HtmlSpaceless) : bool :=
  Ascii.eqb c backslash && negb (Ascii.eqb (m_insideString st) zero)
  && match p1 with
     | String d _ => negb (Ascii.eqb d zero)
     | EmptyString => false
     end.

(** The states a filter can be in after [reset] and any number of calls:
    a string is open only inside a tag, and only with one of the two
    quotes. *)
Definition wellFormed (st : HtmlSpaceless) : Prop :=
  (m_insideString st = zero ∨ m_insideString st = dquote
   ∨ m_insideString st = squote)
  ∧ (m_insideString st ≠ zero → m_insideTag st = true).

End Spaceless.

(* ===================================================================== *)
(** * Search symbols: groups and neighbours *)
(* ===================================================================== *)

Module SymbolGroups.

Section Groups.

(** [searchName] of [searchindex.cpp], applied to a definition. *)
Variable searchName : nat → string.

(** The loop of [SymbolGroupListContext::Private(const SearchIndexList &sil)].
    Iterators are positions in [sil]; [rest] holds the entries from [it]
    on; a group is the pair of iterators given to
    [SymbolGroupContext::alloc]. *)
Fixpoint groupLoop (rest : list nat) (it it_begin : nat) (lastName : string)
    (groups : list (nat * nat)) : list (nat * nat) * nat :=
  match rest with
  | [] => (groups, it_begin)
  | def :: rest' =>
      let name := searchName def in
      if decide (name ≠ lastName) then
        let groups1 :=
          if decide (it ≠ it_begin) then groups ++ [(it_begin, it)] else groups in
        groupLoop rest' (S it) it name groups1
      else groupLoop rest' (S it) it_begin lastName groups
  end.

(** [SymbolGroupListContext::Private(const SearchIndexList &sil)] *)
Definition symbolGroups (sil : list nat) : list (nat * nat) :=
  let '(groups, it_begin) := groupLoop sil 0 0 EmptyString [] in
  if decide (it_begin ≠ length sil) then groups ++ [(it_begin, length sil)]
  else groups.

(** The entries between two iterators. *)
Definition range (sil : list nat) (start end_ : nat) : list nat :=
  take (end_ - start) (drop start sil).

(** The loop of [SymbolListContext::Private(start,end)]: every symbol with
    the one before and the one after it, [None] for a null pointer. *)
Fixpoint symbolLoop (entries : list nat) (prev : option nat)
  : list (nat * option nat * option nat) :=
  match entries with
  | [] => []
  | def :: rest => (def, prev, head rest) :: symbolLoop rest (Some def)
  end.

(** [SymbolListContext::Private(start,end)] *)
Definition symbolList (sil : list nat) (start end_ : nat)
  : list (nat * option nat * option nat) :=
  symbolLoop (range sil start end_) None.

(** The groups cover the positions from [from] up to [to], in order, with
    no gap and no empty group. *)
Fixpoint tiles (groups : list (nat * nat)) (from to : nat) : Prop :=
  match groups with
  | [] => from = to
  | (start, end_) :: rest => start = from ∧ (start < end_)%nat ∧ tiles rest end_ to
  end.

(** The search name at a position of the list. *)
Definition nameAt (sil : list nat) (k : nat) : option string :=
  searchName <$> sil !! k.

(** All entries from [start] up to [end_] have one search name. *)
Definition homogeneous (sil : list nat) (start end_ : nat) : Prop :=
  ∀ k, (start ≤ k < end_)%nat → nameAt sil k = nameAt sil start.

(** A position where the search name changes, or an end of the list. *)
Definition boundary (sil : list nat) (k : nat) : Prop :=
  k = 0%nat ∨ k = length sil ∨ nameAt sil (k - 1) ≠ nameAt sil k.

(** A group holds one name and reaches from one boundary to the next. *)
Definition closed (sil : list nat) (group : nat * nat) : Prop :=
  homogeneous sil group.1 group.2
  ∧ boundary sil group.1 ∧ boundary sil group.2
  ∧ (group.2 ≤ length sil)%nat.

End Groups.

End SymbolGroups.

(* ===================================================================== *)
(** * The ids of tree nodes *)
(* ===================================================================== *)

Module NodeIds.
Import Nesting NestingShape.

Definition underscore : ascii := ascii_of_nat 95.

(** [void addMembers(const MemberVector &mv,ClassDefSet &visitedClasses)] of
    [NestingContext::Private], run on the [m_members] of a node: every
    member that is visible in the index gets a node with the running index
    of the context, one level below it.  No cast that fills [m_children]
    succeeds on a member, so the node has no children. *)
Definition addMembers (visibleInIndex : nat → bool) (mv : list nat)
    (ctx : NestingContext) : NestingContext :=
  foldl (λ ctx md,
           if visibleInIndex md
           then appendNode (mkNode md (m_index ctx) (m_level ctx + 1) []) ctx
           else ctx)
        ctx mv.

(** The [m_members] of a node at [level]: the constructor allocates the
    context at [level+1], and [NestingNodeContext::Private::addMembers] runs
    [addMembers] on it once for every member list it selects, here the
    member vectors [mvs] in turn. *)
Definition membersOf (visibleInIndex : nat → bool) (mvs : list (list nat))
    (level : Z) : list NestingNode :=
  m_nodes (foldl (λ ctx mv, addMembers visibleInIndex mv ctx)
                 (newContext (level + 1)) mvs).

Section Ids.

(** [QCString().setNum(int)] of [qcstring.h]. *)
Variable setNum : Z → string.

(** [TemplateVariant id() const], for a node whose parent has the id
    [parentId]; a root has no parent and starts from the empty string.  The
    parent of a node of [m_members] is the parent of the nodes of
    [m_children]: the node that holds both lists. *)
Definition id (parentId : string) (n : NestingNode) : string :=
  String.append parentId
    (String.append (setNum (n_index n)) (String underscore EmptyString)).

(** The id of a node and of every node that [children()] reaches from it.
    The nodes of the [m_members] lists are not among them. *)
Fixpoint childIds (parentId : string) (n : NestingNode) : list string :=
  match n with
  | mkNode d i l c =>
      id parentId (mkNode d i l c)
      :: List.concat (List.map (childIds (id parentId (mkNode d i l c))) c)
  end.

(** What the ids need of [setNum] on the indices of a tree: different
    numbers print differently, and no number prints an underscore. *)
Definition printsNumbers : Prop :=
  (∀ i j, 0 ≤ i → 0 ≤ j → setNum i = setNum j → i = j)
  ∧ (∀ i, 0 ≤ i → underscore ∉ Spaceless.chars (setNum i)).

End Ids.

End NodeIds.

(* ===================================================================== *)
(** * Concrete symbol graphs *)
(* ===================================================================== *)

Module Examples.
Import Symbols.

(** Member list type used by the examples (any fixed value serves). *)
Definition lt_pub : MemberListType := 1.

Definition noClass : ClassDef :=
  mkClassDef false [] [] false false false (λ _, None) [] false (λ _ _ _, 0).

(** A C++ class that is linkable and visible, with one member list. *)
Definition plainClass (bases subs : list nat) (own : list nat) : ClassDef :=
  mkClassDef true
    (map (λ c, mkBaseClassDef c Public) bases)
    (map (λ c, mkBaseClassDef c Public) subs)
    false false true
    (λ lt, if (lt =? lt_pub) && negb (bool_decide (own = []))
           then Some (mkMemberList lt_pub own []) else None)
    [] false
    (λ lt _ _, if lt =? lt_pub then Z.of_nat (length own) else 0).

Definition plainMember : MemberDef :=
  mkMemberDef true (λ _, false) (λ _, lt_pub).

(** Public inheritance keeps the list type and adds no second one. *)
Definition publicOnly (lt : MemberListType) (p : Protection) : Z * Z :=
  match p with Public => (lt, -1) | _ => (-1, -1) end.

(** The diamond: [A]=0, [B]=1 and [C]=2 derive from [A], [D]=3 derives
    from [B] and [C].  [A] declares member 10, [D] declares member 13. *)
Definition diamondClass (cd : nat) : ClassDef :=
  match cd with
  | 0%nat => plainClass [] [1%nat; 2%nat] [10%nat]
  | 1%nat => plainClass [0%nat] [3%nat] []
  | 2%nat => plainClass [0%nat] [3%nat] []
  | 3%nat => plainClass [1%nat; 2%nat] [] [13%nat]
  | _ => noClass
  end.

(** A graph of such classes.  The two helpers of [util.cpp] are given their
    reading for C++ classes: a class has visible children when one of its
    sub classes is visible, and a list of base classes has a visible root
    when one of them is visible. *)
Definition graphOf (classes : nat → ClassDef) : SymbolGraph :=
  mkSymbolGraph classes (λ _, plainMember) publicOnly
    (λ cd, existsb (λ b, isVisibleInHierarchy (classes (classDef b)))
                   (subClasses (classes cd)))
    (λ bcl, existsb (λ b, isVisibleInHierarchy (classes (classDef b))) bcl).

Definition diamond : SymbolGraph := graphOf diamondClass.


(** The diamond with a class [E]=4 derived from [D]. *)
Definition diamondExtClass (cd : nat) : ClassDef :=
  match cd with
  | 3%nat => plainClass [1%nat; 2%nat] [4%nat] [13%nat]
  | 4%nat => plainClass [3%nat] [] []
  | _ => diamondClass cd
  end.

Definition diamondExt : SymbolGraph := graphOf diamondExtClass.

(** A graph whose derived-class edges loop: [R]=0 has the subclass [X]=1,
    [X] has the subclass [Y]=2 and [Y] lists [X] as a subclass again. *)
Definition loopClass (cd : nat) : ClassDef :=
  match cd with
  | 0%nat => plainClass [] [1%nat] []
  | 1%nat => plainClass [0%nat; 2%nat] [2%nat] []
  | 2%nat => plainClass [1%nat] [1%nat] []
  | _ => noClass
  end.

Definition looping : SymbolGraph := graphOf loopClass.

Definition loopUniverse : gset nat := {[0%nat; 1%nat; 2%nat]}.

(** Handlers of the mock symbol [Foo] of the property-table scenario. *)
Record MockSymbol : Type := mkMock { mockName : string; mockLinkable : bool }.

Definition accessor_name : PropertyMapper.Handler MockSymbol (list string) :=
  λ obj w, (VString (mockName obj) false, w ++ ["name"%string]).

Definition accessor_bool : PropertyMapper.Handler MockSymbol (list string) :=
  λ obj w, (VBool (mockLinkable obj), w ++ ["isLinkable"%string]).

Definition mockTable : PropertyMapper.Mapper MockSymbol (list string) :=
  PropertyMapper.addProperties
    [("name"%string, accessor_name); ("isLinkable"%string, accessor_bool)]
    PropertyMapper.empty.

Definition foo : MockSymbol := mkMock "Foo" true.

(** A definition with documentation but no brief description, and the
    collaborators reduced to the identity on the text. *)
Definition undocumentedBrief : DefinitionContext.Def :=
  DefinitionContext.mkDef "a.h" 3 "Details." EmptyString 0 EmptyString false
    EmptyString 0 EmptyString ".h".

Definition echoTools : DefinitionContext.DocTools :=
  DefinitionContext.mkDocTools string
    (λ _ _ _ docStr _, docStr)
    (λ root, bool_decide (root = EmptyString))
    (λ root _ _, root)
    (λ root _ _ _, root).

End Examples.

Module OverlapExamples.
Import Symbols.




End OverlapExamples.

Module ScopeExamples.
Import NavigationPath.

(** The global scope 0, a namespace 1 in it, a class 2 in the namespace, a
    directory 3 and a file 4 in that directory. *)
Definition scopes (def : nat) : Scoped :=
  match def with
  | 0%nat => mkScoped None TypeNamespace None
  | 1%nat => mkScoped (Some 0%nat) TypeNamespace None
  | 2%nat => mkScoped (Some 1%nat) TypeClass None
  | 3%nat => mkScoped (Some 0%nat) TypeDir None
  | 4%nat => mkScoped (Some 0%nat) TypeFile (Some 3%nat)
  | _ => mkScoped None TypeMember None
  end.

End ScopeExamples.

(* ===================================================================== *)
(** * Properties of the property table *)
(* ===================================================================== *)

Section StringOrder.

Lemma ascii_compare_lt_trans (a b c : ascii) :
  Ascii.compare a b = Lt → Ascii.compare b c = Lt → Ascii.compare a c = Lt.
Proof.
  unfold Ascii.compare. rewrite !N.compare_lt_iff. lia.
Qed.

Lemma string_compare_lt_trans (s1 s2 s3 : string) :
  String.compare s1 s2 = Lt → String.compare s2 s3 = Lt →
  String.compare s1 s3 = Lt.
Proof.
  revert s2 s3. induction s1 as [|a s1 IH]; intros [|b s2] [|c s3]; simpl;
    try done.
  destruct (Ascii.compare a b) eqn:Hab; try done;
    destruct (Ascii.compare b c) eqn:Hbc; try done; intros H1 H2.
  - apply Ascii.compare_eq_iff in Hab, Hbc. subst.
    assert (Ascii.compare c c = Eq) as ->.
    { unfold Ascii.compare. apply N.compare_refl. }
    eauto.
  - apply Ascii.compare_eq_iff in Hab. subst. by rewrite Hbc.
  - apply Ascii.compare_eq_iff in Hbc. subst. by rewrite Hab.
  - by rewrite (ascii_compare_lt_trans _ _ _ Hab Hbc).
Qed.

#[global] Instance string_le_trans : Transitive string_le.
Proof.
  intros a b c. unfold string_le, String.leb.
  destruct (String.compare a b) eqn:Hab; try done;
    destruct (String.compare b c) eqn:Hbc; try done; intros _ _.
  - apply String.compare_eq_iff in Hab. subst. by rewrite Hbc.
  - apply String.compare_eq_iff in Hab. subst. by rewrite Hbc.
  - apply String.compare_eq_iff in Hbc. subst. by rewrite Hab.
  - by rewrite (string_compare_lt_trans _ _ _ Hab Hbc).
Qed.

#[global] Instance string_le_total : Total string_le.
Proof. intros a b. apply String.leb_total. Qed.

#[global] Instance string_le_antisym : AntiSymm (=) string_le.
Proof. intros a b. apply String.leb_antisym. Qed.

End StringOrder.

Section PropertyMapperFacts.
Import PropertyMapper.

Context {T World : Type}.
Implicit Types (pm : Mapper T World) (h : Handler T World).
Implicit Types (regs : list (string * Handler T World)).

Lemma addProperty_lookup name h pm n :
  m_map (addProperty name h pm) !! n =
    match m_map pm !! n with
    | Some h0 => Some h0
    | None => if decide (name = n) then Some h else None
    end.
Proof.
  unfold addProperty. destruct (m_map pm !! name) as [h1|] eqn:Hname; simpl.
  - destruct (m_map pm !! n) eqn:Hn; [done|].
    case_decide; [congruence|done].
  - rewrite lookup_insert. case_decide; subst.
    + by rewrite Hname.
    + by destruct (m_map pm !! n).
Qed.

Lemma addProperties_lookup regs pm n :
  m_map (addProperties regs pm) !! n =
    match m_map pm !! n with
    | Some h0 => Some h0
    | None => firstRegistered n regs
    end.
Proof.
  revert pm. induction regs as [|[name h] regs IH]; intros pm.
  - simpl. by destruct (m_map pm !! n).
  - change (addProperties ((name, h) :: regs) pm)
      with (addProperties regs (addProperty name h pm)).
    rewrite IH, addProperty_lookup. simpl.
    destruct (m_map pm !! n); [done|]. by case_decide.
Qed.

Lemma firstRegistered_None regs n :
  n ∉ regs.*1 → firstRegistered n regs = None.
Proof.
  induction regs as [|[name h] regs IH]; simpl; [done|].
  rewrite not_elem_of_cons. intros [Hne Hnot].
  case_decide; [congruence|auto].
Qed.

Lemma fields_permutation pm : fields pm ≡ₚ (map_to_list (m_map pm)).*1.
Proof. apply merge_sort_Permutation. Qed.

Lemma keys_permutation_dom pm :
  (map_to_list (m_map pm)).*1 ≡ₚ elements (dom (m_map pm)).
Proof.
  apply NoDup_Permutation.
  - apply NoDup_fst_map_to_list.
  - apply NoDup_elements.
  - intros s. rewrite elem_of_elements, elem_of_dom, list_elem_of_fmap.
    split.
    + intros [[k v] [-> Hin]]. apply elem_of_map_to_list in Hin. by exists v.
    + intros [v Hv]. exists (s, v). split; [done|]. by apply elem_of_map_to_list.
Qed.

Lemma fieldsFrom_sorted (iter : list string) :
  StronglySorted string_le (fieldsFrom iter).
Proof. apply StronglySorted_merge_sort; apply _. Qed.

Lemma fieldsFrom_order_irrelevant (iter1 iter2 : list string) :
  iter1 ≡ₚ iter2 → fieldsFrom iter1 = fieldsFrom iter2.
Proof.
  intros Hp. apply (StronglySorted_unique string_le); try apply fieldsFrom_sorted.
  unfold fieldsFrom. by rewrite !merge_sort_Permutation.
Qed.

Lemma get_built_table regs (obj : T) (name : string) (w : World) :
  (name ∉ regs.*1 → get (addProperties regs empty) obj name w = (VNone, w))
  ∧ (∀ h, firstRegistered name regs = Some h →
          get (addProperties regs empty) obj name w = h obj w).
Proof.
  unfold get. split.
  - intros Hnot. rewrite addProperties_lookup. simpl. rewrite lookup_empty.
    by rewrite firstRegistered_None.
  - intros h Hh. rewrite addProperties_lookup. simpl. rewrite lookup_empty.
    by rewrite Hh.
Qed.

(** [fields()] lists exactly the registered names, each once, in
    lexicographic order; the order in which the unordered map is walked does
    not matter, and two tables with the same names give the same list. *)
Lemma fields_sorted_names pm :
  (∀ s, s ∈ fields pm ↔ is_Some (m_map pm !! s))
  ∧ NoDup (fields pm)
  ∧ StronglySorted string_le (fields pm)
  ∧ (∀ iter, iter ≡ₚ (map_to_list (m_map pm)).*1 → fieldsFrom iter = fields pm)
  ∧ (∀ pm', dom (m_map pm') = dom (m_map pm) → fields pm' = fields pm).
Proof.
  repeat split.
  - rewrite fields_permutation, keys_permutation_dom, elem_of_elements.
    by rewrite elem_of_dom.
  - rewrite fields_permutation, keys_permutation_dom, elem_of_elements.
    by rewrite elem_of_dom.
  - rewrite fields_permutation. apply NoDup_fst_map_to_list.
  - apply fieldsFrom_sorted.
  - intros iter Hp. by apply fieldsFrom_order_irrelevant.
  - intros pm' Hdom. apply fieldsFrom_order_irrelevant.
    by rewrite !keys_permutation_dom, Hdom.
Qed.

(** C9. Registering a name that is already in the table writes the error
    message and changes nothing else: the map is the same map, so the name
    still answers with the handler registered first and every other name
    answers as before. *)
Theorem addProperty_duplicate_keeps_first name h h0 pm :
  m_map pm !! name = Some h0 →
  addProperty name h pm = mkMapper (m_map pm) (errLog pm ++ [errMoreThanOnce name])
  ∧ m_map (addProperty name h pm) = m_map pm
  ∧ (∀ obj w, get (addProperty name h pm) obj name w = h0 obj w)
  ∧ (∀ obj n w, get (addProperty name h pm) obj n w = get pm obj n w)
  ∧ fields (addProperty name h pm) = fields pm.
Proof.
  intros Hin.
  assert (addProperty name h pm
          = mkMapper (m_map pm) (errLog pm ++ [errMoreThanOnce name])) as Heq.
  { unfold addProperty. by rewrite Hin. }
  rewrite Heq. unfold get, fields. simpl. rewrite Hin. done.
Qed.

End PropertyMapperFacts.

(** C7. Looking a name up, for every table and object: a name that is not
    in the map gives the invalid variant and leaves the state as it was, so
    no handler ran; a name in the map gives what its handler returns on the
    object.  For a table built by any sequence of registrations this reads:
    a name that was never registered gives the invalid variant, a registered
    one the result of the handler registered first.  On the mock table the
    unknown name leaves the call log of the handlers empty. *)
Theorem get_unknown_is_none :
  (∀ (T World : Type) (pm : PropertyMapper.Mapper T World) (obj : T)
     (name : string) (w : World),
     (PropertyMapper.m_map pm !! name = None →
      PropertyMapper.get pm obj name w = (VNone, w))
     ∧ (∀ h, PropertyMapper.m_map pm !! name = Some h →
             PropertyMapper.get pm obj name w = h obj w))
  ∧ (∀ (T World : Type) (regs : list (string * PropertyMapper.Handler T World))
       (obj : T) (name : string) (w : World),
       (name ∉ regs.*1 →
        PropertyMapper.get (PropertyMapper.addProperties regs PropertyMapper.empty)
                           obj name w = (VNone, w))
       ∧ (∀ h, PropertyMapper.firstRegistered name regs = Some h →
               PropertyMapper.get (PropertyMapper.addProperties regs PropertyMapper.empty)
                                  obj name w = h obj w))
  ∧ PropertyMapper.get Examples.mockTable Examples.foo "nonexistent-name" []
    = (VNone, []).
Proof.
  split; [|split].
  - intros T World pm obj name w. unfold PropertyMapper.get.
    split; [intros Hnone; by rewrite Hnone|intros h Hsome; by rewrite Hsome].
  - intros T World regs obj name w. apply get_built_table.
  - vm_compute. reflexivity.
Qed.

(** C8. The general statement of [fields_sorted_names] for every table,
    and the scenario of the mock symbol: the table with the names [name]
    and [isLinkable] enumerates as [isLinkable], [name], and asking twice
    gives the same list. *)
Theorem fields_lexicographic :
  (∀ (T World : Type) (pm : PropertyMapper.Mapper T World),
     (∀ s, s ∈ PropertyMapper.fields pm ↔ is_Some (PropertyMapper.m_map pm !! s))
     ∧ NoDup (PropertyMapper.fields pm)
     ∧ StronglySorted string_le (PropertyMapper.fields pm)
     ∧ (∀ iter, iter ≡ₚ (map_to_list (PropertyMapper.m_map pm)).*1 →
                PropertyMapper.fieldsFrom iter = PropertyMapper.fields pm)
     ∧ (∀ pm' : PropertyMapper.Mapper T World,
          dom (PropertyMapper.m_map pm') = dom (PropertyMapper.m_map pm) →
          PropertyMapper.fields pm' = PropertyMapper.fields pm))
  ∧ PropertyMapper.fields Examples.mockTable = ["isLinkable"; "name"]%string
  ∧ PropertyMapper.get Examples.mockTable Examples.foo "name" []
    = (VString "Foo" false, ["name"%string])
  ∧ PropertyMapper.get Examples.mockTable Examples.foo "isLinkable" []
    = (VBool true, ["isLinkable"%string]).
Proof.
  split; [intros; apply fields_sorted_names|].
  split; [|split; vm_compute; reflexivity].
  apply (StronglySorted_unique string_le).
  - apply fieldsFrom_sorted.
  - repeat constructor.
  - rewrite fields_permutation, keys_permutation_dom.
    apply NoDup_Permutation.
    + apply NoDup_elements.
    + apply NoDup_cons_2; [|apply NoDup_singleton].
      apply not_elem_of_cons; split; [done|apply not_elem_of_nil].
    + intros s. rewrite elem_of_elements, elem_of_dom.
      unfold Examples.mockTable. rewrite addProperties_lookup. simpl.
      rewrite lookup_empty. rewrite !elem_of_cons, elem_of_nil.
      destruct (decide ("name"%string = s)) as [<-|Hn];
        [split; eauto|].
      destruct (decide ("isLinkable"%string = s)) as [<-|Hl];
        [split; eauto|].
      split; [intros [? ?]; done|intros [|[|[]]]; congruence].
Qed.

(* ===================================================================== *)
(** * Properties of the documentation cache *)
(* ===================================================================== *)

Section ParseDocFacts.
Import DefinitionContext.

Variable tools : DocTools.
Variable symbols : nat → Def.

(** [parseDoc] logs its call, reports an unsupported format, and touches
    neither the format nor the cookies. *)
Lemma parseDoc_world def file line relPath docStr isBrief w :
  (parseDoc tools symbols def file line relPath docStr isBrief w).2
  = mkWorld (outputFormat w) (cookies w)
            (parseCalls w ++ [mkParseCall def file line docStr isBrief (outputFormat w)])
            (errors w ++ formatErrors (outputFormat w)).
Proof.
  unfold DefinitionContext.parseDoc.
  destruct (outputFormat w); simpl; by rewrite ?app_nil_r.
Qed.

End ParseDocFacts.

(** Replaces the call of [parseDoc] in the goal by its value and the state
    [parseDoc_world] gives. *)
Ltac world_after_parseDoc :=
  match goal with
  | |- context [DefinitionContext.parseDoc ?t ?s ?d ?f ?l ?r ?x ?b ?w] =>
      let H := fresh "Hw" in
      pose proof (parseDoc_world t s d f l r x b w) as H;
      destruct (DefinitionContext.parseDoc t s d f l r x b w) as [? ?];
      simpl in H; subst; simpl
  end.

Section DefinitionContextFacts.
Import DefinitionContext.

Variable tools : DocTools.
Variable symbols : nat → Def.
Variable createSubdirs : bool.

#[local] Abbreviation parseDoc := (parseDoc tools symbols).
#[local] Abbreviation getDetails := (getDetails tools symbols createSubdirs).
#[local] Abbreviation getBrief := (getBrief tools symbols createSubdirs).
#[local] Abbreviation getInbodyDocs := (getInbodyDocs tools symbols createSubdirs).
#[local] Abbreviation step := (step tools symbols createSubdirs).
#[local] Abbreviation run := (run tools symbols createSubdirs).
#[local] Abbreviation detailsParse := (detailsParse tools symbols createSubdirs).
#[local] Abbreviation detailsCall := (detailsCall symbols).
#[local] Abbreviation briefParse := (briefParse tools symbols createSubdirs).
#[local] Abbreviation briefCall := (briefCall symbols).
#[local] Abbreviation inbodyParse := (inbodyParse tools symbols createSubdirs).
#[local] Abbreviation inbodyCall := (inbodyCall symbols).

(** A miss of [get]: the parser is called once, the slot is filled for the
    current format. *)
#[local] Abbreviation missesWith get slot slotFormat parsed call def :=
  (∀ w0 c0, cookies w0 !! def = Some c0 →
     slot c0 = None ∨ outputFormat w0 ≠ slotFormat c0 →
     ∃ w1 c1, get w0 = Some (parsed w0, w1)
       ∧ cookies w1 !! def = Some c1 ∧ slot c1 = Some (parsed w0)
       ∧ slotFormat c1 = outputFormat w0
       ∧ outputFormat w1 = outputFormat w0
       ∧ parseCalls w1 = parseCalls w0 ++ [call (outputFormat w0)]).

(** A hit of [get]: the stored value, the same state. *)
#[local] Abbreviation hitsWith get slot slotFormat def :=
  (∀ w0 c0 stored, cookies w0 !! def = Some c0 →
     slot c0 = Some stored → outputFormat w0 = slotFormat c0 →
     get w0 = Some (stored, w0)).

Lemma cachedPerFormat_intro get slot slotFormat parsed call def w cache :
  missesWith get slot slotFormat parsed call def →
  hitsWith get slot slotFormat def →
  cookies w !! def = Some cache →
  cachedPerFormat get slot slotFormat parsed call def w cache.
Proof.
  intros Hmiss Hhit Hck. split; [|split; [|split; [|split]]].
  - intros Hm. destruct (Hmiss w cache Hck Hm) as (w1 & c1 & ?). by exists w1, c1.
  - intros stored. by apply Hhit.
  - destruct (slot cache) as [stored|] eqn:Hd.
    + destruct (decide (outputFormat w = slotFormat cache)) as [Hf|Hf].
      * exists stored, w. by rewrite (Hhit _ _ _ Hck Hd Hf).
      * destruct (Hmiss w cache Hck (or_intror Hf))
          as (w1 & c1 & Hg & Hc1 & Hd1 & Hf1 & Hw1 & _).
        eexists _, w1. split; [done|]. apply (Hhit _ c1); congruence.
    + destruct (Hmiss w cache Hck (or_introl Hd))
        as (w1 & c1 & Hg & Hc1 & Hd1 & Hf1 & Hw1 & _).
      eexists _, w1. split; [done|]. apply (Hhit _ c1); congruence.
  - intros Hd.
    destruct (Hmiss w cache Hck (or_introl Hd))
      as (w1 & c1 & Hg & Hc1 & Hd1 & Hf1 & Hw1 & Hp).
    eexists _, w1. split; [done|]. split.
    + apply (Hhit _ c1); congruence.
    + rewrite Hp, length_app. simpl. lia.
  - intros Hd f1 f2 Hne.
    destruct (Hmiss (setOutputFormat f1 w) cache Hck (or_introl Hd))
      as (w1 & c1 & Hg1 & Hc1 & Hd1 & Hf1 & Hw1 & Hp1).
    simpl in *.
    destruct (Hmiss (setOutputFormat f2 w1) c1 Hc1)
      as (w2 & c2 & Hg2 & Hc2 & Hd2 & Hf2 & Hw2 & Hp2).
    { right. simpl. congruence. }
    simpl in *. eexists _, w1, _, w2. split; [done|]. split; [done|].
    rewrite Hp2, Hp1, <- app_assoc. done.
Qed.

Lemma getDetails_misses def :
  missesWith (getDetails def) details detailsOutputFormat
             (λ w, (detailsParse def w).1) (detailsCall def) def.
Proof.
  intros w c Hck Hmiss. unfold DefinitionContext.getDetails, getCache.
  rewrite Hck. simpl. unfold DefinitionContext.detailsParse.
  destruct (details c) as [stored|] eqn:Hs;
    [case_decide as Hf; [|by destruct Hmiss]|];
    (world_after_parseDoc; eexists _, _; split; [done|]; simpl;
     by rewrite lookup_insert_eq).
Qed.

Lemma getDetails_hits def : hitsWith (getDetails def) details detailsOutputFormat def.
Proof.
  intros w c stored Hck Hs Hf. unfold DefinitionContext.getDetails, getCache.
  rewrite Hck. simpl. rewrite Hs. case_decide; done.
Qed.

Lemma getBrief_misses def :
  hasBriefDescription (symbols def) = true →
  missesWith (getBrief def) brief briefOutputFormat
             (λ w, (briefParse def w).1) (briefCall def) def.
Proof.
  intros Hhas w c Hck Hmiss. unfold DefinitionContext.getBrief, getCache.
  rewrite Hck. simpl. rewrite Hhas. unfold DefinitionContext.briefParse.
  destruct (brief c) as [stored|] eqn:Hs;
    [case_decide as Hf; [|by destruct Hmiss]|];
    (world_after_parseDoc; eexists _, _; split; [done|]; simpl;
     by rewrite lookup_insert_eq).
Qed.

Lemma getBrief_hits def : hitsWith (getBrief def) brief briefOutputFormat def.
Proof.
  intros w c stored Hck Hs Hf. unfold DefinitionContext.getBrief, getCache.
  rewrite Hck. simpl. rewrite Hs. case_decide; done.
Qed.

Lemma getInbodyDocs_misses def :
  inbodyDocumentation (symbols def) ≠ EmptyString →
  missesWith (getInbodyDocs def) inbodyDocs inbodyDocsOutputFormat
             (λ w, (inbodyParse def w).1) (inbodyCall def) def.
Proof.
  intros Hhas w c Hck Hmiss. unfold DefinitionContext.getInbodyDocs, getCache.
  rewrite Hck. simpl.
  assert (String.eqb (inbodyDocumentation (symbols def)) EmptyString = false) as ->.
  { by apply String.eqb_neq. }
  simpl. unfold DefinitionContext.inbodyParse.
  destruct (inbodyDocs c) as [stored|] eqn:Hs;
    [case_decide as Hf; [|by destruct Hmiss]|];
    (world_after_parseDoc; eexists _, _; split; [done|]; simpl;
     by rewrite lookup_insert_eq).
Qed.

Lemma getInbodyDocs_hits def :
  hitsWith (getInbodyDocs def) inbodyDocs inbodyDocsOutputFormat def.
Proof.
  intros w c stored Hck Hs Hf. unfold DefinitionContext.getInbodyDocs, getCache.
  rewrite Hck. simpl. rewrite Hs. case_decide; done.
Qed.

(** A miss of [get] when the text is absent: the empty string, no parser
    call, no format recorded. *)
#[local] Abbreviation missesEmpty get slot slotFormat def :=
  (∀ w0 c0, cookies w0 !! def = Some c0 →
     slot c0 = None ∨ outputFormat w0 ≠ slotFormat c0 →
     ∃ w1 c1, get w0 = Some (VString EmptyString false, w1)
       ∧ cookies w1 !! def = Some c1
       ∧ slot c1 = Some (VString EmptyString false)
       ∧ slotFormat c1 = slotFormat c0
       ∧ outputFormat w1 = outputFormat w0
       ∧ parseCalls w1 = parseCalls w0
       ∧ errors w1 = errors w0).

Lemma absentText_passes get slot slotFormat def passes :
  missesEmpty get slot slotFormat def →
  hitsWith get slot slotFormat def →
  ∀ w c, cookies w !! def = Some c →
    slot c = None ∨ slot c = Some (VString EmptyString false) →
    ∃ w', askInPasses get passes w
          = Some (replicate (length passes) (VString EmptyString false), w')
          ∧ parseCalls w' = parseCalls w
          ∧ errors w' = errors w.
Proof.
  intros Hmiss Hhit. induction passes as [|f rest IH]; intros w c Hck Hslot.
  - by exists w.
  - assert (∃ w1 c1, get (setOutputFormat f w) = Some (VString EmptyString false, w1)
              ∧ cookies w1 !! def = Some c1
              ∧ slot c1 = Some (VString EmptyString false)
              ∧ parseCalls w1 = parseCalls w ∧ errors w1 = errors w)
      as (w1 & c1 & Hg & Hc1 & Hs1 & Hp1 & He1).
    { destruct Hslot as [Hn|Hs].
      - destruct (Hmiss (setOutputFormat f w) c Hck (or_introl Hn))
          as (w1 & c1 & Hg & Hc1 & Hs1 & _ & _ & Hp & He). by exists w1, c1.
      - destruct (decide (outputFormat (setOutputFormat f w) = slotFormat c))
          as [Hf|Hf].
        + exists (setOutputFormat f w), c.
          by rewrite (Hhit (setOutputFormat f w) c _ Hck Hs Hf).
        + destruct (Hmiss (setOutputFormat f w) c Hck (or_intror Hf))
            as (w1 & c1 & Hg & Hc1 & Hs1 & _ & _ & Hp & He). by exists w1, c1. }
    destruct (IH w1 c1 Hc1 (or_intror Hs1)) as (w' & Hrun & Hp & He).
    exists w'. simpl. rewrite Hg. simpl. rewrite Hrun. simpl.
    split; [done|]. split; congruence.
Qed.

Lemma absentText_intro get slot slotFormat def w cache :
  missesEmpty get slot slotFormat def →
  hitsWith get slot slotFormat def →
  cookies w !! def = Some cache →
  absentText get slot slotFormat def w cache.
Proof.
  intros Hmiss Hhit Hck. split; [|split].
  - intros Hm. destruct (Hmiss w cache Hck Hm) as (w1 & c1 & ?). by exists w1, c1.
  - intros stored. by apply Hhit.
  - intros Hslot passes. by eapply absentText_passes.
Qed.

Lemma getBrief_misses_empty def :
  hasBriefDescription (symbols def) = false →
  missesEmpty (getBrief def) brief briefOutputFormat def.
Proof.
  intros Hhas w c Hck Hmiss. unfold DefinitionContext.getBrief, getCache.
  rewrite Hck. simpl. rewrite Hhas.
  destruct (brief c) as [stored|] eqn:Hs;
    [case_decide as Hf; [|by destruct Hmiss]|];
    (eexists _, _; split; [done|]; simpl; by rewrite lookup_insert_eq).
Qed.

Lemma getInbodyDocs_misses_empty def :
  inbodyDocumentation (symbols def) = EmptyString →
  missesEmpty (getInbodyDocs def) inbodyDocs inbodyDocsOutputFormat def.
Proof.
  intros Hhas w c Hck Hmiss. unfold DefinitionContext.getInbodyDocs, getCache.
  rewrite Hck. simpl. rewrite Hhas. simpl.
  destruct (inbodyDocs c) as [stored|] eqn:Hs;
    [case_decide as Hf; [|by destruct Hmiss]|];
    (eexists _, _; split; [done|]; simpl; by rewrite lookup_insert_eq).
Qed.

(** C6, as the code has it. On a definition whose cookie is attached, the
    caching contract [cachedPerFormat] holds for [details] always, for
    [brief] when the definition has a brief description and for
    [inbodyDocs] when it has documentation in its body.  When the
    definition has no brief description, or no documentation in its body,
    the contract [absentText] holds instead: the empty string is stored and
    returned with no parser call, and from an unset or empty slot every
    pass gets the empty string. *)
Theorem text_slots_cached_per_format def w cache :
  cookies w !! def = Some cache →
  cachedPerFormat (getDetails def) details detailsOutputFormat
                  (λ w0, (detailsParse def w0).1) (detailsCall def) def w cache
  ∧ (hasBriefDescription (symbols def) = true →
     cachedPerFormat (getBrief def) brief briefOutputFormat
                     (λ w0, (briefParse def w0).1) (briefCall def) def w cache)
  ∧ (inbodyDocumentation (symbols def) ≠ EmptyString →
     cachedPerFormat (getInbodyDocs def) inbodyDocs inbodyDocsOutputFormat
                     (λ w0, (inbodyParse def w0).1) (inbodyCall def) def w cache)
  ∧ (hasBriefDescription (symbols def) = false →
     absentText (getBrief def) brief briefOutputFormat def w cache)
  ∧ (inbodyDocumentation (symbols def) = EmptyString →
     absentText (getInbodyDocs def) inbodyDocs inbodyDocsOutputFormat def w cache).
Proof.
  intros Hck. split; [|split; [|split; [|split]]].
  - apply cachedPerFormat_intro;
      [apply getDetails_misses|apply getDetails_hits|done].
  - intros Hhas. apply cachedPerFormat_intro;
      [by apply getBrief_misses|apply getBrief_hits|done].
  - intros Hhas. apply cachedPerFormat_intro;
      [by apply getInbodyDocs_misses|apply getInbodyDocs_hits|done].
  - intros Hhas. apply absentText_intro;
      [by apply getBrief_misses_empty|apply getBrief_hits|done].
  - intros Hhas. apply absentText_intro;
      [by apply getInbodyDocs_misses_empty|apply getInbodyDocs_hits|done].
Qed.

End DefinitionContextFacts.

Section BriefFacts.
Import DefinitionContext.

Variable tools : DocTools.
Variable symbols : nat → Def.
Variable createSubdirs : bool.

#[local] Abbreviation getDetails := (getDetails tools symbols createSubdirs).
#[local] Abbreviation getBrief := (getBrief tools symbols createSubdirs).
#[local] Abbreviation getInbodyDocs := (getInbodyDocs tools symbols createSubdirs).
#[local] Abbreviation step := (step tools symbols createSubdirs).
#[local] Abbreviation run := (run tools symbols createSubdirs).

(** The subject of the section: a definition without a brief description. *)
Variable def : nat.
Hypothesis noBrief : hasBriefDescription (symbols def) = false.

#[local] Abbreviation emptyString := (VString EmptyString false).

Lemma getBrief_empty w cache :
  cookies w !! def = Some cache →
  briefUnsetOrEmpty def w →
  ∃ w', getBrief def w = Some (emptyString, w')
        ∧ (w' = w ∨ w' = setCookies (<[def := setBrief emptyString cache]> (cookies w)) w).
Proof.
  intros Hck Hinv. unfold DefinitionContext.getBrief, getCache.
  rewrite Hck. simpl. rewrite noBrief.
  destruct (Hinv _ Hck) as [Hb|Hb]; rewrite Hb; [eauto|].
  case_decide; eauto.
Qed.

(** What every request keeps: the invariant on the brief slot of [def] and
    the parser calls made for its brief description. *)
#[local] Abbreviation preserved w w' :=
  (briefUnsetOrEmpty def w' ∧ briefParses def w' = briefParses def w).

Lemma briefParses_snoc w call f ck errs :
  ¬ (pc_def call = def ∧ pc_isBrief call = true) →
  briefParses def (mkWorld f ck (parseCalls w ++ [call]) errs) = briefParses def w.
Proof.
  intros Hno. unfold briefParses. simpl.
  rewrite filter_app, filter_cons, filter_nil.
  destruct (decide _); [contradiction|]. by rewrite app_nil_r.
Qed.

Lemma preserved_update w d c c1 call errs :
  briefUnsetOrEmpty def w →
  cookies w !! d = Some c →
  (d = def → brief c1 = brief c ∨ brief c1 = Some emptyString) →
  ¬ (pc_def call = def ∧ pc_isBrief call = true) →
  preserved w (mkWorld (outputFormat w) (<[d := c1]> (cookies w))
                       (parseCalls w ++ [call]) errs).
Proof.
  intros Hinv Hck Hb Hcall. split; [|by apply briefParses_snoc].
  intros c'. simpl. rewrite lookup_insert. case_decide as Hd.
  - intros [= <-]. subst d. destruct (Hb eq_refl) as [->| ->]; eauto.
  - apply Hinv.
Qed.

Lemma preserved_update_quiet w d c c1 :
  briefUnsetOrEmpty def w →
  cookies w !! d = Some c →
  (d = def → brief c1 = brief c ∨ brief c1 = Some emptyString) →
  preserved w (setCookies (<[d := c1]> (cookies w)) w).
Proof.
  intros Hinv Hck Hb. split; [|done].
  intros c'. simpl. rewrite lookup_insert. case_decide as Hd.
  - intros [= <-]. subst d. destruct (Hb eq_refl) as [->| ->]; eauto.
  - apply Hinv.
Qed.

Lemma getDetails_preserves d w v w' :
  briefUnsetOrEmpty def w → getDetails d w = Some (v, w') → preserved w w'.
Proof.
  intros Hinv. unfold DefinitionContext.getDetails, getCache.
  destruct (cookies w !! d) as [c|] eqn:Hck; simpl; [|done].
  assert (∀ x, (let '(v0, w1) := DefinitionContext.parseDoc tools symbols d
                   (docFile (symbols d)) (docLine (symbols d))
                   (relPathAsString createSubdirs) (documentation (symbols d)) false w in
                Some (v0, setCookies (<[d := setDetails v0 (outputFormat w1) c]> (cookies w1)) w1))
               = Some x → preserved w x.2) as Hre.
  { intros x. world_after_parseDoc. intros [= <-]. simpl.
    apply (preserved_update w d c _ _ _ Hinv Hck); [by left|].
    simpl. intros [_ ?]. done. }
  destruct (details c); [case_decide|].
  - intros Hx. apply (Hre _ Hx).
  - intros [= <- <-]. done.
  - intros Hx. apply (Hre _ Hx).
Qed.

Lemma getInbodyDocs_preserves d w v w' :
  briefUnsetOrEmpty def w → getInbodyDocs d w = Some (v, w') → preserved w w'.
Proof.
  intros Hinv. unfold DefinitionContext.getInbodyDocs, getCache.
  destruct (cookies w !! d) as [c|] eqn:Hck; simpl; [|done].
  assert (∀ x, (if negb (String.eqb (inbodyDocumentation (symbols d)) EmptyString)
                then
                  let '(v0, w1) := DefinitionContext.parseDoc tools symbols d
                     (inbodyFile (symbols d)) (inbodyLine (symbols d))
                     (relPathAsString createSubdirs)
                     (inbodyDocumentation (symbols d)) false w in
                  Some (v0, setCookies
                              (<[d := setInbodyDocsOutputFormat (outputFormat w1)
                                        (setInbodyDocs v0 c)]> (cookies w1)) w1)
                else
                  Some (emptyString,
                        setCookies (<[d := setInbodyDocs emptyString c]> (cookies w)) w))
               = Some x → preserved w x.2) as Hre.
  { intros x. destruct (negb _).
    - world_after_parseDoc. intros [= <-]. simpl.
      apply (preserved_update w d c _ _ _ Hinv Hck); [by left|].
      simpl. intros [_ ?]. done.
    - intros [= <-]. simpl.
      apply (preserved_update_quiet w d c _ Hinv Hck). by left. }
  destruct (inbodyDocs c); [case_decide|].
  - intros Hx. apply (Hre _ Hx).
  - intros [= <- <-]. done.
  - intros Hx. apply (Hre _ Hx).
Qed.

Lemma getBrief_preserves d w v w' :
  briefUnsetOrEmpty def w → getBrief d w = Some (v, w') → preserved w w'.
Proof.
  intros Hinv. unfold DefinitionContext.getBrief, getCache.
  destruct (cookies w !! d) as [c|] eqn:Hck; simpl; [|done].
  assert (∀ x, (if hasBriefDescription (symbols d)
                then
                  let '(v0, w1) := DefinitionContext.parseDoc tools symbols d
                     (briefFile (symbols d)) (briefLine (symbols d))
                     (relPathAsString createSubdirs)
                     (briefDescription (symbols d)) true w in
                  Some (v0, setCookies
                              (<[d := setBriefOutputFormat (outputFormat w1)
                                        (setBrief v0 c)]> (cookies w1)) w1)
                else
                  Some (emptyString,
                        setCookies (<[d := setBrief emptyString c]> (cookies w)) w))
               = Some x → preserved w x.2) as Hre.
  { intros x. destruct (hasBriefDescription (symbols d)) eqn:Hhas.
    - assert (d ≠ def) as Hne by (intros ->; congruence).
      world_after_parseDoc. intros [= <-]. simpl.
      apply (preserved_update w d c _ _ _ Hinv Hck); [done|].
      simpl. intros [? _]. done.
    - intros [= <-]. simpl.
      apply (preserved_update_quiet w d c _ Hinv Hck). by right. }
  destruct (brief c); [case_decide|].
  - intros Hx. apply (Hre _ Hx).
  - intros [= <- <-]. done.
  - intros Hx. apply (Hre _ Hx).
Qed.

Lemma step_preserves r w a w' :
  briefUnsetOrEmpty def w → step r w = Some (a, w') → preserved w w'.
Proof.
  intros Hinv. destruct r as [f|d|d|d|d]; simpl.
  - intros [= <- <-]. done.
  - intros [= <- <-]. unfold attachCookie.
    destruct (cookies w !! d) as [c|] eqn:Hck; [done|].
    split; [|done]. intros c'. simpl. rewrite lookup_insert. case_decide as Hd.
    + intros [= <-]. by left.
    + apply Hinv.
  - destruct (getDetails d w) as [[v w1]|] eqn:Hg; simpl; [|done].
    intros [= <- <-]. by eapply getDetails_preserves.
  - destruct (getBrief d w) as [[v w1]|] eqn:Hg; simpl; [|done].
    intros [= <- <-]. by eapply getBrief_preserves.
  - destruct (getInbodyDocs d w) as [[v w1]|] eqn:Hg; simpl; [|done].
    intros [= <- <-]. by eapply getInbodyDocs_preserves.
Qed.

Lemma step_brief_answer w a w' :
  briefUnsetOrEmpty def w → step (Brief def) w = Some (a, w') →
  a = Some emptyString.
Proof.
  intros Hinv. simpl.
  destruct (cookies w !! def) as [c|] eqn:Hck.
  - destruct (getBrief_empty w c Hck Hinv) as (w1 & -> & _). simpl.
    by intros [= <- _].
  - unfold DefinitionContext.getBrief, getCache. by rewrite Hck.
Qed.

Lemma run_preserves rs w answers w' :
  briefUnsetOrEmpty def w → run rs w = Some (answers, w') →
  preserved w w' ∧ ∀ a, (Brief def, a) ∈ answers → a = Some emptyString.
Proof.
  revert w answers. induction rs as [|r rs IH]; intros w answers Hinv; simpl.
  - intros [= <- <-]. split; [done|]. intros a Hin. by apply elem_of_nil in Hin.
  - destruct (step r w) as [[a w1]|] eqn:Hstep; simpl; [|done].
    destruct (run rs w1) as [[ans w2]|] eqn:Hrun; simpl; [|done].
    intros [= <- <-].
    destruct (step_preserves _ _ _ _ Hinv Hstep) as [Hinv1 Hp1].
    destruct (IH _ _ Hinv1 Hrun) as [[Hinv2 Hp2] Hans].
    split; [split; [done|congruence]|].
    intros a0. rewrite elem_of_cons. intros [[= <- <-]|Hin]; [|by apply Hans].
    apply (step_brief_answer w a0 w1 Hinv Hstep).
Qed.

(** C10. For a definition without a brief description, from any state in
    which its brief slot is unset or empty (so at the start of a run and
    after its cookie is attached):
    in every output format [brief()] returns the empty string variant and
    makes no parser call; and along any sequence of requests, on any
    definitions and with any changes of format, every [brief] request for it
    is answered with the empty string and the parser is never called for its
    brief description. *)
Theorem brief_without_description_is_empty w :
  briefUnsetOrEmpty def w →
  briefUnsetOrEmpty def initialWorld
  ∧ briefUnsetOrEmpty def (attachCookie def w)
  ∧ (∀ f cache, cookies w !! def = Some cache →
     ∃ w', getBrief def (setOutputFormat f w) = Some (emptyString, w')
           ∧ parseCalls w' = parseCalls w
           ∧ briefUnsetOrEmpty def w')
  ∧ (∀ rs answers w', run rs w = Some (answers, w') →
       (∀ a, (Brief def, a) ∈ answers → a = Some emptyString)
       ∧ briefParses def w' = briefParses def w
       ∧ briefUnsetOrEmpty def w').
Proof.
  intros Hinv. split; [|split; [|split]].
  - intros cache Hc. simpl in Hc. by rewrite lookup_empty in Hc.
  - by destruct (step_preserves (AttachCookie def) w None (attachCookie def w) Hinv).
  - intros f cache Hck.
    assert (briefUnsetOrEmpty def (setOutputFormat f w)) as Hinv' by done.
    destruct (getBrief_empty (setOutputFormat f w) cache Hck Hinv')
      as (w' & Hg & Hw').
    exists w'. split; [done|].
    destruct (getBrief_preserves _ _ _ _ Hinv' Hg) as [Hinv2 _].
    split; [|done]. by destruct Hw' as [-> | ->].
  - intros rs answers w' Hrun.
    destruct (run_preserves _ _ _ _ Hinv Hrun) as [[Hinv' Hp] Hans]. done.
Qed.

End BriefFacts.

(** The duplicate registration of [name] on the mock table. *)
Lemma addProperty_duplicate_keeps_first_witness :
  PropertyMapper.m_map Examples.mockTable !! "name"%string = Some Examples.accessor_name
  ∧ PropertyMapper.m_map
      (PropertyMapper.addProperty "name" Examples.accessor_bool Examples.mockTable)
    = PropertyMapper.m_map Examples.mockTable
  ∧ PropertyMapper.get
      (PropertyMapper.addProperty "name" Examples.accessor_bool Examples.mockTable)
      Examples.foo "name" []
    = (VString "Foo" false, ["name"%string]).
Proof.
  assert (PropertyMapper.m_map Examples.mockTable !! "name"%string
          = Some Examples.accessor_name) as Hin by (vm_compute; reflexivity).
  split; [exact Hin|].
  destruct (addProperty_duplicate_keeps_first
              "name" Examples.accessor_bool Examples.accessor_name
              Examples.mockTable Hin) as (_ & Hmap & Hget & _).
  split; [exact Hmap|]. rewrite Hget. reflexivity.
Defined.

(** A fresh cookie asked for [details] twice in HTML: one parser call. *)
Lemma text_slots_cached_per_format_witness :
  let syms := λ _ : nat, Examples.undocumentedBrief in
  let w0 := DefinitionContext.setOutputFormat DefinitionContext.ContextOutputFormat_Html
              (DefinitionContext.attachCookie 0 DefinitionContext.initialWorld) in
  DefinitionContext.cookies w0 !! 0%nat = Some DefinitionContext.newCachable
  ∧ ∃ v w1,
      DefinitionContext.getDetails Examples.echoTools syms false 0 w0 = Some (v, w1)
      ∧ DefinitionContext.getDetails Examples.echoTools syms false 0 w1 = Some (v, w1)
      ∧ length (DefinitionContext.parseCalls w1)
        = S (length (DefinitionContext.parseCalls w0)).
Proof.
  intros syms w0.
  assert (DefinitionContext.cookies w0 !! 0%nat = Some DefinitionContext.newCachable)
    as Hck by (vm_compute; reflexivity).
  split; [exact Hck|].
  destruct (text_slots_cached_per_format Examples.echoTools syms false 0 w0
              DefinitionContext.newCachable Hck) as [(_ & _ & _ & Hfresh & _) _].
  apply Hfresh. reflexivity.
Defined.

(** C6 fails as stated for [brief] on a definition without a brief
    description: the slot is unset, yet the request makes no parser call
    and records no format, and a second request in the same format sets the
    slot again. *)
Lemma brief_miss_without_parser_call :
  let syms := λ _ : nat, Examples.undocumentedBrief in
  let w0 := DefinitionContext.setOutputFormat DefinitionContext.ContextOutputFormat_Html
              (DefinitionContext.attachCookie 0 DefinitionContext.initialWorld) in
  ∃ w1 cache1,
    DefinitionContext.brief DefinitionContext.newCachable = None
    ∧ DefinitionContext.cookies w0 !! 0%nat = Some DefinitionContext.newCachable
    ∧ DefinitionContext.getBrief Examples.echoTools syms false 0 w0
      = Some (VString EmptyString false, w1)
    ∧ DefinitionContext.parseCalls w1 = DefinitionContext.parseCalls w0
    ∧ DefinitionContext.cookies w1 !! 0%nat = Some cache1
    ∧ DefinitionContext.briefOutputFormat cache1
      = DefinitionContext.ContextOutputFormat_Unspecified
    ∧ DefinitionContext.outputFormat w1 = DefinitionContext.ContextOutputFormat_Html.
Proof.
  intros syms w0.
  exists (DefinitionContext.setCookies
            (<[0%nat := DefinitionContext.setBrief (VString EmptyString false)
                          DefinitionContext.newCachable]>
               (DefinitionContext.cookies w0)) w0),
         (DefinitionContext.setBrief (VString EmptyString false)
            DefinitionContext.newCachable).
  split; [reflexivity|]. split; [vm_compute; reflexivity|].
  split; [vm_compute; reflexivity|]. split; [reflexivity|].
  split; [vm_compute; reflexivity|]. split; reflexivity.
Qed.

(** A render pass over a definition without a brief description: HTML,
    then LaTeX, with [details] asked in between. *)
Lemma brief_without_description_is_empty_witness :
  let syms := λ _ : nat, Examples.undocumentedBrief in
  let w0 := DefinitionContext.attachCookie 0 DefinitionContext.initialWorld in
  let rs := [DefinitionContext.SetOutputFormat DefinitionContext.ContextOutputFormat_Html;
             DefinitionContext.Brief 0; DefinitionContext.Details 0;
             DefinitionContext.Brief 0;
             DefinitionContext.SetOutputFormat DefinitionContext.ContextOutputFormat_Latex;
             DefinitionContext.Brief 0] in
  DefinitionContext.hasBriefDescription (syms 0%nat) = false
  ∧ DefinitionContext.briefUnsetOrEmpty 0 w0
  ∧ ∃ answers w',
      DefinitionContext.run Examples.echoTools syms false rs w0 = Some (answers, w')
      ∧ (∀ a, (DefinitionContext.Brief 0, a) ∈ answers
              → a = Some (VString EmptyString false))
      ∧ DefinitionContext.briefParses 0 w' = DefinitionContext.briefParses 0 w0.
Proof.
  intros syms w0 rs.
  assert (DefinitionContext.briefUnsetOrEmpty 0 w0) as Hinv.
  { intros cache Hc.
    assert (DefinitionContext.cookies w0 !! 0%nat = Some DefinitionContext.newCachable)
      as Hck by (vm_compute; reflexivity).
    rewrite Hck in Hc. injection Hc as <-. by left. }
  split; [reflexivity|]. split; [exact Hinv|].
  destruct (DefinitionContext.run Examples.echoTools syms false rs w0)
    as [[answers w']|] eqn:Hrun; [|by vm_compute in Hrun].
  exists answers, w'. split; [reflexivity|].
  destruct (brief_without_description_is_empty Examples.echoTools syms false 0
              eq_refl w0 Hinv) as (_ & _ & _ & Hseq).
  destruct (Hseq rs answers w' Hrun) as (Hans & Hparses & _). done.
Defined.

(* ===================================================================== *)
(** * Properties of the depth metrics *)
(* ===================================================================== *)

Section TreeDepthFacts.
Import TreeDepth.

(** Induction on trees, with the hypothesis for every child. *)
Lemma TemplateStruct_forall_ind (P : TemplateStruct → Prop) :
  P (mkStruct None) →
  (∀ l, Forall P l → P (mkStruct (Some l))) →
  ∀ s, P s.
Proof.
  intros Hnone Hsome. fix IH 1. intros [[l|]]; [|exact Hnone].
  apply Hsome. induction l as [|v l IHl]; constructor; [apply IH|exact IHl].
Qed.

Lemma structDepth_unfold child :
  structDepth (mkStruct child) = computeMaxDepth child + 1.
Proof.
  destruct child as [l|]; [|done]. simpl. f_equal.
  generalize 0. induction l as [|v l IH]; intros acc; simpl; [done|].
  by rewrite IH.
Qed.

Lemma maxDepth_loop_ge (l : list TemplateStruct) (acc : Z) :
  acc ≤ foldl (λ maxDepth v,
                 let d := structDepth v in
                 if d >? maxDepth then d else maxDepth) acc l.
Proof.
  revert acc. induction l as [|v l IH]; intros acc; simpl; [lia|].
  etrans; [|apply IH]. destruct (structDepth v >? acc) eqn:Hd; lia.
Qed.

Lemma computeMaxDepth_nonneg nodes : 0 ≤ computeMaxDepth nodes.
Proof. destruct nodes as [l|]; simpl; [apply maxDepth_loop_ge|lia]. Qed.

Lemma computeMaxDepth_nonempty v l : 1 ≤ computeMaxDepth (Some (v :: l)).
Proof.
  simpl. etrans; [|apply maxDepth_loop_ge].
  destruct v as [child]. rewrite structDepth_unfold.
  pose proof (computeMaxDepth_nonneg child).
  destruct (computeMaxDepth child + 1 >? 0) eqn:Hd; lia.
Qed.

Lemma numNodes_unfold s level maxLevel :
  computeNumNodesAtLevel s level maxLevel =
    if level <? maxLevel then
      match s with
      | mkStruct None => 1
      | mkStruct (Some l) =>
          foldl (λ num v, num + computeNumNodesAtLevel v (level + 1) maxLevel) 1 l
      end
    else 0.
Proof.
  destruct s as [[l|]]; simpl; [|done].
  destruct (level <? maxLevel); [|done].
  enough (∀ acc,
            (fix each (l : list TemplateStruct) (num : Z) {struct l} : Z :=
               match l with
               | [] => num
               | v :: rest =>
                   each rest (num + computeNumNodesAtLevel v (level + 1) maxLevel)
               end) l acc
            = foldl (λ num v, num + computeNumNodesAtLevel v (level + 1) maxLevel) acc l)
    by done.
  induction l as [|v l IH]; intros acc; simpl; [done|]. by rewrite IH.
Qed.

Lemma sum_loop_mono (f1 f2 : TemplateStruct → Z) (l : list TemplateStruct) (a1 a2 : Z) :
  a1 ≤ a2 → Forall (λ v, f1 v ≤ f2 v) l →
  foldl (λ num v, num + f1 v) a1 l ≤ foldl (λ num v, num + f2 v) a2 l.
Proof.
  intros Ha Hl. revert a1 a2 Ha.
  induction Hl as [|v l Hv Hl IH]; intros a1 a2 Ha; simpl; [done|].
  apply IH. lia.
Qed.

Lemma sum_loop_ge (f : TemplateStruct → Z) (l : list TemplateStruct) (acc : Z) :
  Forall (λ v, 0 ≤ f v) l → acc ≤ foldl (λ num v, num + f v) acc l.
Proof.
  intros Hl. revert acc.
  induction Hl as [|v l Hv Hl IH]; intros acc; simpl; [lia|].
  etrans; [|apply IH]. lia.
Qed.

Lemma computeNumNodesAtLevel_nonneg s level maxLevel :
  0 ≤ computeNumNodesAtLevel s level maxLevel.
Proof.
  revert level. induction s as [|l IH] using TemplateStruct_forall_ind; intros level;
    rewrite numNodes_unfold; destruct (level <? maxLevel); try lia.
  etrans; [|apply sum_loop_ge]; [lia|].
  eapply Forall_impl; [exact IH|]. intros v Hv. apply Hv.
Qed.

Lemma computeNumNodesAtLevel_mono s level m1 m2 :
  m1 ≤ m2 →
  computeNumNodesAtLevel s level m1 ≤ computeNumNodesAtLevel s level m2.
Proof.
  intros Hm. revert level.
  induction s as [|l IH] using TemplateStruct_forall_ind; intros level.
  - rewrite !numNodes_unfold.
    destruct (Z.ltb_spec level m1), (Z.ltb_spec level m2); lia.
  - destruct (Z.ltb_spec level m1) as [H1|H1].
    + rewrite !numNodes_unfold.
      destruct (Z.ltb_spec level m1), (Z.ltb_spec level m2); try lia.
      apply sum_loop_mono; [lia|].
      eapply Forall_impl; [exact IH|]. intros v Hv. apply Hv.
    + rewrite (numNodes_unfold _ level m1).
      destruct (Z.ltb_spec level m1); [lia|].
      apply computeNumNodesAtLevel_nonneg.
Qed.

Lemma numNodes_pos s : 1 ≤ numNodes s.
Proof.
  induction s as [|l IH] using TemplateStruct_forall_ind; simpl; [lia|].
  induction IH as [|v l Hv Hl IHl]; [lia|]. lia.
Qed.

(** The counters never exceed the number of nodes, so they fit an [int]
    whenever the tree itself can be held. *)
Lemma numNodes_bounds s level maxLevel :
  0 ≤ computeNumNodesAtLevel s level maxLevel ≤ numNodes s.
Proof.
  split; [apply computeNumNodesAtLevel_nonneg|].
  revert level. induction s as [|l IH] using TemplateStruct_forall_ind; intros level;
    rewrite numNodes_unfold.
  - simpl. destruct (level <? maxLevel); lia.
  - destruct (level <? maxLevel);
      [|pose proof (numNodes_pos (mkStruct (Some l))); lia].
    simpl.
    enough (∀ acc,
              foldl (λ num v, num + computeNumNodesAtLevel v (level + 1) maxLevel) acc l
              ≤ acc - 1
                + (fix each (l0 : list TemplateStruct) : Z :=
                     match l0 with
                     | [] => 1
                     | v :: rest => numNodes v + each rest
                     end) l) as Hacc by (specialize (Hacc 1); lia).
    induction IH as [|v l Hv Hl IHl]; intros acc; simpl; [lia|].
    etrans; [apply IHl|]. specialize (Hv (level + 1)). lia.
Qed.

Lemma numNodesUpTo_nonneg nodes i : 0 ≤ numNodesUpTo nodes i.
Proof.
  apply sum_loop_ge. apply Forall_forall. intros v _.
  apply computeNumNodesAtLevel_nonneg.
Qed.

Lemma numNodesUpTo_mono nodes i j :
  i ≤ j → numNodesUpTo nodes i ≤ numNodesUpTo nodes j.
Proof.
  intros Hij. apply sum_loop_mono; [lia|]. apply Forall_forall. intros v _.
  by apply computeNumNodesAtLevel_mono.
Qed.

(** The loop over the candidate depths [a], [a+1], ..., [a+n-1], entered
    with [preferredDepth = p]: either it breaks at once (or there is nothing
    to scan) and [p] stays, or it ends on a scanned depth [r], every depth
    from [a] to [r] fits, and the next one, if it was to be scanned, does
    not. *)
Lemma scanDepths_spec nodes T (n a : nat) (p : Z) :
  let r := scanDepths nodes T (map Z.of_nat (seq a n)) p in
  (r = p ∧ (n = 0%nat ∨ T < numNodesUpTo nodes (Z.of_nat a)))
  ∨ (Z.of_nat a ≤ r < Z.of_nat a + Z.of_nat n
     ∧ (∀ j, Z.of_nat a ≤ j ≤ r → numNodesUpTo nodes j ≤ T)
     ∧ (r + 1 < Z.of_nat a + Z.of_nat n → T < numNodesUpTo nodes (r + 1))).
Proof.
  revert a p. induction n as [|n IH]; intros a p; simpl; [by left; split; [|left]|].
  destruct (Z.leb_spec (numNodesUpTo nodes (Z.of_nat a)) T) as [Hfit|Hno];
    [|left; split; [done|by right]].
  right. destruct (IH (S a) (Z.of_nat a)) as [[-> Hstop]|(Hr & Hall & Hnext)].
  - split; [lia|]. split.
    + intros j Hj. by replace j with (Z.of_nat a) by lia.
    + intros Hlt. destruct Hstop as [->|Hstop]; [lia|].
      by replace (Z.of_nat a + 1) with (Z.of_nat (S a)) by lia.
  - split; [lia|]. split.
    + intros j Hj. destruct (decide (j = Z.of_nat a)) as [->|Hne]; [done|].
      apply Hall. lia.
    + intros Hlt. apply Hnext. lia.
Qed.

End TreeDepthFacts.

Section PreferredDepth.
Import TreeDepth.

Lemma computePreferredDepth_cases nodes maxDepth T :
  0 < T →
  let r := computePreferredDepth nodes maxDepth T in
  (r = 1 ∧ (maxDepth < 1 ∨ T < numNodesUpTo nodes 1))
  ∨ (1 ≤ r ≤ maxDepth
     ∧ (∀ j, 1 ≤ j ≤ r → numNodesUpTo nodes j ≤ T)
     ∧ (r < maxDepth → T < numNodesUpTo nodes (r + 1))).
Proof.
  intros HT. unfold computePreferredDepth, candidateDepths.
  destruct (Z.gtb_spec T 0) as [_|?]; [|lia].
  destruct (scanDepths_spec nodes T (Z.to_nat maxDepth) 1 1)
    as [[Hr Hstop]|(Hr & Hall & Hnext)]; simpl in *.
  - left. split; [done|]. destruct Hstop as [Hz|Hex]; [left; lia|by right].
  - right. split; [lia|]. split; [done|]. intros Hlt. apply Hnext. lia.
Qed.


(** C5, as the code has it. On a tree with at least one root the preferred
    depth is at most the maximal depth; on the empty tree the maximal depth
    is 0 while the preferred depth keeps its default 1.  In both cases the
    sum at the preferred depth fits [T] whenever [T > 0] and the sum at
    depth 1 fits, and the preferred depth is 1 whenever [T <= 0]. *)
Theorem preferredDepth_bounded_on_nonempty nodes T :
  let maxDepth := computeMaxDepth (Some nodes) in
  let r := computePreferredDepth nodes maxDepth T in
  (nodes ≠ [] → 1 ≤ r ≤ maxDepth)
  ∧ (nodes = [] → maxDepth = 0 ∧ r = 1)
  ∧ (0 < T → numNodesUpTo nodes 1 ≤ T → numNodesUpTo nodes r ≤ T)
  ∧ (T ≤ 0 → r = 1).
Proof.
  intros maxDepth r.
  assert (T ≤ 0 → r = 1) as Hdefault.
  { intros HT. unfold r, computePreferredDepth.
    destruct (Z.gtb_spec T 0); [lia|done]. }
  assert (0 < T → r = 1 ∨ 1 ≤ r ≤ maxDepth ∧ numNodesUpTo nodes r ≤ T) as Hscan.
  { intros HT.
    destruct (computePreferredDepth_cases nodes maxDepth T HT)
      as [[Hr _]|(Hr & Hall & _)]; [by left|right].
    fold r in Hr, Hall. split; [done|]. apply Hall. lia. }
  split; [|split; [|split]]; [| | |done].
  - intros Hne. destruct nodes as [|v l]; [done|].
    pose proof (computeMaxDepth_nonempty v l) as Hd. fold maxDepth in Hd.
    destruct (Z.le_gt_cases T 0) as [HT|HT]; [rewrite (Hdefault HT); lia|].
    destruct (Hscan HT) as [->|[? _]]; lia.
  - intros ->. split; [done|].
    unfold r, computePreferredDepth. simpl. by destruct (T >? 0).
  - intros HT Hone. destruct (Hscan HT) as [->|[_ ?]]; done.
Qed.

(** C5 fails on the empty tree: the preferred depth is 1, the maximal depth
    is 0. *)
Lemma preferredDepth_exceeds_maxDepth_on_empty :
  computeMaxDepth (Some []) = 0
  ∧ computePreferredDepth [] (computeMaxDepth (Some [])) 5 = 1
  ∧ ¬ (computePreferredDepth [] (computeMaxDepth (Some [])) 5
       ≤ computeMaxDepth (Some [])).
Proof. split; [done|]. split; [done|]. vm_compute. intros H. by apply H. Qed.

End PreferredDepth.

(* ===================================================================== *)
(** * Properties of the inherited-member lists *)
(* ===================================================================== *)

Section InheritedMembersFacts.
Import Symbols InheritedMembers.

Variable g : SymbolGraph.






Lemma unvisited_shrinks (U visited : gset nat) (icd : nat) :
  icd ∈ U → icd ∉ visited →
  (size (U ∖ ({[icd]} ∪ visited)) < size (U ∖ visited))%nat.
Proof.
  intros HU Hnew. apply subset_size. split.
  - intros x. rewrite !elem_of_difference, elem_of_union. tauto.
  - intros Hsub. specialize (Hsub icd).
    rewrite !elem_of_difference, elem_of_union, elem_of_singleton in Hsub. tauto.
Qed.

Lemma unvisited_antitone (U v1 v2 : gset nat) :
  v1 ⊆ v2 → (size (U ∖ v2) ≤ size (U ∖ v1))%nat.
Proof.
  intros Hsub. apply subseteq_size. intros x.
  rewrite !elem_of_difference. intros [? Hx]. split; [done|]. intros ?. apply Hx. auto.
Qed.













End InheritedMembersFacts.

Section ClosedGraphs.
Import Symbols.

(** [closedUnder] can be checked by running over the finite universe. *)
Lemma closedUnder_check (g : SymbolGraph) (U : gset nat) :
  Forall (λ cd, Forall (λ b, classDef b ∈ U)
                       (baseClasses (classOf g cd) ++ subClasses (classOf g cd)))
         (elements U) →
  closedUnder g U.
Proof.
  intros Hall cd bcd Hcd Hb. rewrite Forall_forall in Hall.
  specialize (Hall cd). rewrite elem_of_elements in Hall.
  specialize (Hall Hcd). rewrite Forall_forall in Hall. by apply Hall.
Qed.


Lemma looping_closed : closedUnder Examples.looping Examples.loopUniverse.
Proof.
  apply closedUnder_check.
  apply (bool_decide_unpack _). vm_compute. reflexivity.
Qed.


End ClosedGraphs.



(** C1, as the code decides it. A class with members of its own in the
    category ([count > 0]) gets the inherited members only through the call
    with [additionalList = false], the one made for the member list of the
    class; a class without such members gets them only through the call with
    [additionalList = true], the one made for the additional inherited
    members.  The other call of each pair adds nothing.  In the diamond, [D]
    (one own member) shows the member of [A] in its own list, and [B] (no
    own member) shows it among the additional inherited members. *)
Theorem addMemberList_bucket_by_own_members :
  (∀ g fuel cd lt title out,
     let count :=
       Symbols.countMembersIncludingGrouped (Symbols.classOf g cd) lt cd false in
     (0 < count →
        InheritedMembers.addMemberList g fuel cd lt title true out = Some out
        ∧ InheritedMembers.addMemberList g fuel cd lt title false out
          = snd <$> InheritedMembers.findInheritedMembers
                      g fuel cd cd lt (-1) title false (∅, out))
     ∧ (count ≤ 0 →
        InheritedMembers.addMemberList g fuel cd lt title true out
          = snd <$> InheritedMembers.findInheritedMembers
                      g fuel cd cd lt (-1) title true (∅, out)
        ∧ InheritedMembers.addMemberList g fuel cd lt title false out = Some out))
  ∧ InheritedMembers.addMemberList Examples.diamond 5 3 Examples.lt_pub "Public" false []
    = Some [InheritedMembers.mkInfo 0 Examples.lt_pub [10%nat] "Public"]
  ∧ InheritedMembers.addMemberList Examples.diamond 5 1 Examples.lt_pub "Public" true []
    = Some [InheritedMembers.mkInfo 0 Examples.lt_pub [10%nat] "Public"].
Proof.
  split; [|split; vm_compute; reflexivity].
  intros g fuel cd lt title out count.
  unfold InheritedMembers.addMemberList, InheritedMembers.show,
    InheritedMembers.memberInSection. fold count.
  destruct (Z.gtb_spec count 0); split; intros Hc; try lia; simpl; done.
Qed.

(** C1 fails as stated: [D] has a public member of its own, and the call
    for the additional list ([additionalList = true]) adds nothing, although
    the traversal it guards would find the member of [A]; [B] has none, and
    the call with [additionalList = false] adds nothing either. *)
Lemma addMemberList_additional_not_for_own_members :
  Symbols.countMembersIncludingGrouped (Symbols.classOf Examples.diamond 3)
    Examples.lt_pub 3 false = 1
  ∧ InheritedMembers.addMemberList Examples.diamond 5 3 Examples.lt_pub "Public" true []
    = Some []
  ∧ snd <$> InheritedMembers.findInheritedMembers Examples.diamond 5 3 3
              Examples.lt_pub (-1) "Public" true (∅, [])
    = Some [InheritedMembers.mkInfo 0 Examples.lt_pub [10%nat] "Public"]
  ∧ Symbols.countMembersIncludingGrouped (Symbols.classOf Examples.diamond 1)
      Examples.lt_pub 1 false = 0
  ∧ InheritedMembers.addMemberList Examples.diamond 5 1 Examples.lt_pub "Public" false []
    = Some [].
Proof. repeat split; vm_compute; reflexivity. Qed.

(* ===================================================================== *)
(** * Properties of the class-hierarchy tree *)
(* ===================================================================== *)

Section NestingFacts.
Import Symbols Nesting.

Variable g : SymbolGraph.

(** The loop inside [allocNode] is [addDerivedClasses] with
    [hideSuper = false]. *)
Lemma allocNode_unfold fuel cd index level hideSuper (visited : gset nat) :
  allocNode g (S fuel) cd index level hideSuper visited =
    if hasChildren g cd hideSuper visited then
      match addDerivedClasses g fuel
              (if isVHDL (classOf g cd) then baseClasses (classOf g cd)
               else subClasses (classOf g cd))
              false (newContext (level + 1)) ({[cd]} ∪ visited) with
      | None => None
      | Some (children, visited') =>
          Some (mkNode cd index level (m_nodes children), visited')
      end
    else Some (mkNode cd index level [], visited).
Proof.
  simpl. destruct (hasChildren g cd hideSuper visited); [|done].
  generalize (if isVHDL (classOf g cd) then baseClasses (classOf g cd)
              else subClasses (classOf g cd)).
  generalize (newContext (level + 1)). generalize ({[cd]} ∪ visited).
  intros v ctx bcl.
  match goal with
  | |- match ?loop bcl ctx v with _ => _ end = _ =>
      enough (loop bcl ctx v = addDerivedClasses g fuel bcl false ctx v) as -> by done
  end.
  revert ctx v. induction bcl as [|bcd rest IH]; intros ctx v; simpl; [done|].
  destruct (derivedClassShown g (classDef bcd)) as [[|]|]; try apply IH.
  destruct (allocNode g fuel _ _ _ _ _) as [[tnc v']|]; [apply IH|done].
Qed.

(** A class found in the visited set becomes a leaf and the set stays. *)
Lemma allocNode_visited fuel cd index level hideSuper (visited : gset nat) :
  cd ∈ visited →
  allocNode g (S fuel) cd index level hideSuper visited
  = Some (mkNode cd index level [], visited).
Proof.
  intros Hin. rewrite allocNode_unfold. unfold hasChildren.
  by rewrite bool_decide_eq_false_2 by (intros Hnot; apply Hnot, Hin).
Qed.

(** With [hideSuper] set nothing is expanded. *)
Lemma allocNode_hideSuper fuel cd index level (visited : gset nat) :
  allocNode g (S fuel) cd index level true visited
  = Some (mkNode cd index level [], visited).
Proof.
  rewrite allocNode_unfold. unfold hasChildren. simpl.
  by rewrite andb_false_r.
Qed.

Variable U : gset nat.
Hypothesis closed : closedUnder g U.

(** What a call that returns leaves behind: a visited set that has grown. *)
#[local] Abbreviation returnsGrown r visited :=
  (∃ x (visited' : gset nat), r = Some (x, visited') ∧ visited ⊆ visited').

Lemma addDerivedClasses_total_from fuel :
  (∀ cd index level hideSuper (visited : gset nat),
     cd ∈ U → (size (U ∖ visited) < fuel)%nat →
     returnsGrown (allocNode g fuel cd index level hideSuper visited) visited) →
  ∀ bcl hideSuper ctx (visited : gset nat),
    (∀ b, b ∈ bcl → classDef b ∈ U) → (size (U ∖ visited) < fuel)%nat →
    returnsGrown (addDerivedClasses g fuel bcl hideSuper ctx visited) visited.
Proof.
  intros Halloc bcl hideSuper. induction bcl as [|bcd rest IH];
    intros ctx visited Hbcl Hfuel; simpl.
  - by exists ctx, visited.
  - assert (∀ b, b ∈ rest → classDef b ∈ U) as Hrest.
    { intros b Hb. apply Hbcl. by right. }
    destruct (derivedClassShown g (classDef bcd)) as [[|]|]; try by apply IH.
    destruct (Halloc (classDef bcd) (m_index ctx) (m_level ctx) hideSuper visited)
      as (tnc & v1 & -> & Hsub); [apply Hbcl; by left|done|].
    destruct (IH (appendNode tnc ctx) v1 Hrest) as (ctx' & v2 & -> & Hsub2).
    { pose proof (unvisited_antitone U visited v1 Hsub). lia. }
    exists ctx', v2. split; [done|]. by etrans.
Qed.

Lemma allocNode_total fuel cd index level hideSuper (visited : gset nat) :
  cd ∈ U → (size (U ∖ visited) < fuel)%nat →
  returnsGrown (allocNode g fuel cd index level hideSuper visited) visited.
Proof.
  revert cd index level hideSuper visited.
  induction fuel as [|fuel IH]; intros cd index level hideSuper visited Hcd Hfuel;
    [lia|].
  rewrite allocNode_unfold.
  destruct (hasChildren g cd hideSuper visited) eqn:Hexp;
    [|by eexists _, visited].
  assert (cd ∉ visited) as Hnew.
  { unfold hasChildren in Hexp. apply andb_prop in Hexp as [Hexp _].
    apply andb_prop in Hexp as [Hexp _]. by apply bool_decide_eq_true in Hexp. }
  pose proof (unvisited_shrinks U visited cd Hcd Hnew) as Hless.
  destruct (addDerivedClasses_total_from fuel IH
              (if isVHDL (classOf g cd) then baseClasses (classOf g cd)
               else subClasses (classOf g cd))
              false (newContext (level + 1)) ({[cd]} ∪ visited))
    as (children & v1 & -> & Hsub); [|lia|].
  - intros b Hb. apply (closed cd b Hcd). apply elem_of_app.
    destruct (isVHDL (classOf g cd)); [by left|by right].
  - eexists _, v1. split; [done|]. intros x Hx. apply Hsub.
    apply elem_of_union. by right.
Qed.

Lemma addClassHierarchy_total fuel classLinkedMap ctx (visited : gset nat) :
  (∀ cd, cd ∈ classLinkedMap → cd ∈ U) → (size (U ∖ visited) < fuel)%nat →
  returnsGrown (addClassHierarchy g fuel classLinkedMap ctx visited) visited.
Proof.
  revert ctx visited. induction classLinkedMap as [|cd rest IH];
    intros ctx visited Hall Hfuel; simpl.
  - by exists ctx, visited.
  - assert (∀ c, c ∈ rest → c ∈ U) as Hrest.
    { intros c Hc. apply Hall. by right. }
    destruct (isHierarchyRoot g cd && isVisibleInHierarchy (classOf g cd));
      [|by apply IH].
    destruct (allocNode_total fuel cd (m_index ctx) (m_level ctx) false visited)
      as (nnc & v1 & -> & Hsub); [apply Hall; by left|done|].
    destruct (IH (appendNode nnc ctx) v1 Hrest) as (ctx' & v2 & -> & Hsub2).
    { pose proof (unvisited_antitone U visited v1 Hsub). lia. }
    exists ctx', v2. split; [done|]. by etrans.
Qed.

(** Building the whole tree returns, cycles or not, once the fuel exceeds
    the number of classes. *)
Lemma classHierarchy_total fuel classLinkedMap hiddenClassLinkedMap :
  (∀ cd, cd ∈ classLinkedMap ++ hiddenClassLinkedMap → cd ∈ U) →
  (size U < fuel)%nat →
  is_Some (classHierarchy g fuel classLinkedMap hiddenClassLinkedMap).
Proof.
  intros Hall Hfuel. unfold classHierarchy.
  assert (size (U ∖ ∅) ≤ size U)%nat as Hle.
  { apply subseteq_size. intros x. rewrite elem_of_difference. tauto. }
  destruct (addClassHierarchy_total fuel classLinkedMap (newContext 0) ∅)
    as (tree1 & v1 & -> & Hsub); [|lia|].
  { intros cd Hcd. apply Hall, elem_of_app. by left. }
  simpl.
  destruct (addClassHierarchy_total fuel hiddenClassLinkedMap tree1 v1)
    as (tree2 & v2 & -> & _).
  - intros cd Hcd. apply Hall, elem_of_app. by right.
  - pose proof (unvisited_antitone U ∅ v1 Hsub). lia.
  - done.
Qed.

End NestingFacts.

(** C3, as the code builds the tree. On any finite class graph, looping
    derived-class edges included, the class hierarchy is built once the fuel
    exceeds the number of classes.  A class that is already in the visited
    set is made a leaf, and so is every class when [hideSuper] is set.
    Expansion runs from a base class to its derived classes and the visited
    set is one set for the whole tree: in the diamond [A] is the only root,
    [B] and [C] are its children and [D] is a leaf under each; when [D] has
    a derived class [E] of its own, [D] is expanded under [B] and is a leaf
    under [C]; on the looping graph the second occurrence of [X] is a
    leaf. *)
Theorem classHierarchy_terminates_and_guards :
  (∀ g (U : gset nat) fuel classLinkedMap hiddenClassLinkedMap,
     Symbols.closedUnder g U →
     (∀ cd, cd ∈ classLinkedMap ++ hiddenClassLinkedMap → cd ∈ U) →
     (size U < fuel)%nat →
     is_Some (Nesting.classHierarchy g fuel classLinkedMap hiddenClassLinkedMap))
  ∧ (∀ g fuel cd index level hideSuper (visited : gset nat),
       cd ∈ visited →
       Nesting.allocNode g (S fuel) cd index level hideSuper visited
       = Some (Nesting.mkNode cd index level [], visited))
  ∧ (∀ g fuel cd index level (visited : gset nat),
       Nesting.allocNode g (S fuel) cd index level true visited
       = Some (Nesting.mkNode cd index level [], visited))
  ∧ Nesting.classHierarchy Examples.diamond 5 [0; 1; 2; 3]%nat []
    = Some [Nesting.mkNode 0 0 0
              [Nesting.mkNode 1 0 1 [Nesting.mkNode 3 0 2 []];
               Nesting.mkNode 2 1 1 [Nesting.mkNode 3 0 2 []]]]
  ∧ Nesting.classHierarchy Examples.diamondExt 6 [0; 1; 2; 3; 4]%nat []
    = Some [Nesting.mkNode 0 0 0
              [Nesting.mkNode 1 0 1 [Nesting.mkNode 3 0 2 [Nesting.mkNode 4 0 3 []]];
               Nesting.mkNode 2 1 1 [Nesting.mkNode 3 0 2 []]]]
  ∧ Nesting.classHierarchy Examples.looping 4 [0; 1; 2]%nat []
    = Some [Nesting.mkNode 0 0 0
              [Nesting.mkNode 1 0 1
                 [Nesting.mkNode 2 0 2 [Nesting.mkNode 1 0 3 []]]]].
Proof.
  split; [|split; [|split; [|split; [|split]]]]; try (vm_compute; reflexivity).
  - intros g U fuel l1 l2 Hclosed Hall Hfuel. by eapply classHierarchy_total.
  - intros. by apply allocNode_visited.
  - intros. apply allocNode_hideSuper.
Qed.

(** C3 fails as stated: in the tree of the diamond [A] is the single root;
    below [B] and below [C] there is [D] and nothing else, so [A] appears
    under neither. *)
Lemma diamond_base_not_under_derived :
  let nodeB := Nesting.mkNode 1 0 1 [Nesting.mkNode 3 0 2 []] in
  let nodeC := Nesting.mkNode 2 1 1 [Nesting.mkNode 3 0 2 []] in
  Nesting.classHierarchy Examples.diamond 5 [0; 1; 2; 3]%nat []
  = Some [Nesting.mkNode 0 0 0 [nodeB; nodeC]]
  ∧ Nesting.classesBelow nodeB = [3%nat]
  ∧ Nesting.classesBelow nodeC = [3%nat]
  ∧ (0%nat ∉ Nesting.classesBelow nodeB)
  ∧ (0%nat ∉ Nesting.classesBelow nodeC).
Proof.
  intros nodeB nodeC.
  split; [vm_compute; reflexivity|]. split; [reflexivity|]. split; [reflexivity|].
  split; simpl; intros Hin; apply list_elem_of_singleton in Hin; discriminate.
Qed.

(* ===================================================================== *)
(** * Properties of the generic list and its iterator *)
(* ===================================================================== *)

Section GenericListFacts.
Import GenericList.

Implicit Types (l seen : list TemplateVariant) (v ctn : TemplateVariant).

Lemma current_in_range l (i : nat) v :
  l !! i = Some v → current l (Z.of_nat i) = (true, v).
Proof.
  intros Hi. unfold current, size.
  pose proof (lookup_lt_Some _ _ _ Hi) as Hlt.
  destruct (Z.geb_spec (Z.of_nat i) 0); [|lia].
  destruct (Z.ltb_spec (Z.of_nat i) (Z.of_nat (length l))); [|lia].
  simpl. by rewrite Nat2Z.id, Hi.
Qed.

Lemma current_out_of_range l (i : Z) :
  i < 0 ∨ size l ≤ i → current l i = (false, VNone).
Proof.
  intros Hout. unfold current.
  destruct (Z.geb_spec i 0), (Z.ltb_spec i (size l)); simpl; try done; lia.
Qed.

Lemma forward_from l (k : nat) seen fuel :
  (k ≤ length l)%nat → (length l - k < fuel)%nat →
  forward fuel l (Z.of_nat k) seen = Some (seen ++ drop k l).
Proof.
  revert k seen. induction fuel as [|fuel IH]; intros k seen Hk Hfuel; [lia|].
  simpl. destruct (l !! k) as [v|] eqn:Hv.
  - rewrite (current_in_range _ _ _ Hv).
    pose proof (lookup_lt_Some _ _ _ Hv) as Hlt.
    unfold toNext, size. destruct (Z.ltb_spec (Z.of_nat k) (Z.of_nat (length l))); [|lia].
    replace (Z.of_nat k + 1) with (Z.of_nat (S k)) by lia.
    rewrite IH by lia. rewrite <- app_assoc. simpl.
    by rewrite (drop_S _ _ _ Hv).
  - apply lookup_ge_None in Hv.
    rewrite current_out_of_range by (right; unfold size; lia).
    rewrite drop_ge by done. by rewrite app_nil_r.
Qed.

Lemma backward_from l (k : nat) seen fuel :
  (k ≤ length l)%nat → (k < fuel)%nat →
  backward fuel l (Z.of_nat k - 1) seen = Some (seen ++ reverse (take k l)).
Proof.
  revert k seen. induction fuel as [|fuel IH]; intros k seen Hk Hfuel; [lia|].
  simpl. destruct k as [|k].
  - rewrite current_out_of_range by (left; lia). by rewrite app_nil_r.
  - destruct (lookup_lt_is_Some_2 l k) as [v Hv]; [lia|].
    replace (Z.of_nat (S k) - 1) with (Z.of_nat k) by lia.
    rewrite (current_in_range _ _ _ Hv).
    unfold toPrev. destruct (Z.geb_spec (Z.of_nat k) 0); [|lia].
    rewrite IH by lia. rewrite <- app_assoc. simpl.
    by rewrite (take_S_r _ _ _ Hv), reverse_snoc.
Qed.

Lemma forward_short l (k : nat) seen fuel :
  (fuel + k ≤ length l)%nat → forward fuel l (Z.of_nat k) seen = None.
Proof.
  revert k seen. induction fuel as [|fuel IH]; intros k seen Hk; [done|].
  simpl. destruct (lookup_lt_is_Some_2 l k) as [v Hv]; [lia|].
  rewrite (current_in_range _ _ _ Hv). unfold toNext, size.
  destruct (Z.ltb_spec (Z.of_nat k) (Z.of_nat (length l))); [|lia].
  replace (Z.of_nat k + 1) with (Z.of_nat (S k)) by lia. apply IH. lia.
Qed.

Lemma backward_short l (k : nat) seen fuel :
  (fuel ≤ k)%nat → (k ≤ length l)%nat →
  backward fuel l (Z.of_nat k - 1) seen = None.
Proof.
  revert k seen. induction fuel as [|fuel IH]; intros k seen Hfuel Hk; [done|].
  simpl. destruct k as [|k]; [lia|].
  destruct (lookup_lt_is_Some_2 l k) as [v Hv]; [lia|].
  replace (Z.of_nat (S k) - 1) with (Z.of_nat k) by lia.
  rewrite (current_in_range _ _ _ Hv).
  unfold toPrev. destruct (Z.geb_spec (Z.of_nat k) 0); [|lia].
  apply IH; lia.
Qed.

(** X1. [at] and [append]: an appended value is found at the old count and
    moves nothing; an index at or past the count gives the invalid variant;
    an index below it gives the element itself. *)
Theorem at_append_bounds l ctn (index : nat) :
  at_ (append ctn l) (count l) = ctn
  ∧ count (append ctn l) = S (count l)
  ∧ ((index < count l)%nat → at_ (append ctn l) index = at_ l index
                             ∧ l !! index = Some (at_ l index))
  ∧ ((count l ≤ index)%nat → at_ l index = VNone)
  ∧ (isEmpty l = true ↔ count l = 0%nat).
Proof.
  unfold at_, append, count, isEmpty. rewrite length_app. simpl.
  split; [|split; [lia|split; [|split]]].
  - rewrite decide_True by lia.
    by rewrite lookup_app_r, Nat.sub_diag by lia.
  - intros Hlt. rewrite !decide_True by lia. rewrite lookup_app_l by lia.
    destruct (lookup_lt_is_Some_2 l index Hlt) as [v ->]. done.
  - intros Hge. by rewrite decide_False by lia.
  - rewrite bool_decide_eq_true. destruct l; simpl; split; intros; done || lia.
Qed.

(** X2. The forward loop over a list visits every element once, in order,
    and ends; it needs one more test of [current] than there are elements,
    and does not end with fewer.  The backward loop does the same in
    reverse order. *)
Theorem iteration_visits_all l fuel :
  ((length l < fuel)%nat → forEach fuel l = Some l
                           ∧ forEachReversed fuel l = Some (reverse l))
  ∧ ((fuel ≤ length l)%nat → forEach fuel l = None
                             ∧ forEachReversed fuel l = None).
Proof.
  split.
  - intros Hfuel. split.
    + unfold forEach, toFirst. by rewrite (forward_from l 0) by lia.
    + unfold forEachReversed, toLast, size.
      rewrite (backward_from l (length l)) by lia. by rewrite firstn_all.
  - intros Hfuel. split.
    + unfold forEach, toFirst. apply (forward_short l 0). lia.
    + unfold forEachReversed, toLast, size. by apply backward_short.
Qed.

(** X3. The cursor stays between [-1] and the size; [current] succeeds
    exactly on the indices of the list and then gives the element there;
    [toNext] past the end and [toPrev] before the start do nothing, and
    elsewhere each undoes the other, so a loop that ran off either end can
    step back onto the list. *)
Theorem cursor_stays_in_range l (m_index : Z) :
  (-1 ≤ toFirst m_index ≤ size l ∧ -1 ≤ toLast l m_index ≤ size l)
  ∧ (-1 ≤ m_index ≤ size l →
     -1 ≤ toNext l m_index ≤ size l ∧ -1 ≤ toPrev m_index ≤ size l)
  ∧ ((current l m_index).1 = true ↔ 0 ≤ m_index < size l)
  ∧ (∀ v, l !! Z.to_nat m_index = Some v → 0 ≤ m_index →
          current l m_index = (true, v))
  ∧ ((current l m_index).1 = false → (current l m_index).2 = VNone)
  ∧ toNext l (size l) = size l
  ∧ toPrev (-1) = -1
  ∧ (-1 ≤ m_index < size l → toPrev (toNext l m_index) = m_index)
  ∧ (0 ≤ m_index ≤ size l → toNext l (toPrev m_index) = m_index).
Proof.
  unfold toFirst, toLast, toNext, toPrev, current, size.
  pose proof (Zle_0_nat (length l)) as Hlen.
  repeat split; intros; try lia;
    repeat match goal with
           | |- context [?a <? ?b] => destruct (Z.ltb_spec a b)
           | |- context [?a >=? ?b] => destruct (Z.geb_spec a b)
           | H : context [?a <? ?b] |- _ => destruct (Z.ltb_spec a b)
           | H : context [?a >=? ?b] |- _ => destruct (Z.geb_spec a b)
           end; simpl in *; try done; try lia.
  - match goal with H : _ !! _ = Some _ |- _ => by rewrite H end.
  - match goal with H : _ !! _ = Some _ |- _ =>
      apply lookup_lt_Some in H; lia end.
Qed.

End GenericListFacts.

(* ===================================================================== *)
(** * More properties of the property table *)
(* ===================================================================== *)

Section RegistrationFacts.
Import PropertyMapper.

Context {T World : Type}.
Implicit Types (pm : Mapper T World) (h : Handler T World).
Implicit Types (regs : list (string * Handler T World)).

Lemma addProperty_accounted name h pm :
  (length (errLog (addProperty name h pm)) + size (m_map (addProperty name h pm))
   = S (length (errLog pm) + size (m_map pm)))%nat
  ∧ dom (m_map (addProperty name h pm)) = {[name]} ∪ dom (m_map pm)
  ∧ errLog pm `prefix_of` errLog (addProperty name h pm).
Proof.
  unfold addProperty. destruct (m_map pm !! name) as [h0|] eqn:Hn; simpl.
  - split; [rewrite length_app; simpl; lia|]. split; [|by eexists].
    apply set_eq. intros x. rewrite elem_of_union, elem_of_singleton, !elem_of_dom.
    split; [by right|]. intros [->|Hx]; [by rewrite Hn|done].
  - split; [rewrite map_size_insert_None by done; lia|].
    split; [apply dom_insert_L|done].
Qed.

(** X4. Every registration is accounted for: it either adds a name to the
    table or adds a message to the error stream, never both and never
    neither.  The table ends up with exactly the names it had and the names
    registered, earlier errors stay in place, and registering names that are
    new and pairwise different logs nothing. *)
Theorem registrations_accounted regs pm :
  (length (errLog (addProperties regs pm)) + size (m_map (addProperties regs pm))
   = length regs + (length (errLog pm) + size (m_map pm)))%nat
  ∧ dom (m_map (addProperties regs pm)) = list_to_set regs.*1 ∪ dom (m_map pm)
  ∧ errLog pm `prefix_of` errLog (addProperties regs pm)
  ∧ (NoDup regs.*1 → (∀ n, n ∈ regs.*1 → m_map pm !! n = None) →
     errLog (addProperties regs pm) = errLog pm).
Proof.
  assert (∀ regs pm,
    (length (errLog (addProperties regs pm)) + size (m_map (addProperties regs pm))
     = length regs + (length (errLog pm) + size (m_map pm)))%nat
    ∧ dom (m_map (addProperties regs pm)) = list_to_set regs.*1 ∪ dom (m_map pm)
    ∧ errLog pm `prefix_of` errLog (addProperties regs pm)) as Hmain.
  { clear regs pm. intros regs. induction regs as [|[name h] regs IH]; intros pm.
    - simpl. split; [done|]. split; [|done].
      apply set_eq. intros x. rewrite elem_of_union, elem_of_empty. tauto.
    - change (addProperties ((name, h) :: regs) pm)
        with (addProperties regs (addProperty name h pm)).
      destruct (IH (addProperty name h pm)) as (Hc & Hd & Hp).
      destruct (addProperty_accounted name h pm) as (Hc1 & Hd1 & Hp1).
      split; [simpl; lia|]. split; [|by etrans].
      rewrite Hd, Hd1. simpl. apply set_eq. intros x.
      rewrite !elem_of_union, elem_of_singleton. tauto. }
  destruct (Hmain regs pm) as (Hc & Hd & Hp).
  split; [done|]. split; [done|]. split; [done|].
  intros Hnd Hfresh.
  assert (size (m_map (addProperties regs pm)) = length regs + size (m_map pm))%nat
    as Hsize.
  { rewrite <- !size_dom, Hd. rewrite size_union.
    - f_equal. rewrite size_list_to_set by done. by rewrite length_fmap.
    - intros x. rewrite elem_of_list_to_set, elem_of_dom. intros Hin [v Hv].
      rewrite (Hfresh x Hin) in Hv. done. }
  destruct Hp as [more Hmore]. rewrite Hmore in Hc |- *.
  rewrite length_app in Hc. destruct more; [by rewrite app_nil_r|simpl in Hc; lia].
Qed.

End RegistrationFacts.

(* ===================================================================== *)
(** * More properties of the depth metrics *)
(* ===================================================================== *)

Section TreeSizeFacts.
Import TreeDepth TreeSize.

Lemma sum_loop_ext (f1 f2 : TemplateStruct → Z) (l : list TemplateStruct) (acc : Z) :
  Forall (λ v, f1 v = f2 v) l →
  foldl (λ num v, num + f1 v) acc l = foldl (λ num v, num + f2 v) acc l.
Proof.
  intros Hl. apply Z.le_antisymm; apply sum_loop_mono; try lia;
    eapply Forall_impl; try exact Hl; simpl; intros; lia.
Qed.

Lemma sum_loop_shift (f : TemplateStruct → Z) (l : list TemplateStruct) (acc : Z) :
  foldl (λ num v, num + f v) acc l = acc + foldl (λ num v, num + f v) 0 l.
Proof.
  revert acc. induction l as [|v l IH]; intros acc; simpl; [lia|].
  rewrite (IH (acc + f v)), (IH (0 + f v)). lia.
Qed.

Lemma numNodes_as_sum l :
  numNodes (mkStruct (Some l)) = foldl (λ n v, n + numNodes v) 1 l.
Proof.
  simpl. rewrite sum_loop_shift.
  induction l as [|v l IH]; simpl; [done|].
  rewrite IH, (sum_loop_shift _ l (0 + numNodes v)). lia.
Qed.

Lemma maxDepth_loop_ge_elem (l : list TemplateStruct) (acc : Z) v :
  v ∈ l →
  structDepth v ≤ foldl (λ maxDepth v,
                           let d := structDepth v in
                           if d >? maxDepth then d else maxDepth) acc l.
Proof.
  revert acc. induction l as [|x l IH]; intros acc Hin; [by apply elem_of_nil in Hin|].
  simpl. apply elem_of_cons in Hin as [->|Hin]; [|by apply IH].
  etrans; [|apply maxDepth_loop_ge]. destruct (structDepth x >? acc) eqn:Hd; lia.
Qed.

Lemma structDepth_le_maxDepth (l : list TemplateStruct) v :
  v ∈ l → structDepth v ≤ computeMaxDepth (Some l).
Proof. apply maxDepth_loop_ge_elem. Qed.

(** A limit that leaves room for the whole depth of a node counts all its
    nodes. *)
Lemma computeNumNodesAtLevel_saturates s level maxLevel :
  structDepth s ≤ maxLevel - level →
  computeNumNodesAtLevel s level maxLevel = numNodes s.
Proof.
  revert level. induction s as [|l IH] using TemplateStruct_forall_ind;
    intros level Hroom; rewrite numNodes_unfold.
  - simpl in Hroom. destruct (Z.ltb_spec level maxLevel); [done|lia].
  - rewrite structDepth_unfold in Hroom.
    pose proof (computeMaxDepth_nonneg (Some l)).
    destruct (Z.ltb_spec level maxLevel); [|lia].
    rewrite numNodes_as_sum. apply sum_loop_ext.
    rewrite Forall_forall in IH |- *. intros v Hv. apply IH; [done|].
    pose proof (structDepth_le_maxDepth l v Hv). lia.
Qed.

Lemma numNodesUpTo_saturates nodes i :
  computeMaxDepth (Some nodes) ≤ i → numNodesUpTo nodes i = totalNodes nodes.
Proof.
  intros Hi. apply sum_loop_ext. apply Forall_forall. intros v Hv.
  apply computeNumNodesAtLevel_saturates.
  pose proof (structDepth_le_maxDepth nodes v Hv). lia.
Qed.

Lemma numNodesUpTo_below_one nodes i : i ≤ 0 → numNodesUpTo nodes i = 0.
Proof.
  intros Hi. unfold numNodesUpTo.
  rewrite (sum_loop_ext _ (λ _, 0)).
  - induction nodes as [|v l IH]; simpl; [done|]. by rewrite Z.add_0_r.
  - apply Forall_forall. intros v _. rewrite numNodes_unfold.
    destruct (Z.ltb_spec 0 i); [lia|done].
Qed.

Lemma sum_of_ones (l : list TemplateStruct) (acc : Z) :
  foldl (λ num _, num + 1) acc l = acc + Z.of_nat (length l).
Proof.
  revert acc. induction l as [|v l IH]; intros acc; simpl; [lia|].
  rewrite IH. lia.
Qed.

Lemma numNodesUpTo_one nodes : numNodesUpTo nodes 1 = Z.of_nat (length nodes).
Proof.
  unfold numNodesUpTo. rewrite (sum_loop_ext _ (λ _, 1)).
  - rewrite sum_of_ones. lia.
  - apply Forall_forall. intros [[l|]] _; rewrite numNodes_unfold; simpl; [|done].
    rewrite (sum_loop_ext _ (λ _, 0)).
    + clear. generalize 1. induction l as [|v l IH]; intros acc; simpl; [done|].
      by rewrite Z.add_0_r.
    + apply Forall_forall. intros v _. by rewrite numNodes_unfold.
Qed.

(** X5. The node count at its extremes: nothing below limit 1, the number
    of roots at limit 1, and every node of the tree from the maximal depth
    on; in between it grows with the limit.  The maximal depth is 0 exactly
    for the empty list. *)
Theorem numNodesUpTo_extremes nodes (i j : Z) :
  (i ≤ 0 → numNodesUpTo nodes i = 0)
  ∧ numNodesUpTo nodes 1 = Z.of_nat (length nodes)
  ∧ (computeMaxDepth (Some nodes) ≤ i → numNodesUpTo nodes i = totalNodes nodes)
  ∧ (i ≤ j → numNodesUpTo nodes i ≤ numNodesUpTo nodes j ≤ totalNodes nodes)
  ∧ (computeMaxDepth (Some nodes) = 0 ↔ nodes = [])
  ∧ computeMaxDepth None = 0.
Proof.
  split; [apply numNodesUpTo_below_one|]. split; [apply numNodesUpTo_one|].
  split; [apply numNodesUpTo_saturates|]. split; [|split; [|done]].
  - intros Hij. split; [by apply numNodesUpTo_mono|].
    rewrite <- (numNodesUpTo_saturates nodes (Z.max j (computeMaxDepth (Some nodes))))
      by lia.
    apply numNodesUpTo_mono. lia.
  - split; [|by intros ->]. destruct nodes as [|v l]; [done|].
    pose proof (computeMaxDepth_nonempty v l). lia.
Qed.

(** X6. When the whole tree fits the threshold, the preferred depth is the
    maximal depth: everything is expanded. *)
Theorem whole_tree_fits nodes T :
  0 < T → nodes ≠ [] → totalNodes nodes ≤ T →
  computePreferredDepth nodes (computeMaxDepth (Some nodes)) T
  = computeMaxDepth (Some nodes).
Proof.
  intros HT Hne Hfit. destruct nodes as [|v l]; [done|].
  pose proof (computeMaxDepth_nonempty v l) as Hd.
  set (D := computeMaxDepth (Some (v :: l))) in *.
  destruct (computePreferredDepth_cases (v :: l) D T HT)
    as [[Hr [?|Hex]]|(Hr & Hall & Hnext)]; [lia| |].
  - pose proof (numNodesUpTo_mono (v :: l) 1 D Hd).
    rewrite (numNodesUpTo_saturates (v :: l) D) in * by (unfold D; lia). lia.
  - destruct (Z.eq_dec (computePreferredDepth (v :: l) D T) D) as [|Hlt]; [done|].
    specialize (Hnext ltac:(lia)).
    pose proof (numNodesUpTo_mono (v :: l)
                  (computePreferredDepth (v :: l) D T + 1) D ltac:(lia)) as Hmono.
    rewrite (numNodesUpTo_saturates (v :: l) D) in Hmono by (unfold D; lia). lia.
Qed.

(** X7. A larger threshold never gives a smaller preferred depth. *)
Theorem preferredDepth_monotone nodes maxDepth T T' :
  T ≤ T' →
  computePreferredDepth nodes maxDepth T ≤ computePreferredDepth nodes maxDepth T'.
Proof.
  intros Hle.
  assert (∀ t, 1 ≤ computePreferredDepth nodes maxDepth t) as Hone.
  { intros t. unfold computePreferredDepth.
    destruct (Z.gtb_spec t 0) as [Ht|]; [|lia].
    destruct (computePreferredDepth_cases nodes maxDepth t Ht) as [[Hr _]|[Hr _]].
    - unfold computePreferredDepth in Hr. destruct (Z.gtb_spec t 0); lia.
    - unfold computePreferredDepth in Hr. destruct (Z.gtb_spec t 0); lia. }
  destruct (Z.le_gt_cases T 0) as [HT|HT].
  { specialize (Hone T'). unfold computePreferredDepth at 1.
    destruct (Z.gtb_spec T 0); lia. }
  destruct (computePreferredDepth_cases nodes maxDepth T HT)
    as [[-> _]|(Hr & Hall & _)]; [apply Hone|].
  destruct (computePreferredDepth_cases nodes maxDepth T' ltac:(lia))
    as [[Hr' [?|Hex]]|(Hr' & Hall' & Hnext')]; [lia| |].
  - specialize (Hall 1 ltac:(lia)). lia.
  - destruct (Z.le_gt_cases (computePreferredDepth nodes maxDepth T)
                            (computePreferredDepth nodes maxDepth T')) as [|Hgt];
      [done|].
    specialize (Hnext' ltac:(lia)).
    pose proof (numNodesUpTo_mono nodes
                  (computePreferredDepth nodes maxDepth T' + 1)
                  (computePreferredDepth nodes maxDepth T) ltac:(lia)).
    specialize (Hall (computePreferredDepth nodes maxDepth T) ltac:(lia)). lia.
Qed.

End TreeSizeFacts.

(** The file tree [F1, D1{F2}] has three nodes; a threshold of three
    expands it fully. *)
Lemma whole_tree_fits_witness :
  0 < 3 ∧ TreeDepth.fileTreeExample ≠ []
  ∧ TreeSize.totalNodes TreeDepth.fileTreeExample ≤ 3
  ∧ TreeDepth.computePreferredDepth TreeDepth.fileTreeExample
      (TreeDepth.computeMaxDepth (Some TreeDepth.fileTreeExample)) 3
    = TreeDepth.computeMaxDepth (Some TreeDepth.fileTreeExample).
Proof.
  assert (TreeSize.totalNodes TreeDepth.fileTreeExample ≤ 3) as Hfit
    by (vm_compute; discriminate).
  assert (TreeDepth.fileTreeExample ≠ []) as Hne by discriminate.
  split; [lia|]. split; [exact Hne|]. split; [exact Hfit|].
  apply (whole_tree_fits TreeDepth.fileTreeExample 3); [lia|exact Hne|exact Hfit].
Defined.

Lemma preferredDepth_monotone_witness :
  2 ≤ 3
  ∧ TreeDepth.computePreferredDepth TreeDepth.fileTreeExample 2 2
    ≤ TreeDepth.computePreferredDepth TreeDepth.fileTreeExample 2 3.
Proof.
  split; [lia|]. apply (preferredDepth_monotone TreeDepth.fileTreeExample 2 2 3). lia.
Defined.

(* ===================================================================== *)
(** * More properties of the inherited-member lists *)
(* ===================================================================== *)

Section InheritedShapeFacts.
Import Symbols InheritedMembers InheritedShape.

Variable g : SymbolGraph.

Lemma Private_addMemberList_shown inheritedFrom ml combinedList :
  Forall (shownMember g inheritedFrom) combinedList →
  Forall (shownMember g inheritedFrom)
         (Private_addMemberList g inheritedFrom ml combinedList).
Proof.
  unfold Private_addMemberList. revert combinedList.
  induction ml as [|md ml IH]; intros combinedList Hc; simpl; [done|].
  apply IH.
  destruct (isBriefSectionVisible (memberOf g md)) eqn:Hv; [|done].
  destruct (isReimplementedBy (memberOf g md) inheritedFrom) eqn:Hr; [done|].
  simpl. apply Forall_app. split; [done|]. by repeat constructor.
Qed.

Lemma addMemberListIncludingGrouped_shown inheritedFrom ml combinedList :
  Forall (shownMember g inheritedFrom) combinedList →
  Forall (shownMember g inheritedFrom)
         (addMemberListIncludingGrouped g inheritedFrom ml combinedList).
Proof.
  intros Hc. destruct ml as [l|]; simpl; [|done].
  pose proof (Private_addMemberList_shown inheritedFrom (ml_members l) _ Hc) as Hc1.
  revert Hc1. generalize (Private_addMemberList g inheritedFrom (ml_members l) combinedList).
  induction (getMemberGroupList l) as [|mg mgs IH]; intros acc Hacc; simpl; [done|].
  apply IH. by apply Private_addMemberList_shown.
Qed.

Lemma addMemberGroupsOfClass_shown inheritedFrom cd lt combinedList :
  Forall (shownMember g inheritedFrom) combinedList →
  Forall (shownMember g inheritedFrom)
         (addMemberGroupsOfClass g inheritedFrom cd lt combinedList).
Proof.
  unfold addMemberGroupsOfClass. revert combinedList.
  induction (getMemberGroups (classOf g cd)) as [|mg mgs IH];
    intros combinedList Hc; simpl; [done|].
  apply IH. destruct (_ && _); [|done].
  clear IH. revert combinedList Hc.
  induction (mg_members mg) as [|md mds IHm]; intros combinedList Hc; simpl; [done|].
  apply IHm.
  destruct (lt =? sectionListType (memberOf g md) (mg_container mg)); [|done].
  destruct (isReimplementedBy (memberOf g md) inheritedFrom) eqn:Hr; [done|].
  destruct (isBriefSectionVisible (memberOf g md)) eqn:Hv; [|done].
  simpl. apply Forall_app. split; [done|]. by repeat constructor.
Qed.

Lemma combinedMembers_shown inheritedFrom cd lt lt1 lt2 :
  Forall (shownMember g inheritedFrom) (combinedMembers g inheritedFrom cd lt lt1 lt2).
Proof.
  unfold combinedMembers.
  assert (Forall (shownMember g inheritedFrom)
            (addMemberGroupsOfClass g inheritedFrom cd lt
               (addMemberListIncludingGrouped g inheritedFrom
                  (if lt2 =? -1 then None else getMemberList (classOf g cd) lt2)
                  (addMemberListIncludingGrouped g inheritedFrom
                     (getMemberList (classOf g cd) lt1) [])))) as H3.
  { apply addMemberGroupsOfClass_shown, addMemberListIncludingGrouped_shown,
      addMemberListIncludingGrouped_shown. constructor. }
  destruct (lt2 =? -1); [done|]. by apply addMemberGroupsOfClass_shown.
Qed.

(** The entries a traversal appends, with the property [Q] they all have. *)
#[local] Abbreviation appendsOnly Q st st' :=
  (∃ new : list InheritedMemberInfo, st'.2 = st.2 ++ new ∧ Forall Q new).

Lemma addInheritedMembers_entry inheritedFrom start cd lt lt2 icd lt1 lt2'
    title add out :
  rtc (descends g) start (cd, lt, lt2) →
  descends g (cd, lt, lt2) (icd, lt1, lt2') →
  isLinkable (classOf g icd) = true →
  ∃ new, addInheritedMembers g inheritedFrom icd lt lt1 lt2' title add out = out ++ new
         ∧ Forall (λ e, entryFrom g inheritedFrom start title add e
                        ∧ info_class e = icd) new.
Proof.
  intros Hpath Hstep Hlink. unfold addInheritedMembers.
  destruct (Z.gtb_spec (inheritedCount g inheritedFrom icd lt1 lt2' add) 0) as [Hpos|].
  - eexists [_]. split; [done|]. constructor; [|constructor].
    split; [|done]. split; [done|]. split; [done|]. split.
    + exists cd, lt, lt2, lt1, lt2'. simpl. split; [done|]. split; [done|].
      split; [done|]. split; [done|lia].
    + apply combinedMembers_shown.
  - exists []. by rewrite app_nil_r.
Qed.

(** An entry of the traversal from a base class is an entry of the
    traversal from the class. *)
Lemma entryFrom_further inheritedFrom start mid title add e :
  descends g start mid →
  entryFrom g inheritedFrom mid title add e →
  entryFrom g inheritedFrom start title add e.
Proof.
  intros Hstep (Hlink & Htitle & (cd & lt & lt2 & lt1 & lt2' & Hpath & Hrest) & Hshown).
  split; [done|]. split; [done|]. split; [|done].
  exists cd, lt, lt2, lt1, lt2'. split; [|done]. by eapply rtc_l.
Qed.

Lemma lt2After_snoc lt pre ibcd lt2 :
  lt2After g lt (pre ++ [ibcd]) lt2
  = if isLinkable (classOf g (classDef ibcd)) then
      if (lt2After g lt pre lt2 =? -1)
         && negb ((convertProtectionLevel g lt (prot ibcd)).2 =? -1)
      then (convertProtectionLevel g lt (prot ibcd)).2 else lt2After g lt pre lt2
    else lt2After g lt pre lt2.
Proof. unfold lt2After. by rewrite foldl_app. Qed.

Lemma findInheritedMembers_entries fuel inheritedFrom cd lt lt2 title add st st' :
  findInheritedMembers g fuel inheritedFrom cd lt lt2 title add st = Some st' →
  appendsOnly (λ e, entryFrom g inheritedFrom (cd, lt, lt2) title add e
                    ∧ linkableAncestor g cd (info_class e)) st st'.
Proof.
  revert cd lt lt2 st st'. induction fuel as [|fuel IH]; [done|].
  intros cd lt lt2 st st'.
  set (Q := λ e, entryFrom g inheritedFrom (cd, lt, lt2) title add e
                 ∧ linkableAncestor g cd (info_class e)).
  set (P := λ (bcl : list BaseClassDef) (lt2cur : Z),
              ∃ pre, baseClasses (classOf g cd) = pre ++ bcl
                     ∧ lt2cur = lt2After g lt pre lt2).
  assert (P (baseClasses (classOf g cd)) lt2) as HP by (by exists []).
  simpl. revert HP. generalize (baseClasses (classOf g cd)). intros bcl.
  generalize lt2 at 1 2. intros lt2cur. revert lt2cur st.
  induction bcl as [|ibcd rest IHb]; intros lt2cur st HP.
  - intros [= <-]. exists []. by rewrite app_nil_r.
  - destruct HP as (pre & Hsplit & Hcur).
    assert (P rest (lt2After g lt (pre ++ [ibcd]) lt2)) as HP'.
    { exists (pre ++ [ibcd]). split; [by rewrite <- app_assoc|done]. }
    pose proof (lt2After_snoc lt pre ibcd lt2) as Hsnoc. rewrite <- Hcur in Hsnoc.
    destruct (isLinkable (classOf g (classDef ibcd))) eqn:Hlink;
      [|rewrite Hsnoc in HP'; by apply IHb].
    assert (linkableAncestor g cd (classDef ibcd)) as Hanc.
    { apply ancestor_direct; [|done]. rewrite Hsplit.
      apply elem_of_app. right. apply elem_of_cons. by left. }
    destruct (convertProtectionLevel g lt (prot ibcd)) as [lt1 lt3] eqn:Hconv.
    simpl in Hsnoc. rewrite Hsnoc in HP'.
    case_decide as Hvis; [by apply IHb|].
    destruct (negb (lt1 =? -1)) eqn:Hlt1; [|intros Hloop; by apply IHb in Hloop].
    assert (descends g (cd, lt, lt2)
              (classDef ibcd, lt1,
               if (lt2cur =? -1) && negb (lt3 =? -1) then lt3 else lt2cur))
      as Hstep.
    { pose proof (descends_edge g cd lt lt2 pre ibcd rest Hsplit Hlink) as Hd.
      rewrite Hconv in Hd. simpl in Hd. rewrite Hsnoc in Hd. apply Hd.
      by apply negb_true_iff, Z.eqb_neq in Hlt1. }
    destruct (findInheritedMembers g fuel _ _ _ _ _ _ _) as [st1|] eqn:Hrec; [|done].
    intros Hloop. apply IH in Hrec as (new1 & Ho1 & Hq1).
    apply IHb in Hloop as (new2 & Ho2 & Hq2); [|done].
    destruct (addInheritedMembers_entry inheritedFrom (cd, lt, lt2) cd lt lt2
                (classDef ibcd) lt1
                (if (lt2cur =? -1) && negb (lt3 =? -1) then lt3 else lt2cur)
                title add st.2 (rtc_refl _ _) Hstep Hlink) as (new0 & Ho0 & Hq0).
    simpl in Ho1. rewrite Ho0 in Ho1.
    exists (new0 ++ new1 ++ new2). split.
    { rewrite Ho2, Ho1. by rewrite <- !app_assoc. }
    apply Forall_app. split; [|apply Forall_app; split; [|done]].
    + eapply Forall_impl; [exact Hq0|]. intros e [He Hc]. unfold Q.
      split; [done|]. by rewrite Hc.
    + eapply Forall_impl; [exact Hq1|]. intros e [He Ha]. unfold Q. split.
      * by eapply entryFrom_further.
      * by eapply ancestor_further.
Qed.

(** X8. Every entry [addMemberList] appends is for a class reached from
    [cd] along base-class edges to linkable classes only, carries the title
    of the call and the list type of the derived class it was reached from,
    holds the combined list of its class for the two list types that
    [convertProtectionLevel] gives along those edges, with a positive
    member count for them, and lists only members that are visible in the
    brief section and not reimplemented by [cd]. *)
Theorem addMemberList_entries_shape fuel cd lt title add out out' :
  addMemberList g fuel cd lt title add out = Some out' →
  ∃ new, out' = out ++ new
         ∧ Forall (entryOf g cd lt title add) new
         ∧ Forall (λ e, linkableAncestor g cd (info_class e)) new.
Proof.
  unfold addMemberList. destruct (show g cd lt add).
  - destruct (findInheritedMembers g fuel cd cd lt (-1) title add (∅, out))
      as [st'|] eqn:Hrun; [|done].
    intros [= <-]. apply findInheritedMembers_entries in Hrun as (new & Ho & Hq).
    exists new. split; [done|].
    split; (eapply Forall_impl; [exact Hq|]); by intros e [? ?].
  - intros [= <-]. exists []. by rewrite app_nil_r.
Qed.

End InheritedShapeFacts.

(** [D] of the diamond: the one entry is for [A], a linkable ancestor. *)
Lemma addMemberList_entries_shape_witness :
  InheritedMembers.addMemberList Examples.diamond 5 3 Examples.lt_pub "Public" false []
  = Some [InheritedMembers.mkInfo 0 Examples.lt_pub [10%nat] "Public"]
  ∧ ∃ new,
      [InheritedMembers.mkInfo 0 Examples.lt_pub [10%nat] "Public"] = [] ++ new
      ∧ Forall (InheritedShape.entryOf Examples.diamond 3 Examples.lt_pub
                  "Public" false) new
      ∧ Forall (λ e, InheritedShape.linkableAncestor Examples.diamond 3
                       (InheritedMembers.info_class e)) new.
Proof.
  assert (InheritedMembers.addMemberList Examples.diamond 5 3 Examples.lt_pub
            "Public" false []
          = Some [InheritedMembers.mkInfo 0 Examples.lt_pub [10%nat] "Public"])
    as Hrun by (vm_compute; reflexivity).
  split; [exact Hrun|].
  exact (addMemberList_entries_shape Examples.diamond 5 3 Examples.lt_pub "Public"
           false [] _ Hrun).
Defined.

(* ===================================================================== *)
(** * More properties of the class-hierarchy tree *)
(* ===================================================================== *)

Section NestingShapeFacts.
Import Symbols Nesting NestingShape.

Variable g : SymbolGraph.

#[local] Abbreviation expandedAll nodes := (List.concat (List.map expanded nodes)).
#[local] Abbreviation subtreeAll nodes := (List.concat (List.map subtree nodes)).

(** The children of a node are none, or all the shown classes at the end of
    its edges. *)
#[local] Abbreviation childrenComplete m :=
  (n_def <$> n_children m = []
   ∨ n_def <$> n_children m = shownClasses g (edgesOf g (n_def m))).

(** What holds of a node allocated for [cd] with the visited set [V], when
    the set is [V'] afterwards. *)
#[local] Abbreviation nodeBuilt cd index level V n V' :=
  (n_def n = cd ∧ numbered n index level ∧ V ⊆ V'
   ∧ NoDup (expanded n)
   ∧ (∀ c, c ∈ expanded n → (c ∉ V) ∧ (c ∈ V'))
   ∧ Forall (λ m, childrenComplete m) (subtree n)).

(** What holds of the nodes a loop appends to [ctx]. *)
#[local] Abbreviation nodesAdded ctx V ctx' V' classes :=
  (∃ new, m_nodes ctx' = m_nodes ctx ++ new
          ∧ m_level ctx' = m_level ctx
          ∧ m_index ctx' = m_index ctx + Z.of_nat (length new)
          ∧ n_def <$> new = classes
          ∧ numberedFrom new (m_index ctx) (m_level ctx)
          ∧ V ⊆ V'
          ∧ NoDup (expandedAll new)
          ∧ (∀ c, c ∈ expandedAll new → (c ∉ V) ∧ (c ∈ V'))
          ∧ Forall (λ m, childrenComplete m) (subtreeAll new)).

Lemma numbered_unfold d i l c index level :
  numbered (mkNode d i l c) index level
  ↔ i = index ∧ l = level ∧ numberedFrom c 0 (level + 1).
Proof.
  simpl. generalize 0. induction c as [|x c IH]; intros k; simpl; [done|].
  specialize (IH (k + 1)). tauto.
Qed.

Lemma nodesAdded_none ctx (V : gset nat) : nodesAdded ctx V ctx V [].
Proof.
  exists []. rewrite app_nil_r, Z.add_0_r. repeat split; try done.
  - constructor.
  - by apply elem_of_nil in H.
  - by apply elem_of_nil in H.
Qed.

Lemma nodesAdded_cons ctx (V V1 V2 : gset nat) ctx2 n cd classes :
  nodeBuilt cd (m_index ctx) (m_level ctx) V n V1 →
  nodesAdded (appendNode n ctx) V1 ctx2 V2 classes →
  nodesAdded ctx V ctx2 V2 (cd :: classes).
Proof.
  intros (Hd & Hnum & Hsub & Hnd & Hexp & Hch)
         (new & Hnodes & Hlev & Hidx & Hcls & Hnums & Hsub2 & Hnd2 & Hexp2 & Hch2).
  exists (n :: new). simpl in Hnodes, Hlev, Hidx, Hnums.
  split; [by rewrite Hnodes, <- app_assoc|]. split; [done|].
  split; [simpl length; lia|]. split; [by rewrite fmap_cons, Hd, Hcls|].
  split; [done|]. split; [by etrans|]. simpl. split; [|split].
  - apply NoDup_app. split; [done|]. split; [|done].
    intros c Hc1 Hc2. destruct (Hexp c Hc1) as [_ Hin].
    destruct (Hexp2 c Hc2) as [Hout _]. done.
  - intros c. rewrite elem_of_app. intros [Hc|Hc].
    + destruct (Hexp c Hc). split; [done|by apply Hsub2].
    + destruct (Hexp2 c Hc) as [Hout Hin]. split; [|done].
      intros Hold. by apply Hout, Hsub.
  - by apply Forall_app.
Qed.

Lemma shownClasses_cons bcd rest :
  shownClasses g (bcd :: rest)
  = match derivedClassShown g (classDef bcd) with
    | Some true => classDef bcd :: shownClasses g rest
    | _ => shownClasses g rest
    end.
Proof.
  unfold shownClasses. rewrite filter_cons.
  destruct (derivedClassShown g (classDef bcd)) as [[|]|];
    [by rewrite decide_True|by rewrite decide_False..].
Qed.

Lemma addDerivedClasses_added fuel :
  (∀ cd index level hideSuper (V : gset nat) n V',
     allocNode g fuel cd index level hideSuper V = Some (n, V') →
     nodeBuilt cd index level V n V') →
  ∀ bcl hideSuper ctx (V : gset nat) ctx' V',
    addDerivedClasses g fuel bcl hideSuper ctx V = Some (ctx', V') →
    nodesAdded ctx V ctx' V' (shownClasses g bcl).
Proof.
  intros Halloc bcl hideSuper. induction bcl as [|bcd rest IH];
    intros ctx V ctx' V'; simpl.
  - intros [= <- <-]. apply nodesAdded_none.
  - rewrite shownClasses_cons.
    destruct (derivedClassShown g (classDef bcd)) as [[|]|]; try apply IH.
    destruct (allocNode g fuel _ _ _ _ _) as [[tnc V1]|] eqn:Hn; [|done].
    intros Hrest. eapply nodesAdded_cons; [by eapply Halloc|by apply IH].
Qed.

Lemma allocNode_built fuel cd index level hideSuper (V : gset nat) n V' :
  allocNode g fuel cd index level hideSuper V = Some (n, V') →
  nodeBuilt cd index level V n V'
  ∧ n_def <$> n_children n
    = (if hasChildren g cd hideSuper V then shownClasses g (edgesOf g cd) else []).
Proof.
  revert cd index level hideSuper V n V'.
  induction fuel as [|fuel IH]; intros cd index level hideSuper V n V'; [done|].
  rewrite allocNode_unfold.
  destruct (hasChildren g cd hideSuper V) eqn:Hexp.
  - fold (edgesOf g cd).
    destruct (addDerivedClasses g fuel (edgesOf g cd) false
                (newContext (level + 1)) ({[cd]} ∪ V))
      as [[children V1]|] eqn:Hloop; [|done].
    intros [= <- <-].
    apply (addDerivedClasses_added fuel) in Hloop
      as (new & Hnodes & Hlev & Hidx & Hcls & Hnums & Hsub & Hnd & Hexpd & Hch);
      [|intros; by eapply IH].
    simpl in Hnodes. subst new. simpl in Hnums.
    assert (cd ∉ V) as Hnew.
    { unfold hasChildren in Hexp. apply andb_prop in Hexp as [Hexp _].
      apply andb_prop in Hexp as [Hexp _]. by apply bool_decide_eq_true in Hexp. }
    assert (cd ∈ V1) as Hin.
    { apply Hsub, elem_of_union. left. by apply elem_of_singleton. }
    assert (V ⊆ V1) as HsubV.
    { intros x Hx. apply Hsub, elem_of_union. by right. }
    split; [|done].
    split; [done|]. split; [by apply numbered_unfold|]. split; [done|].
    simpl.
    assert (NoDup (if m_nodes children is [] then [] else [cd])
            ∧ ∀ c, c ∈ (if m_nodes children is [] then [] else [cd]) → c = cd)
      as [Hhd1 Hhd2].
    { destruct (m_nodes children); split; try constructor.
      - intros c Hc. by apply elem_of_nil in Hc.
      - by intros ?%elem_of_nil.
      - constructor.
      - intros c Hc. by apply list_elem_of_singleton in Hc. }
    revert Hhd1 Hhd2. generalize (if m_nodes children is [] then [] else [cd]).
    intros hd Hhd1 Hhd2. split; [|split].
    + apply NoDup_app. split; [done|].
      split; [|done]. intros c Hc Hc2. destruct (Hexpd c Hc2) as [Hout _].
      apply Hout, elem_of_union. left. apply elem_of_singleton. by apply Hhd2.
    + intros c. rewrite elem_of_app. intros [Hc|Hc].
      * by rewrite (Hhd2 c Hc).
      * destruct (Hexpd c Hc) as [Hout Hin']. split; [|done].
        intros Hold. apply Hout, elem_of_union. by right.
    + constructor; [|done]. simpl. right. done.
  - intros [= <- <-]. split; [|done].
    split; [done|]. split; [by apply numbered_unfold|]. split; [done|].
    simpl. split; [constructor|]. split.
    + intros c Hc. by apply elem_of_nil in Hc.
    + constructor; [|constructor]. by left.
Qed.

Lemma rootClasses_cons cd rest :
  rootClasses g (cd :: rest)
  = if isHierarchyRoot g cd && isVisibleInHierarchy (classOf g cd)
    then cd :: rootClasses g rest else rootClasses g rest.
Proof.
  unfold rootClasses. rewrite filter_cons.
  destruct (isHierarchyRoot g cd && isVisibleInHierarchy (classOf g cd));
    [by rewrite decide_True|by rewrite decide_False].
Qed.

Lemma addClassHierarchy_added fuel classLinkedMap ctx (V : gset nat) ctx' V' :
  addClassHierarchy g fuel classLinkedMap ctx V = Some (ctx', V') →
  nodesAdded ctx V ctx' V' (rootClasses g classLinkedMap).
Proof.
  revert ctx V ctx' V'. induction classLinkedMap as [|cd rest IH];
    intros ctx V ctx' V'; simpl.
  - intros [= <- <-]. apply nodesAdded_none.
  - rewrite rootClasses_cons.
    destruct (isHierarchyRoot g cd && isVisibleInHierarchy (classOf g cd));
      [|apply IH].
    destruct (allocNode g fuel _ _ _ _ _) as [[nnc V1]|] eqn:Hn; [|done].
    intros Hrest. eapply nodesAdded_cons; [|by apply IH].
    by apply allocNode_built in Hn as [Hn _].
Qed.

Lemma NestingNode_forall_ind (P : NestingNode → Prop) :
  (∀ d i l c, Forall P c → P (mkNode d i l c)) → ∀ n, P n.
Proof.
  intros Hnode. fix IH 1. intros [d i l c]. apply Hnode.
  induction c as [|x c IHc]; constructor; [apply IH|exact IHc].
Qed.

Lemma elem_of_concat_map {A B} (f : A → list B) (l : list A) (y : B) :
  y ∈ List.concat (List.map f l) ↔ ∃ x, x ∈ l ∧ y ∈ f x.
Proof.
  rewrite list_elem_of_In, in_concat. split.
  - intros (ys & Hys & Hy). apply in_map_iff in Hys as (x & <- & Hx).
    exists x. by rewrite !list_elem_of_In.
  - intros (x & Hx & Hy). exists (f x).
    split; [apply in_map|]; by apply list_elem_of_In.
Qed.

Lemma numberedFrom_app l1 l2 (k level : Z) :
  numberedFrom l1 k level →
  numberedFrom l2 (k + Z.of_nat (length l1)) level →
  numberedFrom (l1 ++ l2) k level.
Proof.
  revert k. induction l1 as [|x l1 IH]; intros k; simpl.
  - intros _. by rewrite Z.add_0_r.
  - intros [Hx Hrest] H2. split; [done|]. apply IH; [done|].
    replace (k + 1 + Z.of_nat (length l1))
      with (k + Z.pos (Pos.of_succ_nat (length l1))) by lia. done.
Qed.

(** The roots and the children of every node, as lists of classes. *)
Lemma classHierarchy_shape fuel classLinkedMap hiddenClassLinkedMap roots :
  classHierarchy g fuel classLinkedMap hiddenClassLinkedMap = Some roots →
  n_def <$> roots = rootClasses g classLinkedMap ++ rootClasses g hiddenClassLinkedMap
  ∧ Forall (λ m, n_def <$> n_children m = []
                 ∨ n_def <$> n_children m = shownClasses g (edgesOf g (n_def m)))
           (subtreeAll roots).
Proof.
  unfold classHierarchy.
  destruct (addClassHierarchy g fuel classLinkedMap (newContext 0) ∅)
    as [[tree1 V1]|] eqn:H1; [|done]. simpl.
  destruct (addClassHierarchy g fuel hiddenClassLinkedMap tree1 V1)
    as [[tree2 V2]|] eqn:H2; [|done]. simpl. intros [= <-].
  apply addClassHierarchy_added in H1
    as (new1 & Hn1 & _ & _ & Hc1 & _ & _ & _ & _ & Hch1).
  apply addClassHierarchy_added in H2
    as (new2 & Hn2 & _ & _ & Hc2 & _ & _ & _ & _ & Hch2).
  simpl in Hn1. rewrite Hn2, Hn1. split.
  - by rewrite fmap_app, Hc1, Hc2.
  - rewrite List.map_app, List.concat_app. by apply Forall_app.
Qed.

(** X9. Siblings keep the order of the class lists, position by position:
    the root at position [j] is for the [j]-th class, of the visible list
    and then of the hidden list, that passes the root test; the child at
    position [j] of a node that is no leaf is for the [j]-th shown class at
    the end of the edges of its class, duplicates included. *)
Theorem classHierarchy_sibling_order fuel classLinkedMap hiddenClassLinkedMap roots :
  classHierarchy g fuel classLinkedMap hiddenClassLinkedMap = Some roots →
  (∀ j : nat,
     n_def <$> roots !! j
     = (rootClasses g classLinkedMap ++ rootClasses g hiddenClassLinkedMap) !! j)
  ∧ (∀ m (j : nat), m ∈ subtreeAll roots → isLeafNode m = false →
       n_def <$> n_children m !! j = shownClasses g (edgesOf g (n_def m)) !! j).
Proof.
  intros Hrun. destruct (classHierarchy_shape _ _ _ _ Hrun) as [Hroots Hchildren].
  split.
  - intros j. by rewrite <- Hroots, list_lookup_fmap.
  - intros m j Hm Hleaf. rewrite Forall_forall in Hchildren.
    destruct (Hchildren m Hm) as [Hnone|Hall].
    + apply fmap_nil_inv in Hnone. unfold isLeafNode in Hleaf.
      rewrite Hnone in Hleaf. done.
    + by rewrite <- Hall, list_lookup_fmap.
Qed.

(** Indices and levels in the tree: the roots are at level 0 and carry the
    indices 0, 1, 2, ... in their order; the children of every node are one
    level below it and are again numbered from 0. *)
Lemma classHierarchy_numberedFrom fuel classLinkedMap hiddenClassLinkedMap roots :
  classHierarchy g fuel classLinkedMap hiddenClassLinkedMap = Some roots →
  numberedFrom roots 0 0.
Proof.
  unfold classHierarchy.
  destruct (addClassHierarchy g fuel classLinkedMap (newContext 0) ∅)
    as [[tree1 V1]|] eqn:H1; [|done]. simpl.
  destruct (addClassHierarchy g fuel hiddenClassLinkedMap tree1 V1)
    as [[tree2 V2]|] eqn:H2; [|done]. simpl. intros [= <-].
  apply addClassHierarchy_added in H1
    as (new1 & Hn1 & Hl1 & Hi1 & _ & Hnum1 & _).
  apply addClassHierarchy_added in H2
    as (new2 & Hn2 & _ & _ & _ & Hnum2 & _).
  simpl in Hn1, Hl1, Hi1, Hnum1. rewrite Hn2, Hn1. rewrite Hl1, Hi1 in Hnum2.
  by apply numberedFrom_app.
Qed.

(** The visited set is one for the whole tree: no class has children at
    more than one place in it. *)
Lemma classHierarchy_expanded_NoDup fuel classLinkedMap hiddenClassLinkedMap roots :
  classHierarchy g fuel classLinkedMap hiddenClassLinkedMap = Some roots →
  NoDup (expandedAll roots).
Proof.
  unfold classHierarchy.
  destruct (addClassHierarchy g fuel classLinkedMap (newContext 0) ∅)
    as [[tree1 V1]|] eqn:H1; [|done]. simpl.
  destruct (addClassHierarchy g fuel hiddenClassLinkedMap tree1 V1)
    as [[tree2 V2]|] eqn:H2; [|done]. simpl. intros [= <-].
  apply addClassHierarchy_added in H1
    as (new1 & Hn1 & _ & _ & _ & _ & _ & Hnd1 & Hex1 & _).
  apply addClassHierarchy_added in H2
    as (new2 & Hn2 & _ & _ & _ & _ & _ & Hnd2 & Hex2 & _).
  simpl in Hn1. rewrite Hn2, Hn1, List.map_app, List.concat_app.
  apply NoDup_app. split; [done|]. split; [|done].
  intros c Hc1 Hc2. destruct (Hex1 c Hc1) as [_ Hin].
  destruct (Hex2 c Hc2) as [Hout _]. done.
Qed.

Lemma numberedFrom_lookup l (k level : Z) (j : nat) x :
  numberedFrom l k level → l !! j = Some x →
  numbered x (k + Z.of_nat j) level.
Proof.
  revert k j. induction l as [|y l IH]; intros k j Hnum Hx; [done|].
  destruct Hnum as [Hy Hrest]. destruct j as [|j]; simpl in Hx.
  - injection Hx as <-. by rewrite Z.add_0_r.
  - replace (k + Z.of_nat (S j)) with (k + 1 + Z.of_nat j) by lia. by eapply IH.
Qed.

Lemma numbered_fields n index level :
  numbered n index level →
  n_index n = index ∧ n_level n = level ∧ numberedFrom (n_children n) 0 (level + 1).
Proof. destruct n as [d i l c]. by rewrite numbered_unfold. Qed.

Lemma numbered_subtree n index level m :
  numbered n index level → m ∈ subtree n →
  ∃ index' level', numbered m index' level'.
Proof.
  revert index level. induction n as [d i l c IH] using NestingNode_forall_ind.
  intros index level Hnum. simpl. rewrite elem_of_cons. intros [->|Hm]; [eauto|].
  apply elem_of_concat_map in Hm as (x & Hx & Hm).
  apply numbered_unfold in Hnum as (_ & _ & Hc).
  apply list_elem_of_lookup in Hx as [j Hj].
  rewrite Forall_forall in IH.
  eapply (IH x); [by eapply list_elem_of_lookup_2| |done].
  by eapply numberedFrom_lookup.
Qed.

(** X10. Indices and levels are positions: a root at position [j] has
    index [j] and level 0, and a child at position [j] of any node of the
    tree has index [j] and the level of its parent plus one. *)
Theorem classHierarchy_index_is_position fuel classLinkedMap hiddenClassLinkedMap roots :
  classHierarchy g fuel classLinkedMap hiddenClassLinkedMap = Some roots →
  (∀ (j : nat) x, roots !! j = Some x → n_index x = Z.of_nat j ∧ n_level x = 0)
  ∧ (∀ m (j : nat) x, m ∈ subtreeAll roots → n_children m !! j = Some x →
       n_index x = Z.of_nat j ∧ n_level x = n_level m + 1).
Proof.
  intros Hrun. apply classHierarchy_numberedFrom in Hrun. split.
  - intros j x Hx. pose proof (numberedFrom_lookup _ _ _ _ _ Hrun Hx) as Hn.
    apply numbered_fields in Hn as (-> & -> & _). done.
  - intros m j x Hm Hx. apply elem_of_concat_map in Hm as (r & Hr & Hm).
    apply list_elem_of_lookup in Hr as [k Hk].
    pose proof (numberedFrom_lookup _ _ _ _ _ Hrun Hk) as Hn.
    destruct (numbered_subtree _ _ _ _ Hn Hm) as (i' & l' & Hnm).
    apply numbered_fields in Hnm as (_ & Hl & Hc).
    pose proof (numberedFrom_lookup _ _ _ _ _ Hc Hx) as Hnx.
    apply numbered_fields in Hnx as (-> & -> & _). by rewrite Hl.
Qed.

Lemma maxDepth_loop_le (l : list TreeDepth.TemplateStruct) (acc bound : Z) :
  acc ≤ bound → Forall (λ v, TreeDepth.structDepth v ≤ bound) l →
  foldl (λ maxDepth v,
           let d := TreeDepth.structDepth v in
           if d >? maxDepth then d else maxDepth) acc l ≤ bound.
Proof.
  intros Hacc Hl. revert acc Hacc.
  induction Hl as [|v l Hv Hl IH]; intros acc Hacc; simpl; [done|].
  apply IH. destruct (TreeDepth.structDepth v >? acc); lia.
Qed.

Lemma length_expandedAll_elem c x :
  x ∈ c → (length (expanded x) ≤ length (expandedAll c))%nat.
Proof.
  induction c as [|y c IH]; [by intros ?%elem_of_nil|].
  simpl. rewrite length_app, elem_of_cons. intros [->|Hx]; [lia|].
  specialize (IH Hx). lia.
Qed.

(** The depth of a node is at most one more than the number of places
    where its tree has children. *)
Lemma structDepth_le_expanded n :
  TreeDepth.structDepth (toTemplateStruct n) ≤ 1 + Z.of_nat (length (expanded n)).
Proof.
  induction n as [d i l c IH] using NestingNode_forall_ind.
  simpl toTemplateStruct. rewrite structDepth_unfold. simpl expanded.
  rewrite length_app. destruct c as [|x c]; [simpl; lia|].
  simpl length at 1.
  enough (TreeDepth.computeMaxDepth (Some (List.map toTemplateStruct (x :: c)))
          ≤ 1 + Z.of_nat (length (expandedAll (x :: c)))) by lia.
  apply maxDepth_loop_le; [lia|].
  apply Forall_forall. intros v Hv.
  apply list_elem_of_In, in_map_iff in Hv as (y & <- & Hy).
  apply list_elem_of_In in Hy. rewrite Forall_forall in IH.
  pose proof (IH y Hy). pose proof (length_expandedAll_elem (x :: c) y Hy). lia.
Qed.

Lemma expanded_in_subtree n c : c ∈ expanded n → c ∈ n_def <$> subtree n.
Proof.
  induction n as [d i l cs IH] using NestingNode_forall_ind.
  change (subtree (mkNode d i l cs)) with (mkNode d i l cs :: subtreeAll cs).
  change (expanded (mkNode d i l cs))
    with ((if cs is [] then [] else [d]) ++ expandedAll cs).
  rewrite elem_of_app, fmap_cons, elem_of_cons. intros [Hc|Hc].
  - left. destruct cs; [by apply elem_of_nil in Hc|].
    by apply list_elem_of_singleton in Hc.
  - right. apply elem_of_concat_map in Hc as (x & Hx & Hc).
    rewrite Forall_forall in IH. apply (IH x Hx) in Hc.
    apply list_elem_of_fmap in Hc as (m & -> & Hm).
    apply list_elem_of_fmap_2. apply elem_of_concat_map. eauto.
Qed.

Lemma subtree_classes_closed (U : gset nat) n :
  closedUnder g U → n_def n ∈ U →
  Forall (λ m, n_def <$> n_children m = []
               ∨ n_def <$> n_children m = shownClasses g (edgesOf g (n_def m)))
         (subtree n) →
  Forall (λ m, n_def m ∈ U) (subtree n).
Proof.
  intros Hclosed. induction n as [d i l c IH] using NestingNode_forall_ind.
  simpl. intros Hd Hall. apply Forall_cons in Hall as [Hhead Hall].
  constructor; [done|]. apply Forall_forall. intros m Hm.
  apply elem_of_concat_map in Hm as (x & Hx & Hm).
  rewrite Forall_forall in IH. rewrite Forall_forall in Hall.
  assert (n_def x ∈ U) as HxU.
  { assert (n_def x ∈ n_def <$> c) as Hin by by apply list_elem_of_fmap_2.
    simpl in Hhead. destruct Hhead as [Hnil|Hshown].
    - rewrite Hnil in Hin. by apply elem_of_nil in Hin.
    - rewrite Hshown in Hin. unfold shownClasses in Hin.
      apply list_elem_of_fmap in Hin as (b & -> & Hb).
      apply list_elem_of_filter in Hb as [_ Hb].
      apply (Hclosed d b Hd). apply elem_of_app. unfold edgesOf in Hb.
      destruct (isVHDL (classOf g d)); [by left|by right]. }
  assert (Forall (λ m, n_def <$> n_children m = []
                       ∨ n_def <$> n_children m = shownClasses g (edgesOf g (n_def m)))
                 (subtree x)) as Hcx.
  { apply Forall_forall. intros m' Hm'. apply Hall. apply elem_of_concat_map. eauto. }
  pose proof (IH x Hx HxU Hcx) as Hsub.
  rewrite Forall_forall in Hsub. by apply Hsub.
Qed.

Lemma NoDup_length_le_size (U : gset nat) (l : list nat) :
  NoDup l → (∀ x, x ∈ l → x ∈ U) → (length l ≤ size U)%nat.
Proof.
  intros Hnd Hin. rewrite <- (size_list_to_set (C := gset nat) l) by done.
  apply subseteq_size. intros x Hx. apply Hin. by apply elem_of_list_to_set in Hx.
Qed.

Lemma filter_concat_map {A B} (P : B → Prop) `{!∀ x, Decision (P x)}
    (f : A → list B) (l : list A) :
  filter P (List.concat (List.map f l))
  = List.concat (List.map (λ x, filter P (f x)) l).
Proof.
  induction l as [|x l IH]; [done|]. simpl. by rewrite filter_app, IH.
Qed.

Lemma fmap_concat_map {A B C} (h : B → C) (f : A → list B) (l : list A) :
  h <$> List.concat (List.map f l) = List.concat (List.map (λ x, h <$> f x) l).
Proof.
  induction l as [|x l IH]; [done|]. simpl. by rewrite fmap_app, IH.
Qed.

(** The classes with children are the classes of the nodes that are no
    leaves, place by place. *)
Lemma expanded_as_filter n :
  expanded n = n_def <$> filter (λ m, isLeafNode m = false) (subtree n).
Proof.
  induction n as [d i l c IH] using NestingNode_forall_ind.
  change (expanded (mkNode d i l c))
    with ((if c is [] then [] else [d]) ++ List.concat (List.map expanded c)).
  change (subtree (mkNode d i l c))
    with (mkNode d i l c :: List.concat (List.map subtree c)).
  rewrite filter_cons, filter_concat_map.
  assert (List.concat (List.map expanded c)
          = n_def <$> List.concat
              (List.map (λ x, filter (λ m, isLeafNode m = false) (subtree x)) c))
    as ->.
  { rewrite fmap_concat_map. f_equal.
    induction IH as [|x c' Hx _ IHc]; [done|]. simpl. by rewrite Hx, IHc. }
  destruct c as [|x c'].
  - rewrite decide_False; [done|]. by vm_compute.
  - rewrite decide_True; [done|]. by vm_compute.
Qed.

(** X11. The visited set is one for the whole tree: among the nodes that
    are no leaves, no class occurs twice.  A class shown at several places
    has its children at one of them only. *)
Theorem classHierarchy_expands_once fuel classLinkedMap hiddenClassLinkedMap roots :
  classHierarchy g fuel classLinkedMap hiddenClassLinkedMap = Some roots →
  NoDup (n_def <$> filter (λ m, isLeafNode m = false) (subtreeAll roots)).
Proof.
  intros Hrun. apply classHierarchy_expanded_NoDup in Hrun.
  rewrite filter_concat_map, fmap_concat_map.
  replace (List.map (λ x, n_def <$> filter (λ m, isLeafNode m = false) (subtree x)) roots)
    with (List.map expanded roots); [done|].
  apply List.map_ext. intros x. apply expanded_as_filter.
Qed.

(** X12. The depth [computeMaxDepth] finds for a class hierarchy built on a
    closed graph is at most the number of classes plus one, looping
    derived-class edges or not. *)
Theorem classHierarchy_depth_bounded (U : gset nat) fuel classLinkedMap
    hiddenClassLinkedMap roots :
  closedUnder g U →
  (∀ cd, cd ∈ classLinkedMap ++ hiddenClassLinkedMap → cd ∈ U) →
  classHierarchy g fuel classLinkedMap hiddenClassLinkedMap = Some roots →
  TreeDepth.computeMaxDepth (Some (List.map toTemplateStruct roots))
  ≤ Z.of_nat (size U) + 1.
Proof.
  intros Hclosed Hall Hrun.
  pose proof (classHierarchy_expanded_NoDup _ _ _ _ Hrun) as Hnd.
  destruct (classHierarchy_shape _ _ _ _ Hrun) as [Hroots Hch].
  assert (∀ r, r ∈ roots → n_def r ∈ U) as HrU.
  { intros r Hr. apply Hall. rewrite elem_of_app.
    assert (n_def r ∈ n_def <$> roots) as Hin by by apply list_elem_of_fmap_2.
    rewrite Hroots, elem_of_app in Hin. unfold rootClasses in Hin.
    destruct Hin as [Hin|Hin]; apply list_elem_of_filter in Hin as [_ Hin]; eauto. }
  assert (length (expandedAll roots) ≤ size U)%nat as Hlen.
  { apply NoDup_length_le_size; [done|]. intros c Hc.
    apply elem_of_concat_map in Hc as (r & Hr & Hc).
    apply expanded_in_subtree, list_elem_of_fmap in Hc as (m & -> & Hm).
    assert (Forall (λ m, n_def <$> n_children m = []
                         ∨ n_def <$> n_children m
                           = shownClasses g (edgesOf g (n_def m)))
                   (subtree r)) as Hcr.
    { rewrite Forall_forall in Hch. apply Forall_forall. intros m' Hm'.
      apply Hch. apply elem_of_concat_map. eauto. }
    pose proof (subtree_classes_closed U r Hclosed (HrU r Hr) Hcr) as Hsub.
    rewrite Forall_forall in Hsub. by apply Hsub. }
  apply maxDepth_loop_le; [lia|]. apply Forall_forall. intros v Hv.
  apply list_elem_of_In, in_map_iff in Hv as (r & <- & Hr).
  apply list_elem_of_In in Hr.
  pose proof (structDepth_le_expanded r).
  pose proof (length_expandedAll_elem roots r Hr). lia.
Qed.

End NestingShapeFacts.

Section NestingShapeWitnesses.
Import Nesting NestingShape.

(** The tree of the diamond, as [classHierarchy] returns it. *)
Lemma diamond_tree :
  classHierarchy Examples.diamond 5 [0; 1; 2; 3]%nat []
  = Some [mkNode 0 0 0 [mkNode 1 0 1 [mkNode 3 0 2 []];
                        mkNode 2 1 1 [mkNode 3 0 2 []]]].
Proof. vm_compute. reflexivity. Qed.

(** The tree of the looping graph. *)
Lemma looping_tree :
  classHierarchy Examples.looping 4 [0; 1; 2]%nat []
  = Some [mkNode 0 0 0 [mkNode 1 0 1 [mkNode 2 0 2 [mkNode 1 0 3 []]]]].
Proof. vm_compute. reflexivity. Qed.

End NestingShapeWitnesses.

Lemma classHierarchy_sibling_order_witness :
  Nesting.classHierarchy Examples.diamond 5 [0; 1; 2; 3]%nat []
  = Some [Nesting.mkNode 0 0 0 [Nesting.mkNode 1 0 1 [Nesting.mkNode 3 0 2 []];
                                Nesting.mkNode 2 1 1 [Nesting.mkNode 3 0 2 []]]]
  ∧ ∀ j : nat,
      Nesting.n_def
        <$> [Nesting.mkNode 0 0 0 [Nesting.mkNode 1 0 1 [Nesting.mkNode 3 0 2 []];
                                   Nesting.mkNode 2 1 1 [Nesting.mkNode 3 0 2 []]]]
            !! j
      = (NestingShape.rootClasses Examples.diamond [0; 1; 2; 3]%nat
         ++ NestingShape.rootClasses Examples.diamond []) !! j.
Proof.
  split; [exact diamond_tree|].
  exact (proj1 (classHierarchy_sibling_order Examples.diamond 5 _ _ _ diamond_tree)).
Defined.

Lemma classHierarchy_index_is_position_witness :
  Nesting.classHierarchy Examples.diamond 5 [0; 1; 2; 3]%nat []
  = Some [Nesting.mkNode 0 0 0 [Nesting.mkNode 1 0 1 [Nesting.mkNode 3 0 2 []];
                                Nesting.mkNode 2 1 1 [Nesting.mkNode 3 0 2 []]]]
  ∧ ∀ (j : nat) x,
      [Nesting.mkNode 0 0 0 [Nesting.mkNode 1 0 1 [Nesting.mkNode 3 0 2 []];
                             Nesting.mkNode 2 1 1 [Nesting.mkNode 3 0 2 []]]] !! j
      = Some x →
      NestingShape.n_index x = Z.of_nat j ∧ NestingShape.n_level x = 0.
Proof.
  split; [exact diamond_tree|].
  exact (proj1 (classHierarchy_index_is_position Examples.diamond 5 _ _ _ diamond_tree)).
Defined.

Lemma classHierarchy_expands_once_witness :
  Nesting.classHierarchy Examples.looping 4 [0; 1; 2]%nat []
  = Some [Nesting.mkNode 0 0 0
            [Nesting.mkNode 1 0 1
               [Nesting.mkNode 2 0 2 [Nesting.mkNode 1 0 3 []]]]]
  ∧ NoDup [0%nat; 1%nat; 2%nat].
Proof.
  split; [exact looping_tree|].
  exact (classHierarchy_expands_once Examples.looping 4 _ _ _ looping_tree).
Defined.

(** On the looping graph the bound is met: three classes, depth four. *)
Lemma classHierarchy_depth_bounded_witness :
  Symbols.closedUnder Examples.looping Examples.loopUniverse
  ∧ (∀ cd, cd ∈ [0; 1; 2]%nat ++ [] → cd ∈ Examples.loopUniverse)
  ∧ Nesting.classHierarchy Examples.looping 4 [0; 1; 2]%nat []
    = Some [Nesting.mkNode 0 0 0
              [Nesting.mkNode 1 0 1
                 [Nesting.mkNode 2 0 2 [Nesting.mkNode 1 0 3 []]]]]
  ∧ TreeDepth.computeMaxDepth
      (Some (List.map NestingShape.toTemplateStruct
               [Nesting.mkNode 0 0 0
                  [Nesting.mkNode 1 0 1
                     [Nesting.mkNode 2 0 2 [Nesting.mkNode 1 0 3 []]]]]))
    ≤ Z.of_nat (size Examples.loopUniverse) + 1.
Proof.
  assert (∀ cd, cd ∈ [0; 1; 2]%nat ++ [] → cd ∈ Examples.loopUniverse) as Hall.
  { intros cd. rewrite app_nil_r, !elem_of_cons, elem_of_nil.
    intros [->|[->|[->|[]]]]; apply (bool_decide_unpack _); vm_compute; reflexivity. }
  split; [exact looping_closed|]. split; [exact Hall|]. split; [exact looping_tree|].
  exact (classHierarchy_depth_bounded Examples.looping Examples.loopUniverse 4 _ _ _
           looping_closed Hall looping_tree).
Defined.

(* ===================================================================== *)
(** * Properties of the life of a cookie *)
(* ===================================================================== *)

Section CookieFacts.
Import DefinitionContext Cookies.

Variable tools : DocTools.
Variable symbols : nat → Def.
Variable createSubdirs : bool.

#[local] Abbreviation getDetails := (getDetails tools symbols createSubdirs).
#[local] Abbreviation getBrief := (getBrief tools symbols createSubdirs).
#[local] Abbreviation getInbodyDocs := (getInbodyDocs tools symbols createSubdirs).
#[local] Abbreviation run := (run tools symbols createSubdirs).
#[local] Abbreviation detailsParse := (detailsParse tools symbols createSubdirs).
#[local] Abbreviation detailsCall := (detailsCall symbols).

Lemma attachCookie_attached def w c :
  cookies w !! def = Some c → attachCookie def w = w.
Proof. intros Hck. unfold attachCookie. by rewrite Hck. Qed.

Lemma framed_refl def w c : cookies w !! def = Some c → framed def w w.
Proof. intros Hck. unfold framed. by rewrite Hck. Qed.

Lemma setCookies_same w : setCookies (cookies w) w = w.
Proof. by destruct w. Qed.

Lemma framed_insert def w c1 calls errs :
  framed def w
    (setCookies (<[def := c1]> (cookies w))
       (mkWorld (outputFormat w) (cookies w) (parseCalls w ++ calls)
                (errors w ++ errs))).
Proof.
  unfold framed. simpl. split; [done|]. split.
  - intros d Hd. by rewrite lookup_insert_ne.
  - rewrite lookup_insert_eq. split; [done|]. split; by eexists.
Qed.

Lemma framed_insert_only def w c1 :
  framed def w (setCookies (<[def := c1]> (cookies w)) w).
Proof.
  unfold framed. simpl. split; [done|]. split.
  - intros d Hd. by rewrite lookup_insert_ne.
  - by rewrite lookup_insert_eq.
Qed.

Lemma getDetails_settles def w c :
  cookies w !! def = Some c → settles getDetails besidesDetails def w c.
Proof.
  intros Hck. unfold settles.
  destruct (details c) as [stored|] eqn:Hs;
    [destruct (decide (outputFormat w = detailsOutputFormat c)) as [Hf|Hf]|].
  - exists stored, w, c. rewrite (attachCookie_attached _ _ _ Hck).
    rewrite (getDetails_hits tools symbols createSubdirs def w c stored Hck Hs Hf).
    split; [done|]. split; [by eapply framed_refl|done].
  - unfold DefinitionContext.getDetails, getCache. rewrite Hck. simpl. rewrite Hs.
    rewrite decide_True by done. world_after_parseDoc.
    eexists _, _, _. split; [done|]. split; [apply framed_insert|].
    simpl. rewrite lookup_insert_eq. split; [done|]. split; [done|].
    unfold attachCookie. simpl. rewrite lookup_insert_eq. simpl.
    rewrite lookup_insert_eq. simpl. by rewrite decide_False by (intros ?; done).
  - unfold DefinitionContext.getDetails, getCache. rewrite Hck. simpl. rewrite Hs.
    world_after_parseDoc.
    eexists _, _, _. split; [done|]. split; [apply framed_insert|].
    simpl. rewrite lookup_insert_eq. split; [done|]. split; [done|].
    unfold attachCookie. simpl. rewrite lookup_insert_eq. simpl.
    rewrite lookup_insert_eq. simpl. by rewrite decide_False by (intros ?; done).
Qed.

(** Closes an accessor goal after its definition has been unfolded at a
    miss: the answer, the frame, the cookie written, and the repeated
    request. *)
Ltac settle_miss :=
  eexists _, _, _; split; [done|];
  split; [first [apply framed_insert|apply framed_insert_only]|];
  simpl; rewrite lookup_insert_eq; split; [done|]; split; [done|];
  unfold DefinitionContext.attachCookie; simpl; rewrite lookup_insert_eq; simpl;
  rewrite ?lookup_insert_eq; simpl.

Lemma getBrief_settles def w c :
  cookies w !! def = Some c → settles getBrief besidesBrief def w c.
Proof.
  intros Hck. unfold settles.
  destruct (brief c) as [stored|] eqn:Hs;
    [destruct (decide (outputFormat w = briefOutputFormat c)) as [Hf|Hf]|].
  - exists stored, w, c. rewrite (attachCookie_attached _ _ _ Hck).
    rewrite (getBrief_hits tools symbols createSubdirs def w c stored Hck Hs Hf).
    split; [done|]. split; [by eapply framed_refl|done].
  - unfold DefinitionContext.getBrief, getCache. rewrite Hck. simpl. rewrite Hs.
    rewrite decide_True by done.
    destruct (hasBriefDescription (symbols def)) eqn:Hhas.
    + world_after_parseDoc. settle_miss.
      by rewrite decide_False by (intros ?; done).
    + settle_miss. rewrite decide_True by done. by rewrite insert_insert_eq.
  - unfold DefinitionContext.getBrief, getCache. rewrite Hck. simpl. rewrite Hs.
    destruct (hasBriefDescription (symbols def)) eqn:Hhas.
    + world_after_parseDoc. settle_miss.
      by rewrite decide_False by (intros ?; done).
    + settle_miss. case_decide; [|done]. by rewrite insert_insert_eq.
Qed.

Lemma getInbodyDocs_settles def w c :
  cookies w !! def = Some c → settles getInbodyDocs besidesInbodyDocs def w c.
Proof.
  intros Hck. unfold settles.
  destruct (inbodyDocs c) as [stored|] eqn:Hs;
    [destruct (decide (outputFormat w = inbodyDocsOutputFormat c)) as [Hf|Hf]|].
  - exists stored, w, c. rewrite (attachCookie_attached _ _ _ Hck).
    rewrite (getInbodyDocs_hits tools symbols createSubdirs def w c stored Hck Hs Hf).
    split; [done|]. split; [by eapply framed_refl|done].
  - unfold DefinitionContext.getInbodyDocs, getCache. rewrite Hck. simpl. rewrite Hs.
    rewrite decide_True by done.
    destruct (String.eqb (inbodyDocumentation (symbols def)) EmptyString) eqn:Hhas;
      simpl.
    + settle_miss. rewrite decide_True by done. by rewrite insert_insert_eq.
    + world_after_parseDoc. settle_miss.
      by rewrite decide_False by (intros ?; done).
  - unfold DefinitionContext.getInbodyDocs, getCache. rewrite Hck. simpl. rewrite Hs.
    destruct (String.eqb (inbodyDocumentation (symbols def)) EmptyString) eqn:Hhas;
      simpl.
    + settle_miss. case_decide; [|done]. by rewrite insert_insert_eq.
    + world_after_parseDoc. settle_miss.
      by rewrite decide_False by (intros ?; done).
Qed.

(** X13. With its cookie attached, each text accessor answers; it changes
    no other definition's cookie, no other slot of its own cookie and not
    the output format, and only appends to the parser log and the error
    stream; a context object created for the same definition afterwards
    finds the cookie in place and gets the same answer without a further
    parser call. *)
Theorem accessors_settle def w c :
  cookies w !! def = Some c →
  settles getDetails besidesDetails def w c
  ∧ settles getBrief besidesBrief def w c
  ∧ settles getInbodyDocs besidesInbodyDocs def w c.
Proof.
  intros Hck. split; [|split].
  - by apply getDetails_settles.
  - by apply getBrief_settles.
  - by apply getInbodyDocs_settles.
Qed.

Lemma details_passes_from def passes : ∀ w c,
  cookies w !! def = Some c →
  (details c = None ∧ alternating passes)
  ∨ differsFrom (detailsOutputFormat c) passes →
  ∃ answers w',
    run (detailsInPasses def passes) w = Some (answers, w')
    ∧ parseCalls w' = parseCalls w ++ (detailsCall def <$> passes).
Proof.
  induction passes as [|f r IH]; intros w c Hck Hcase.
  - exists [], w. simpl. by rewrite app_nil_r.
  - assert (differsFrom f r) as Hr.
    { destruct Hcase as [[_ Ha]|[_ Hd]]; done. }
    assert (details c = None
            ∨ outputFormat (setOutputFormat f w) ≠ detailsOutputFormat c) as Hmiss.
    { destruct Hcase as [[Hn _]|[Hne _]]; [by left|by right]. }
    destruct (getDetails_misses tools symbols createSubdirs def
                (setOutputFormat f w) c Hck Hmiss)
      as (w1 & c1 & Hg & Hc1 & Hd1 & Hf1 & Hw1 & Hp).
    simpl in Hf1, Hp.
    destruct (IH w1 c1 Hc1) as (answers & w' & Hrun & Hcalls).
    { right. by rewrite Hf1. }
    change (detailsInPasses def (f :: r))
      with (SetOutputFormat f :: Details def :: detailsInPasses def r).
    simpl. rewrite Hg. simpl. rewrite Hrun. simpl.
    eexists _, w'. split; [done|]. by rewrite Hcalls, Hp, <- app_assoc.
Qed.

(** X14. The cookie keeps the details for one format only: over render
    passes that change the format from one to the next, starting from an
    unset slot, every pass calls the parser, also for a format that was
    parsed in an earlier pass. *)
Theorem details_parsed_in_every_pass def w c passes :
  cookies w !! def = Some c → details c = None → alternating passes →
  ∃ answers w',
    run (detailsInPasses def passes) w = Some (answers, w')
    ∧ parseCalls w' = parseCalls w ++ (detailsCall def <$> passes).
Proof.
  intros Hck Hn Halt. eapply details_passes_from; [done|]. by left.
Qed.

Lemma cleared_lookup (symbolMap : list nat) (ck : gmap nat Cachable) d :
  foldl (λ ck def, delete def ck) ck symbolMap !! d
  = if decide (d ∈ symbolMap) then None else ck !! d.
Proof.
  revert ck. induction symbolMap as [|x l IH]; intros ck.
  - destruct (decide (d ∈ [])) as [Hin|_]; [|done]. by apply elem_of_nil in Hin.
  - change (foldl (λ ck def, delete def ck) ck (x :: l))
      with (foldl (λ ck def, delete def ck) (delete x ck) l).
    rewrite IH. destruct (decide (d ∈ l)) as [Hin|Hin].
    + destruct (decide (d ∈ x :: l)) as [_|Hout]; [done|].
      destruct Hout. apply elem_of_cons. by right.
    + destruct (decide (d = x)) as [->|Hne].
      * destruct (decide (x ∈ x :: l)) as [_|Hout].
        -- apply lookup_delete_eq.
        -- destruct Hout. apply elem_of_cons. by left.
      * destruct (decide (d ∈ x :: l)) as [Hin'|_].
        -- apply elem_of_cons in Hin' as [?|?]; done.
        -- by apply lookup_delete_ne.
Qed.

(** The text the parser returns depends on the state through the output
    format only. *)
Lemma parseDoc_value def file line relPath docStr isBrief w w' :
  outputFormat w = outputFormat w' →
  (parseDoc tools symbols def file line relPath docStr isBrief w).1
  = (parseDoc tools symbols def file line relPath docStr isBrief w').1.
Proof.
  intros Hf. unfold parseDoc. rewrite Hf. by destruct (outputFormat w').
Qed.

(** X15. The loop at the end of a run clears the cookie of every definition
    of the symbol map and of no other.  Until a context object attaches a
    new cookie the text accessors have no cache to work on; with the new
    cookie the details are parsed again, in whatever format they had been
    cached before. *)
Theorem cookies_cleared_at_end def symbolMap w :
  def ∈ symbolMap →
  cookies (clearCookies symbolMap w) !! def = None
  ∧ getDetails def (clearCookies symbolMap w) = None
  ∧ getBrief def (clearCookies symbolMap w) = None
  ∧ getInbodyDocs def (clearCookies symbolMap w) = None
  ∧ (∃ w', getDetails def (attachCookie def (clearCookies symbolMap w))
           = Some ((detailsParse def w).1, w')
           ∧ parseCalls w' = parseCalls w ++ [detailsCall def (outputFormat w)])
  ∧ (∀ d, d ∉ symbolMap →
          cookies (clearCookies symbolMap w) !! d = cookies w !! d).
Proof.
  intros Hin.
  assert (cookies (clearCookies symbolMap w) !! def = None) as Hnone.
  { unfold clearCookies. simpl. rewrite cleared_lookup. by rewrite decide_True. }
  split; [done|].
  split; [unfold DefinitionContext.getDetails, getCache; by rewrite Hnone|].
  split; [unfold DefinitionContext.getBrief, getCache; by rewrite Hnone|].
  split; [unfold DefinitionContext.getInbodyDocs, getCache; by rewrite Hnone|].
  split.
  - set (w0 := attachCookie def (clearCookies symbolMap w)).
    assert (cookies w0 !! def = Some newCachable) as Hck.
    { unfold w0, attachCookie. rewrite Hnone. simpl. apply lookup_insert_eq. }
    destruct (getDetails_misses tools symbols createSubdirs def w0 newCachable Hck)
      as (w1 & c1 & Hg & _ & _ & _ & _ & Hp); [by left|].
    assert (outputFormat w0 = outputFormat w) as Hf.
    { unfold w0, attachCookie. by rewrite Hnone. }
    assert (parseCalls w0 = parseCalls w) as Hcalls.
    { unfold w0, attachCookie. by rewrite Hnone. }
    exists w1. rewrite Hg, Hp, Hf, Hcalls. split; [|done].
    unfold DefinitionContext.detailsParse.
    by rewrite (parseDoc_value _ _ _ _ _ _ w0 w Hf).
  - intros d Hd. unfold clearCookies. simpl. rewrite cleared_lookup.
    by rewrite decide_False.
Qed.

End CookieFacts.

(** A fresh cookie in the HTML pass. *)
Lemma accessors_settle_witness :
  let syms := λ _ : nat, Examples.undocumentedBrief in
  let w0 := DefinitionContext.setOutputFormat DefinitionContext.ContextOutputFormat_Html
              (DefinitionContext.attachCookie 0 DefinitionContext.initialWorld) in
  DefinitionContext.cookies w0 !! 0%nat = Some DefinitionContext.newCachable
  ∧ Cookies.settles (DefinitionContext.getDetails Examples.echoTools syms false)
                    Cookies.besidesDetails 0 w0 DefinitionContext.newCachable.
Proof.
  intros syms w0.
  assert (DefinitionContext.cookies w0 !! 0%nat = Some DefinitionContext.newCachable)
    as Hck by (vm_compute; reflexivity).
  split; [exact Hck|].
  exact (proj1 (accessors_settle Examples.echoTools syms false 0 w0
                  DefinitionContext.newCachable Hck)).
Defined.

(** HTML, LaTeX, HTML again: three parser calls. *)
Lemma details_parsed_in_every_pass_witness :
  let syms := λ _ : nat, Examples.undocumentedBrief in
  let w0 := DefinitionContext.attachCookie 0 DefinitionContext.initialWorld in
  let passes := [DefinitionContext.ContextOutputFormat_Html;
                 DefinitionContext.ContextOutputFormat_Latex;
                 DefinitionContext.ContextOutputFormat_Html] in
  DefinitionContext.cookies w0 !! 0%nat = Some DefinitionContext.newCachable
  ∧ DefinitionContext.details DefinitionContext.newCachable = None
  ∧ Cookies.alternating passes
  ∧ ∃ answers w',
      DefinitionContext.run Examples.echoTools syms false
        (Cookies.detailsInPasses 0 passes) w0 = Some (answers, w')
      ∧ DefinitionContext.parseCalls w'
        = DefinitionContext.parseCalls w0
          ++ (DefinitionContext.detailsCall syms 0 <$> passes).
Proof.
  intros syms w0 passes.
  assert (DefinitionContext.cookies w0 !! 0%nat = Some DefinitionContext.newCachable)
    as Hck by (vm_compute; reflexivity).
  assert (Cookies.alternating passes) as Halt.
  { simpl. split; [discriminate|]. split; [discriminate|exact I]. }
  split; [exact Hck|]. split; [reflexivity|]. split; [exact Halt|].
  exact (details_parsed_in_every_pass Examples.echoTools syms false 0 w0
           DefinitionContext.newCachable passes Hck eq_refl Halt).
Defined.

(** A symbol map of two definitions, cleared after the first was attached. *)
Lemma cookies_cleared_at_end_witness :
  let w0 := DefinitionContext.attachCookie 0 DefinitionContext.initialWorld in
  0%nat ∈ [0%nat; 1%nat]
  ∧ DefinitionContext.cookies w0 !! 0%nat = Some DefinitionContext.newCachable
  ∧ DefinitionContext.cookies (Cookies.clearCookies [0%nat; 1%nat] w0) !! 0%nat = None.
Proof.
  intros w0.
  assert (0%nat ∈ [0%nat; 1%nat]) as Hin by (apply elem_of_cons; by left).
  split; [exact Hin|]. split; [vm_compute; reflexivity|].
  exact (proj1 (cookies_cleared_at_end Examples.echoTools
                  (λ _ : nat, Examples.undocumentedBrief) false 0 [0%nat; 1%nat]
                  w0 Hin)).
Defined.

(* ===================================================================== *)
(** * Properties of the brief description of a tree node *)
(* ===================================================================== *)

Section NodeBriefFacts.
Import DefinitionContext NodeBrief.

Variable tools : DocTools.
Variable symbols : nat → Def.

#[local] Abbreviation nodeBrief := (nodeBrief tools symbols).
#[local] Abbreviation briefInPasses := (briefInPasses tools symbols).

(** The first request of a node fills its slot with the answer. *)
Lemma nodeBrief_fills m_def w :
  (nodeBrief m_def None w).1.2 = Some (nodeBrief m_def None w).1.1
  ∧ parseCalls (nodeBrief m_def None w).2
    = parseCalls w ++ (if hasBriefDescription (symbols m_def)
                       then [briefCall symbols m_def (outputFormat w)] else []).
Proof.
  unfold NodeBrief.nodeBrief. destruct (hasBriefDescription (symbols m_def)).
  - by world_after_parseDoc.
  - simpl. by rewrite app_nil_r.
Qed.

(** With the slot set, no pass changes the answer or calls the parser. *)
Lemma briefInPasses_cached m_def passes v : ∀ w,
  (briefInPasses m_def passes (Some v) w).1 = (replicate (length passes) v, Some v)
  ∧ parseCalls (briefInPasses m_def passes (Some v) w).2 = parseCalls w
  ∧ errors (briefInPasses m_def passes (Some v) w).2 = errors w.
Proof.
  induction passes as [|f rest IH]; intros w; [done|]. simpl.
  specialize (IH (setOutputFormat f w)).
  destruct (NodeBrief.briefInPasses tools symbols m_def rest (Some v)
              (setOutputFormat f w)) as [[vs slot] w2].
  simpl in *. destruct IH as ([= -> ->] & Hp & He). done.
Qed.

(** X16. A node of a navigation tree keeps the brief description of the
    first pass that asks for it: every later pass gets that answer, in
    whatever format it renders, and the parser is called once if the
    definition has a brief description and never otherwise. *)
Theorem nodeBrief_first_format_wins m_def f passes w :
  (briefInPasses m_def (f :: passes) None w).1.1
  = replicate (S (length passes)) (nodeBrief m_def None (setOutputFormat f w)).1.1
  ∧ (briefInPasses m_def (f :: passes) None w).1.2
    = Some (nodeBrief m_def None (setOutputFormat f w)).1.1
  ∧ parseCalls (briefInPasses m_def (f :: passes) None w).2
    = parseCalls w ++ (if hasBriefDescription (symbols m_def)
                       then [briefCall symbols m_def f] else []).
Proof.
  pose proof (nodeBrief_fills m_def (setOutputFormat f w)) as [Hslot Hcalls].
  change (outputFormat (setOutputFormat f w)) with f in Hcalls.
  change (parseCalls (setOutputFormat f w)) with (parseCalls w) in Hcalls.
  change (NodeBrief.briefInPasses tools symbols m_def (f :: passes) None w)
    with (let '(v, slot1, w1) := nodeBrief m_def None (setOutputFormat f w) in
          let '(vs, slot2, w2) := briefInPasses m_def passes slot1 w1 in
          (v :: vs, slot2, w2)).
  destruct (NodeBrief.nodeBrief tools symbols m_def None (setOutputFormat f w))
    as [[v slot1] w1]. simpl in Hslot, Hcalls. subst slot1.
  pose proof (briefInPasses_cached m_def passes v w1) as (Hans & Hp & _).
  destruct (NodeBrief.briefInPasses tools symbols m_def passes (Some v) w1)
    as [[vs slot2] w2]. simpl in Hans, Hp. injection Hans as -> ->.
  simpl. by rewrite Hp, Hcalls.
Qed.

End NodeBriefFacts.

(* ===================================================================== *)
(** * Properties of ConfigContext *)
(* ===================================================================== *)

Section ConfigContextFacts.
Import ConfigContext.

Variable options : string → option Info.

#[local] Abbreviation get := (get options).
#[local] Abbreviation getAll := (getAll options).
#[local] Abbreviation cacheSound := (cacheSound options).

(** The strings of a list option as the template engine sees them. *)
#[local] Abbreviation asVariants l := ((λ s, VString s false) <$> l).

Lemma newPrivate_sound : cacheSound newPrivate.
Proof. intros name v Hv. simpl in Hv. by rewrite lookup_empty in Hv. Qed.

(** [fetchList] either finds the entry or adds it together with its list. *)
Lemma fetchList_cases name l p :
  (∃ v, m_cachedLists p !! name = Some v ∧ fetchList name l p = (v, p))
  ∨ (m_cachedLists p !! name = None
     ∧ fetchList name l p
       = (VList (length (lists p)),
          mkPrivate (<[name := VList (length (lists p))]> (m_cachedLists p))
                    (lists p ++ [asVariants l]))).
Proof.
  unfold fetchList. destruct (m_cachedLists p !! name) as [v|]; [left|right]; eauto.
Qed.

(** A lookup leaves the state alone unless it is the first of a list
    option. *)
Lemma get_cases name p :
  get name p = ((get name p).1, p)
  ∨ (∃ l, name ≠ EmptyString ∧ options name = Some (InfoList l)
          ∧ m_cachedLists p !! name = None
          ∧ get name p
            = (VList (length (lists p)),
               mkPrivate (<[name := VList (length (lists p))]> (m_cachedLists p))
                         (lists p ++ [asVariants l]))).
Proof.
  unfold ConfigContext.get.
  destruct (String.eqb_spec name EmptyString) as [->|Hne]; simpl; [by left|].
  destruct (options name) as [[b|i|s|l|]|] eqn:Hopt; try by left.
  destruct (fetchList_cases name l p) as [(v & Hv & ->)|[Hnone ->]]; [by left|].
  right. by exists l.
Qed.

Lemma get_grows name p :
  m_cachedLists p ⊆ m_cachedLists (get name p).2
  ∧ lists p `prefix_of` lists (get name p).2
  ∧ (length (lists (get name p).2) ≤ S (length (lists p)))%nat.
Proof.
  destruct (get_cases name p) as [->|(l & _ & _ & Hnone & ->)]; simpl.
  - split; [done|]. split; [done|lia].
  - split; [by apply insert_subseteq|]. split; [by eexists|].
    rewrite length_app. simpl. lia.
Qed.

Lemma get_sound name p : cacheSound p → cacheSound (get name p).2.
Proof.
  intros Hsound.
  destruct (get_cases name p) as [->|(l & _ & Hopt & Hnone & ->)]; [done|]. simpl.
  intros n v Hv. simpl in Hv. destruct (decide (n = name)) as [->|Hne].
  - rewrite lookup_insert_eq in Hv. injection Hv as <-.
    exists (length (lists p)), l. split; [done|]. split; [done|]. simpl.
    rewrite lookup_app_r by lia. by rewrite Nat.sub_diag.
  - rewrite lookup_insert_ne in Hv by done.
    destruct (Hsound n v Hv) as (tlist & l' & -> & Hopt' & Hl').
    exists tlist, l'. split; [done|]. split; [done|]. simpl.
    by apply lookup_app_l_Some.
Qed.

(** What a list option answers is in the cache afterwards. *)
Lemma get_list_cached name l p :
  name ≠ EmptyString → options name = Some (InfoList l) →
  m_cachedLists (get name p).2 !! name = Some (get name p).1.
Proof.
  intros Hne Hopt. unfold ConfigContext.get.
  destruct (String.eqb_spec name EmptyString) as [?|_]; [done|]. simpl.
  rewrite Hopt.
  destruct (fetchList_cases name l p) as [(v & Hv & ->)|[Hnone ->]]; simpl; [done|].
  apply lookup_insert_eq.
Qed.

(** Once answered, a name is answered the same in every later state. *)
Lemma get_stable name p p2 :
  m_cachedLists (get name p).2 ⊆ m_cachedLists p2 →
  (get name p2).1 = (get name p).1.
Proof.
  intros Hsub.
  destruct (String.eqb_spec name EmptyString) as [->|Hne]; [done|].
  destruct (options name) as [[b|i|s|l|]|] eqn:Hopt;
    try (unfold ConfigContext.get; rewrite Hopt; by destruct (negb _)).
  pose proof (get_list_cached name l p Hne Hopt) as Hc.
  pose proof (lookup_weaken _ _ _ _ Hc Hsub) as Hc2.
  unfold ConfigContext.get at 1.
  destruct (String.eqb_spec name EmptyString) as [?|_]; [done|]. simpl.
  rewrite Hopt. unfold fetchList. by rewrite Hc2.
Qed.

Lemma getAll_unfold name rest p :
  getAll (name :: rest) p
  = ((get name p).1 :: (getAll rest (get name p).2).1, (getAll rest (get name p).2).2).
Proof.
  change (ConfigContext.getAll options (name :: rest) p)
    with (let '(v, p1) := get name p in
          let '(vs, p2) := getAll rest p1 in (v :: vs, p2)).
  destruct (ConfigContext.get options name p) as [v p1]. simpl.
  by destruct (ConfigContext.getAll options rest p1) as [vs p2].
Qed.

Lemma getAll_grows names : ∀ p,
  m_cachedLists p ⊆ m_cachedLists (getAll names p).2
  ∧ length (getAll names p).1 = length names
  ∧ (cacheSound p → cacheSound (getAll names p).2).
Proof.
  induction names as [|name rest IH]; intros p; [done|].
  rewrite getAll_unfold. simpl.
  destruct (IH (get name p).2) as (Hsub & Hlen & Hsound).
  split; [|split].
  - etrans; [apply get_grows|done].
  - by rewrite Hlen.
  - intros Hp. apply Hsound. by apply get_sound.
Qed.

(** A name answered [v] before a run is answered [v] at every place of the
    run. *)
Lemma getAll_later names : ∀ p0 p name (j : nat),
  m_cachedLists (get name p0).2 ⊆ m_cachedLists p →
  names !! j = Some name →
  (getAll names p).1 !! j = Some (get name p0).1.
Proof.
  induction names as [|n rest IH]; intros p0 p name j Hsub Hj; [done|].
  rewrite getAll_unfold. destruct j as [|j]; simpl in *.
  - injection Hj as ->. f_equal. by apply get_stable.
  - apply IH; [|done]. etrans; [done|apply get_grows].
Qed.

(** X17. A run of configuration lookups from a new context: the same name
    gets the same answer at every place of the run, so a list option is
    turned into a template list once; the empty name, an unknown name and
    an option of a type without a case get the invalid variant; a list
    option gets the handle of a list that holds its strings, in order. *)
Theorem config_lookups_agree names (i j : nat) name :
  names !! i = Some name → names !! j = Some name →
  (getAll names newPrivate).1 !! i = (getAll names newPrivate).1 !! j
  ∧ (name = EmptyString ∨ options name = None ∨ options name = Some InfoOther →
     (getAll names newPrivate).1 !! i = Some VNone)
  ∧ (∀ l, name ≠ EmptyString → options name = Some (InfoList l) →
       ∃ tlist, (getAll names newPrivate).1 !! i = Some (VList tlist)
                ∧ lists (getAll names newPrivate).2 !! tlist = Some (asVariants l)).
Proof.
  assert (∀ names p (k : nat) name, names !! k = Some name →
            ∃ p0, m_cachedLists p ⊆ m_cachedLists p0
                  ∧ (cacheSound p → cacheSound p0)
                  ∧ (getAll names p).1 !! k = Some (get name p0).1
                  ∧ m_cachedLists (get name p0).2
                    ⊆ m_cachedLists (getAll names p).2
                  ∧ ∀ k', names !! k' = Some name →
                          (getAll names p).1 !! k' = Some (get name p0).1 ∨ (k' < k)%nat)
    as Hat.
  { clear. induction names as [|n rest IH]; intros p k name Hk; [done|].
    rewrite getAll_unfold. destruct k as [|k]; simpl in Hk.
    - injection Hk as ->. exists p. split; [done|]. split; [done|].
      split; [done|]. split; [apply getAll_grows|].
      intros [|k'] Hk'; [by left|]. left. simpl in *. by apply getAll_later.
    - destruct (IH (get n p).2 k name Hk) as (p0 & Hsub & Hsound & Hv & Hsub' & Hrest).
      exists p0. split; [etrans; [apply get_grows|done]|].
      split; [intros Hp; apply Hsound; by apply get_sound|].
      split; [done|]. split; [done|].
      intros [|k'] Hk'; [right; lia|]. simpl in *.
      destruct (Hrest k' Hk') as [?|?]; [by left|right; lia]. }
  intros Hi Hj.
  destruct (Hat names newPrivate i name Hi) as (pi & _ & Hsi & Hvi & Hsubi & Hri).
  destruct (Hat names newPrivate j name Hj) as (pj & _ & _ & Hvj & _ & Hrj).
  split; [|split].
  - destruct (Hri j Hj) as [Hj'|Hlt]; [by rewrite Hvi, Hj'|].
    destruct (Hrj i Hi) as [Hi'|Hlt']; [by rewrite Hi', Hvj|lia].
  - intros Hcase. rewrite Hvi. f_equal. unfold ConfigContext.get.
    destruct Hcase as [->|[->| ->]]; [done| |]; by destruct (negb _).
  - intros l Hne Hopt. rewrite Hvi.
    pose proof (get_list_cached name l pi Hne Hopt) as Hc.
    pose proof (lookup_weaken _ _ _ _ Hc Hsubi) as Hc2.
    destruct (getAll_grows names newPrivate) as (_ & _ & Hsound).
    destruct (Hsound newPrivate_sound _ _ Hc2) as (tlist & l' & Hv & Hopt' & Hl').
    rewrite Hopt in Hopt'. injection Hopt' as <-.
    exists tlist. by rewrite Hv.
Qed.

End ConfigContextFacts.

(** The option [INPUT] asked twice, with an unknown name in between. *)
Lemma config_lookups_agree_witness :
  let options := λ n : string,
    if String.eqb n "INPUT"
    then Some (ConfigContext.InfoList ["src"%string; "include"%string]) else None in
  let names := ["INPUT"%string; "NO_SUCH_OPTION"%string; "INPUT"%string] in
  names !! 0%nat = Some "INPUT"%string
  ∧ names !! 2%nat = Some "INPUT"%string
  ∧ (ConfigContext.getAll options names ConfigContext.newPrivate).1 !! 0%nat
    = (ConfigContext.getAll options names ConfigContext.newPrivate).1 !! 2%nat.
Proof.
  intros options names.
  split; [reflexivity|]. split; [reflexivity|].
  exact (proj1 (config_lookups_agree options names 0 2 "INPUT" eq_refl eq_refl)).
Defined.

(* ===================================================================== *)
(** * Properties of the navigation path *)
(* ===================================================================== *)

Section NavigationPathFacts.
Import NavigationPath.

Variable defs : nat → Scoped.
Variable globalScope : nat.

#[local] Abbreviation fillPath := (fillPath defs globalScope).
#[local] Abbreviation navigationPath := (navigationPath defs globalScope).
#[local] Abbreviation enclosing := (enclosing defs globalScope).
#[local] Abbreviation chainFrom := (chainFrom defs globalScope).

Lemma chainFrom_snoc path : ∀ prev x,
  chainFrom prev (path ++ [x])
  ↔ chainFrom prev path
    ∧ enclosing x = match last path with Some y => Some y | None => prev end.
Proof.
  induction path as [|y rest IH]; intros prev x.
  - simpl. tauto.
  - change (NavigationPath.chainFrom defs globalScope prev ((y :: rest) ++ [x]))
      with (enclosing y = prev ∧ chainFrom (Some y) (rest ++ [x])).
    change (NavigationPath.chainFrom defs globalScope prev (y :: rest))
      with (enclosing y = prev ∧ chainFrom (Some y) rest).
    rewrite IH, last_cons. destruct (last rest); tauto.
Qed.

(** One step of [fillPath], with the definition it goes to first. *)
Lemma fillPath_unfold fuel def list :
  fillPath (S fuel) def list
  = match enclosing def with
    | Some up => list1 ← fillPath fuel up list; Some (list1 ++ [def])
    | None => Some (list ++ [def])
    end.
Proof.
  simpl. unfold NavigationPath.enclosing.
  destruct (getOuterScope (defs def)) as [outer|];
    [destruct (decide (outer ≠ globalScope)); [done|]|];
    by destruct (definitionType (defs def)), (getDirDef (defs def)).
Qed.

(** [fillPath] appends the chain of enclosing definitions that ends in
    [def]. *)
Lemma fillPath_chain fuel : ∀ def list list',
  fillPath fuel def list = Some list' →
  ∃ path, list' = list ++ path ++ [def] ∧ chainFrom None (path ++ [def]).
Proof.
  induction fuel as [|fuel IH]; intros def list list' Hrun; [done|].
  rewrite fillPath_unfold in Hrun.
  destruct (enclosing def) as [up|] eqn:Hup.
  - destruct (NavigationPath.fillPath defs globalScope fuel up list)
      as [list1|] eqn:H1; [|done].
    simpl in Hrun. injection Hrun as <-.
    destruct (IH _ _ _ H1) as (path & -> & Hchain).
    exists (path ++ [up]). split; [by rewrite <- !app_assoc|].
    apply chainFrom_snoc. split; [done|]. by rewrite last_snoc.
  - injection Hrun as <-. exists []. split; [done|]. simpl. done.
Qed.

(** X18. The navigation path is computed once and kept in the cookie.  It
    is a chain of enclosing definitions from the outermost one; it is empty
    for a definition that nothing encloses, ends in the definition itself
    when the definition has an outer scope other than the global one, and
    ends in the directory, without the file, for a file that is in a
    directory and has no such outer scope. *)
Theorem navigationPath_chain fuel m_def path slot :
  navigationPath fuel m_def None = Some (path, slot) →
  slot = Some path
  ∧ (∀ fuel', navigationPath fuel' m_def slot = Some (path, slot))
  ∧ chainFrom None path
  ∧ (enclosing m_def = None → path = [])
  ∧ (∀ outer, getOuterScope (defs m_def) = Some outer → outer ≠ globalScope →
       last path = Some m_def)
  ∧ (∀ dir, getOuterScope (defs m_def) = None
            ∨ getOuterScope (defs m_def) = Some globalScope →
       definitionType (defs m_def) = TypeFile → getDirDef (defs m_def) = Some dir →
       last path = Some dir).
Proof.
  unfold NavigationPath.navigationPath, NavigationPath.enclosing.
  intros Hrun.
  assert (∀ fuel0 d l', fillPath fuel0 d [] = Some l' →
            chainFrom None l' ∧ last l' = Some d) as Hfill.
  { intros fuel0 d l' Hf. apply fillPath_chain in Hf as (p & -> & Hc).
    simpl. split; [done|]. by rewrite last_snoc. }
  destruct (getOuterScope (defs m_def)) as [outer|] eqn:Houter;
    [destruct (decide (outer ≠ globalScope)) as [Hne|Heq]|].
  - destruct (NavigationPath.fillPath defs globalScope fuel m_def [])
      as [l'|] eqn:Hf; [|done].
    simpl in Hrun. injection Hrun as <- <-.
    destruct (Hfill _ _ _ Hf) as [Hc Hl].
    split; [done|]. split; [done|]. split; [done|]. split; [done|].
    split; [done|]. intros dir [?|[= ->]]; done.
  - apply dec_stable in Heq. subst outer.
    destruct (definitionType (defs m_def)) eqn:Htype;
      try (simpl in Hrun; injection Hrun as <- <-;
           split; [done|]; split; [done|]; split; [done|]; split; [done|];
           split; [by intros ? [= <-] ?|done]).
    destruct (getDirDef (defs m_def)) as [dir|] eqn:Hdir.
    + destruct (NavigationPath.fillPath defs globalScope fuel dir [])
        as [l'|] eqn:Hf; [|done].
      simpl in Hrun. injection Hrun as <- <-.
      destruct (Hfill _ _ _ Hf) as [Hc Hl].
      split; [done|]. split; [done|]. split; [done|]. split; [done|].
      split; [by intros ? [= <-] ?|]. by intros ? _ _ [= <-].
    + simpl in Hrun. injection Hrun as <- <-.
      split; [done|]. split; [done|]. split; [done|]. split; [done|].
      split; [by intros ? [= <-] ?|done].
  - destruct (definitionType (defs m_def)) eqn:Htype;
      try (simpl in Hrun; injection Hrun as <- <-;
           split; [done|]; split; [done|]; split; [done|]; split; [done|];
           split; done).
    destruct (getDirDef (defs m_def)) as [dir|] eqn:Hdir.
    + destruct (NavigationPath.fillPath defs globalScope fuel dir [])
        as [l'|] eqn:Hf; [|done].
      simpl in Hrun. injection Hrun as <- <-.
      destruct (Hfill _ _ _ Hf) as [Hc Hl].
      split; [done|]. split; [done|]. split; [done|]. split; [done|].
      split; [done|]. by intros ? _ _ [= <-].
    + simpl in Hrun. injection Hrun as <- <-.
      split; [done|]. split; [done|]. split; [done|]. split; [done|].
      split; done.
Qed.

Section Ranked.

(** A measure that drops from a definition to the one enclosing it: the
    nesting of scopes and directories has no cycle. *)
Variable rank : nat → nat.
Hypothesis rank_drops : ∀ d up, enclosing d = Some up → (rank up < rank d)%nat.

Lemma fillPath_total fuel : ∀ def list,
  (rank def < fuel)%nat →
  ∃ path, fillPath fuel def list = Some (list ++ path ++ [def])
          ∧ Forall (λ x, (rank x < rank def)%nat) path
          ∧ NoDup path
          ∧ (length path ≤ rank def)%nat.
Proof.
  induction fuel as [|fuel IH]; intros def list Hfuel; [lia|].
  rewrite fillPath_unfold.
  destruct (enclosing def) as [up|] eqn:Hup.
  - pose proof (rank_drops _ _ Hup) as Hdrop.
    destruct (IH up list) as (path & -> & Hall & Hnd & Hlen); [lia|]. simpl.
    exists (path ++ [up]). split; [by rewrite <- !app_assoc|]. split; [|split].
    + apply Forall_app. split; [|by apply Forall_singleton].
      eapply Forall_impl; [done|]. simpl. intros; lia.
    + apply NoDup_app. split; [done|]. split; [|apply NoDup_singleton].
      intros x Hx. rewrite Forall_forall in Hall. specialize (Hall x Hx).
      intros ->%list_elem_of_singleton. lia.
    + rewrite length_app. simpl. lia.
  - exists []. split; [done|]. split; [done|]. split; [apply NoDup_nil_2|].
    simpl. lia.
Qed.

(** X19. When the nesting has no cycle the navigation path exists, repeats
    no definition and is no longer than the nesting is deep. *)
Theorem navigationPath_total fuel m_def :
  (rank m_def < fuel)%nat →
  ∃ path, navigationPath fuel m_def None = Some (path, Some path)
          ∧ NoDup path
          ∧ (length path ≤ S (rank m_def))%nat.
Proof.
  intros Hfuel.
  assert (∀ d, (rank d < fuel)%nat →
            ∃ p, fillPath fuel d [] = Some p ∧ NoDup p ∧ (length p ≤ S (rank d))%nat)
    as Hfill.
  { intros d Hd. destruct (fillPath_total fuel d [] Hd) as (p & Hp & Hall & Hnd & Hlen).
    exists (p ++ [d]). split; [done|]. split.
    - apply NoDup_app. split; [done|]. split; [|apply NoDup_singleton].
      intros x Hx. rewrite Forall_forall in Hall. specialize (Hall x Hx).
      intros ->%list_elem_of_singleton. lia.
    - rewrite length_app. simpl. lia. }
  assert (∀ dir, enclosing m_def = Some dir →
            ∃ p, fillPath fuel dir [] = Some p ∧ NoDup p
                 ∧ (length p ≤ S (rank m_def))%nat) as Hdir.
  { intros dir Hup. pose proof (rank_drops _ _ Hup).
    destruct (Hfill dir) as (p & Hp & Hnd & Hlen); [lia|].
    exists p. split; [done|]. split; [done|lia]. }
  assert (∃ path : list nat,
            Some (([] : list nat), Some ([] : list nat)) = Some (path, Some path)
            ∧ NoDup path ∧ (length path ≤ S (rank m_def))%nat) as Hnil.
  { exists []. split; [done|]. split; [apply NoDup_nil_2|simpl; lia]. }
  unfold NavigationPath.navigationPath.
  unfold NavigationPath.enclosing in Hdir.
  destruct (getOuterScope (defs m_def)) as [outer|];
    [destruct (decide (outer ≠ globalScope)) as [Hne|Heq]|].
  - destruct (Hfill m_def Hfuel) as (p & -> & Hnd & Hlen). simpl. by exists p.
  - destruct (definitionType (defs m_def)); try exact Hnil.
    destruct (getDirDef (defs m_def)) as [dir|]; [|exact Hnil].
    destruct (Hdir dir eq_refl) as (p & -> & Hnd & Hlen). simpl. by exists p.
  - destruct (definitionType (defs m_def)); try exact Hnil.
    destruct (getDirDef (defs m_def)) as [dir|]; [|exact Hnil].
    destruct (Hdir dir eq_refl) as (p & -> & Hnd & Hlen). simpl. by exists p.
Qed.

End Ranked.

End NavigationPathFacts.

(** In the example every definition is enclosed by one of a smaller
    number. *)
Lemma scopes_rank_drops d up :
  NavigationPath.enclosing ScopeExamples.scopes 0 d = Some up → (up < d)%nat.
Proof.
  intros H.
  do 5 (destruct d as [|d];
        [vm_compute in H; try discriminate; injection H as <-; lia|]).
  vm_compute in H. discriminate.
Qed.

(** The class in the namespace: the path is the namespace, then the class. *)
Lemma navigationPath_chain_witness :
  NavigationPath.navigationPath ScopeExamples.scopes 0 3 2 None
  = Some ([1%nat; 2%nat], Some [1%nat; 2%nat])
  ∧ NavigationPath.chainFrom ScopeExamples.scopes 0 None [1%nat; 2%nat].
Proof.
  split; [reflexivity|].
  exact (proj1 (proj2 (proj2
           (navigationPath_chain ScopeExamples.scopes 0 3 2 [1%nat; 2%nat]
              (Some [1%nat; 2%nat]) eq_refl)))).
Defined.

(** The file in the directory: the path is the directory alone. *)
Lemma navigationPath_total_witness :
  (4 < 5)%nat
  ∧ ∃ path, NavigationPath.navigationPath ScopeExamples.scopes 0 5 4 None
            = Some (path, Some path)
            ∧ NoDup path ∧ (length path ≤ 5)%nat.
Proof.
  assert (4 < 5)%nat as Hfuel by lia.
  split; [exact Hfuel|].
  exact (navigationPath_total ScopeExamples.scopes 0 (λ d, d) scopes_rank_drops
           5 4 Hfuel).
Defined.

(* ===================================================================== *)
(** * Properties of the spaceless filters *)
(* ===================================================================== *)

Section SpacelessFacts.
Import Spaceless.

Lemma latexRemove_loop s : latexRemove s = latexLoop s.
Proof. by destruct s. Qed.

Lemma htmlRemove_loop s st : htmlRemove s st = htmlLoop s st.
Proof. by destruct s. Qed.

Lemma latexLoop_unfold c p1 :
  latexLoop (String c p1)
  = if Ascii.eqb c zero then EmptyString
    else if isWhite c then latexLoop p1 else String c (latexLoop p1).
Proof. done. Qed.

Lemma latexLoop_clean s :
  Forall (λ c, isWhite c = false ∧ c ≠ zero) (chars (latexLoop s)).
Proof.
  induction s as [|c s IH]; [by constructor|]. rewrite latexLoop_unfold.
  destruct (Ascii.eqb_spec c zero) as [->|Hz]; [by constructor|].
  destruct (isWhite c) eqn:Hw; [done|]. by constructor.
Qed.

(** A string without white space and without the end character passes
    unchanged. *)
Lemma latexLoop_fixed s :
  Forall (λ c, isWhite c = false ∧ c ≠ zero) (chars s) → latexLoop s = s.
Proof.
  induction s as [|c s IH]; [done|]. intros Hall.
  apply Forall_cons in Hall as [[Hw Hz] Hall]. rewrite latexLoop_unfold.
  apply Ascii.eqb_neq in Hz. rewrite Hz, Hw. by rewrite IH.
Qed.

Lemma latexLoop_length s : (String.length (latexLoop s) ≤ String.length s)%nat.
Proof.
  induction s as [|c s IH]; [done|]. rewrite latexLoop_unfold.
  destruct (Ascii.eqb c zero); [simpl; lia|].
  destruct (isWhite c); simpl; lia.
Qed.

Lemma latexLoop_sublist s : sublist (chars (latexLoop s)) (chars s).
Proof.
  induction s as [|c s IH]; [done|]. rewrite latexLoop_unfold.
  destruct (Ascii.eqb c zero); [apply sublist_nil_l|].
  destruct (isWhite c); [by apply sublist_cons|by apply sublist_skip].
Qed.

Lemma latexLoop_app s s' :
  zero ∉ chars s →
  latexLoop (String.append s s') = String.append (latexLoop s) (latexLoop s').
Proof.
  induction s as [|c s IH]; [done|]. intros Hz.
  apply not_elem_of_cons in Hz as [Hc Hz].
  change (String.append (String c s) s') with (String c (String.append s s')).
  rewrite !latexLoop_unfold.
  assert (Ascii.eqb c zero = false) as -> by (apply Ascii.eqb_neq; congruence).
  destruct (isWhite c); simpl; by rewrite IH.
Qed.

(** X20. [LatexSpaceless::remove] deletes every blank, tab and newline and
    nothing else: the result has none of them, is a subsequence of the
    input, and equals the input when that has none; filtering twice is
    filtering once; and on text without an end character inside, filtering
    a concatenation is concatenating the filtered parts. *)
Theorem latexRemove_strips s s' :
  Forall (λ c, isWhite c = false ∧ c ≠ zero) (chars (latexRemove s))
  ∧ sublist (chars (latexRemove s)) (chars s)
  ∧ (String.length (latexRemove s) ≤ String.length s)%nat
  ∧ latexRemove (latexRemove s) = latexRemove s
  ∧ (Forall (λ c, isWhite c = false ∧ c ≠ zero) (chars s) → latexRemove s = s)
  ∧ (zero ∉ chars s →
     latexRemove (String.append s s')
     = String.append (latexRemove s) (latexRemove s')).
Proof.
  rewrite !latexRemove_loop.
  split; [apply latexLoop_clean|]. split; [apply latexLoop_sublist|].
  split; [apply latexLoop_length|].
  split; [apply latexLoop_fixed, latexLoop_clean|].
  split; [apply latexLoop_fixed|apply latexLoop_app].
Qed.

(** Induction for a loop that may read two characters in one round. *)
Lemma string_pair_ind (P : string → Prop) :
  P EmptyString →
  (∀ c, P (String c EmptyString)) →
  (∀ c d s, P s → P (String d s) → P (String c (String d s))) →
  ∀ s, P s.
Proof.
  intros Hnil Hone Htwo s.
  assert (P s ∧ ∀ c, P (String c s)) as [H _]; [|done].
  induction s as [|d s [IH1 IH2]]; [done|]. split; [apply IH2|].
  intros c. apply Htwo; [done|apply IH2].
Qed.

Lemma htmlLoop_unfold c p1 st :
  htmlLoop (String c p1) st
  = if Ascii.eqb c zero then (EmptyString, st)
    else if Ascii.eqb c ltChar then
      let st1 := if Ascii.eqb (m_insideString st) zero
                 then mkHtmlSpaceless true (m_insideString st) false else st in
      let '(result, st2) := htmlLoop p1 st1 in (String c result, st2)
    else if Ascii.eqb c gtChar then
      let st1 := if Ascii.eqb (m_insideString st) zero
                 then mkHtmlSpaceless false (m_insideString st) true else st in
      let '(result, st2) := htmlLoop p1 st1 in (String c result, st2)
    else if Ascii.eqb c backslash then
      match p1 with
      | String d p2 =>
          if negb (Ascii.eqb (m_insideString st) zero) && negb (Ascii.eqb d zero)
          then let '(result, st2) := htmlLoop p2 st in
               (String c (String d result), st2)
          else let '(result, st2) := htmlLoop p1 st in (String c result, st2)
      | EmptyString => (String c EmptyString, st)
      end
    else if Ascii.eqb c dquote || Ascii.eqb c squote then
      let st1 :=
        if m_insideTag st then
          if Ascii.eqb (m_insideString st) c
          then mkHtmlSpaceless (m_insideTag st) zero (m_removeSpaces st)
          else if Ascii.eqb (m_insideString st) zero
               then mkHtmlSpaceless (m_insideTag st) c (m_removeSpaces st)
               else st
        else st in
      let '(result, st2) := htmlLoop p1 st1 in (String c result, st2)
    else if isWhite c then
      if negb (m_insideTag st)
      then htmlLoop p1 (mkHtmlSpaceless (m_insideTag st) (m_insideString st) true)
      else let '(result, st2) := htmlLoop p1 st in (String space result, st2)
    else
      let '(result, st2) :=
        htmlLoop p1 (mkHtmlSpaceless (m_insideTag st) (m_insideString st) false) in
      (String c result, st2).
Proof. done. Qed.

(** The characters the filter treats specially are no white space. *)
Lemma special_not_white c :
  Ascii.eqb c ltChar || Ascii.eqb c gtChar || Ascii.eqb c backslash
  || Ascii.eqb c dquote || Ascii.eqb c squote = true →
  isWhite c = false.
Proof.
  rewrite !orb_true_iff, !Ascii.eqb_eq. intros [[[[->| ->]| ->]| ->]| ->]; done.
Qed.

(** What one character does to the LaTeX filter, for the three ways the
    HTML filter treats it: copied, dropped, or replaced by a blank. *)
Lemma latexLoop_copied c r r' :
  latexLoop r = latexLoop r' → latexLoop (String c r) = latexLoop (String c r').
Proof. intros H. by rewrite !latexLoop_unfold, H. Qed.

Lemma latexLoop_dropped c r r' :
  Ascii.eqb c zero = false → isWhite c = true →
  latexLoop r = latexLoop r' → latexLoop r = latexLoop (String c r').
Proof. intros Hz Hw H. by rewrite latexLoop_unfold, Hz, Hw. Qed.

Lemma latexLoop_blanked c r r' :
  Ascii.eqb c zero = false → isWhite c = true →
  latexLoop r = latexLoop r' → latexLoop (String space r) = latexLoop (String c r').
Proof. intros Hz Hw H. by rewrite !latexLoop_unfold, Hz, Hw. Qed.

(** X21. [HtmlSpaceless::remove] changes white space only: with all blanks,
    tabs and newlines deleted, its output is its input, whatever state the
    filter is in. *)
Theorem html_keeps_visible_text s st :
  latexRemove (htmlRemove s st).1 = latexRemove s.
Proof.
  rewrite htmlRemove_loop, !latexRemove_loop. revert st.
  induction s as [| c | c d s IH1 IH2] using string_pair_ind; intros st.
  - done.
  - rewrite htmlLoop_unfold. simpl.
    repeat case_match; simpl; try done;
      rewrite ?latexLoop_unfold; simplify_eq; simpl; by repeat case_match.
  - rewrite htmlLoop_unfold.
    destruct (Ascii.eqb c zero) eqn:Hz; [by rewrite latexLoop_unfold, Hz|].
    repeat match goal with
    | |- _ => progress cbv beta iota zeta
    | |- context [htmlLoop (String d s) ?st1] =>
        let r := fresh "r" in let st2 := fresh "st2" in
        let H := fresh "Hrun" in
        pose proof (IH2 st1) as H;
        destruct (htmlLoop (String d s) st1) as [r st2]; cbn [fst] in H
    | |- context [htmlLoop s ?st1] =>
        let r := fresh "r" in let st2 := fresh "st2" in
        let H := fresh "Hrun" in
        pose proof (IH1 st1) as H;
        destruct (htmlLoop s st1) as [r st2]; cbn [fst] in H
    | |- context [if ?b then _ else _] => destruct b eqn:?
    end; cbn [fst];
    first [ by apply latexLoop_copied
          | by apply latexLoop_copied, latexLoop_copied
          | by apply latexLoop_dropped
          | by apply latexLoop_blanked ].
Qed.

(** A round that takes one character. *)
Lemma htmlLoop_plain c p1 st :
  Ascii.eqb c zero = false → escaped c p1 st = false →
  htmlLoop (String c p1) st
  = (String.append (emitted c st) (htmlLoop p1 (nextState c st)).1,
     (htmlLoop p1 (nextState c st)).2).
Proof.
  intros Hz Hesc. rewrite htmlLoop_unfold, Hz.
  unfold escaped in Hesc. unfold nextState, emitted.
  destruct (Ascii.eqb c ltChar) eqn:Hlt.
  { apply Ascii.eqb_eq in Hlt as ->. cbv zeta.
    by destruct (htmlLoop p1 _). }
  destruct (Ascii.eqb c gtChar) eqn:Hgt.
  { apply Ascii.eqb_eq in Hgt as ->. cbv zeta.
    by destruct (htmlLoop p1 _). }
  destruct (Ascii.eqb c backslash) eqn:Hbs.
  { apply Ascii.eqb_eq in Hbs as ->. simpl in Hesc.
    destruct p1 as [|d p2]; [done|]. rewrite Hesc.
    by destruct (htmlLoop (String d p2) st). }
  destruct (Ascii.eqb c dquote || Ascii.eqb c squote) eqn:Hq.
  { rewrite (special_not_white c)
      by (rewrite orb_true_iff in Hq; destruct Hq as [-> | ->];
          by rewrite ?orb_true_r).
    cbv zeta. by destruct (htmlLoop p1 _). }
  destruct (isWhite c); [destruct (negb (m_insideTag st))|];
    by destruct (htmlLoop p1 _).
Qed.

(** A round that takes two. *)
Lemma htmlLoop_escaped c d p2 st :
  Ascii.eqb c zero = false → escaped c (String d p2) st = true →
  htmlLoop (String c (String d p2)) st
  = (String c (String d (htmlLoop p2 st).1), (htmlLoop p2 st).2).
Proof.
  intros Hz Hesc. rewrite htmlLoop_unfold, Hz.
  unfold escaped in Hesc. apply andb_true_iff in Hesc as [Hesc Hd].
  apply andb_true_iff in Hesc as [Hc Hs].
  apply Ascii.eqb_eq in Hc as ->. simpl. rewrite Hs, Hd. simpl.
  by destruct (htmlLoop p2 st).
Qed.

(** The loop of [HtmlSpaceless::remove] round by round: whatever holds of
    the empty input, is kept by a round of one character and by a round of
    two, holds of every run. *)
Lemma htmlLoop_rounds (P : string → HtmlSpaceless → string → HtmlSpaceless → Prop) :
  (∀ st, P EmptyString st EmptyString st) →
  (∀ c p1 st, Ascii.eqb c zero = true → P (String c p1) st EmptyString st) →
  (∀ c p1 st r st2, Ascii.eqb c zero = false → escaped c p1 st = false →
     P p1 (nextState c st) r st2 →
     P (String c p1) st (String.append (emitted c st) r) st2) →
  (∀ c d p2 st r st2, Ascii.eqb c zero = false →
     escaped c (String d p2) st = true →
     P p2 st r st2 →
     P (String c (String d p2)) st (String c (String d r)) st2) →
  ∀ s st, P s st (htmlLoop s st).1 (htmlLoop s st).2.
Proof.
  intros Hnil Hend Hplain Hesc s.
  induction s as [| c | c d s IH1 IH2] using string_pair_ind; intros st.
  - apply Hnil.
  - destruct (Ascii.eqb c zero) eqn:Hz.
    + rewrite htmlLoop_unfold, Hz. by apply Hend.
    + assert (escaped c EmptyString st = false) as He.
      { unfold escaped. by rewrite andb_false_r. }
      rewrite (htmlLoop_plain _ _ _ Hz He). cbn [fst snd].
      apply Hplain; [done..|]. apply Hnil.
  - destruct (Ascii.eqb c zero) eqn:Hz.
    + rewrite htmlLoop_unfold, Hz. by apply Hend.
    + destruct (escaped c (String d s) st) eqn:He.
      * rewrite (htmlLoop_escaped _ _ _ _ Hz He). cbn [fst snd].
        apply Hesc; [done..|]. apply IH1.
      * rewrite (htmlLoop_plain _ _ _ Hz He). cbn [fst snd].
        apply Hplain; [done..|]. apply IH2.
Qed.

Lemma reset_wellFormed : wellFormed reset.
Proof. split; [by left|done]. Qed.

Lemma nextState_wellFormed c st : wellFormed st → wellFormed (nextState c st).
Proof.
  intros Hwf. pose proof Hwf as [Hq Htag]. unfold nextState.
  destruct (Ascii.eqb c ltChar);
    [destruct (Ascii.eqb_spec (m_insideString st) zero) as [Hs|Hs]; [|done];
     split; simpl; [by left|done]|].
  destruct (Ascii.eqb c gtChar);
    [destruct (Ascii.eqb_spec (m_insideString st) zero) as [Hs|Hs]; [|done];
     split; simpl; [by left|done]|].
  destruct (Ascii.eqb c backslash); [done|].
  destruct (Ascii.eqb c dquote || Ascii.eqb c squote) eqn:Hc.
  - apply orb_true_iff in Hc. rewrite !Ascii.eqb_eq in Hc.
    destruct (m_insideTag st) eqn:Ht; [|done].
    destruct (Ascii.eqb (m_insideString st) c); [split; simpl; [by left|done]|].
    destruct (Ascii.eqb (m_insideString st) zero); [|done].
    split; simpl; [|done]. destruct Hc as [-> | ->]; [right; by left|right; by right].
  - destruct (isWhite c); [destruct (negb (m_insideTag st))|]; done.
Qed.

(** The flag [m_removeSpaces] is written and never read. *)
Lemma nextState_removeSpaces c st b :
  m_insideTag (nextState c (mkHtmlSpaceless (m_insideTag st) (m_insideString st) b))
  = m_insideTag (nextState c st)
  ∧ m_insideString
      (nextState c (mkHtmlSpaceless (m_insideTag st) (m_insideString st) b))
    = m_insideString (nextState c st).
Proof.
  unfold nextState. simpl. by repeat case_match.
Qed.

(** X22. The state of [HtmlSpaceless]: from [reset] on, and over any
    input, a string is open only inside a tag and only with the quote that
    opened it; and the flag [m_removeSpaces] has no effect, neither on the
    text written nor on the other two members. *)
Theorem html_state_wellFormed s st :
  wellFormed reset
  ∧ (wellFormed st → wellFormed (htmlRemove s st).2)
  ∧ (∀ b,
       let st' := mkHtmlSpaceless (m_insideTag st) (m_insideString st) b in
       (htmlRemove s st').1 = (htmlRemove s st).1
       ∧ m_insideTag (htmlRemove s st').2 = m_insideTag (htmlRemove s st).2
       ∧ m_insideString (htmlRemove s st').2 = m_insideString (htmlRemove s st).2).
Proof.
  split; [apply reset_wellFormed|]. rewrite !htmlRemove_loop. split.
  - revert s st.
    apply (htmlLoop_rounds (λ _ st _ st2, wellFormed st → wellFormed st2));
      [done|done| |done].
    intros c p1 st r st2 _ _ IH Hwf. by apply IH, nextState_wellFormed.
  - revert s st.
    apply (htmlLoop_rounds (λ s st r st2, ∀ b,
             let st' := mkHtmlSpaceless (m_insideTag st) (m_insideString st) b in
             (htmlRemove s st').1 = r
             ∧ m_insideTag (htmlRemove s st').2 = m_insideTag st2
             ∧ m_insideString (htmlRemove s st').2 = m_insideString st2)).
    + done.
    + intros c p1 st Hz b. simpl. by rewrite Hz.
    + intros c p1 st r st2 Hz He IH b st'. rewrite htmlRemove_loop.
      assert (escaped c p1 st' = false) as He' by done.
      rewrite (htmlLoop_plain _ _ _ Hz He'). cbn [fst snd].
      destruct (nextState_removeSpaces c st b) as [Ht Hs]. fold st' in Ht, Hs.
      specialize (IH (m_removeSpaces (nextState c st'))). simpl in IH.
      rewrite <- Ht, <- Hs, htmlRemove_loop in IH.
      assert (mkHtmlSpaceless (m_insideTag (nextState c st'))
                (m_insideString (nextState c st'))
                (m_removeSpaces (nextState c st')) = nextState c st') as Heta
        by (by destruct (nextState c st')).
      rewrite Heta in IH. destruct IH as (-> & -> & ->). done.
    + intros c d p2 st r st2 Hz He IH b. cbv zeta. rewrite htmlRemove_loop.
      assert (escaped c (String d p2)
                (mkHtmlSpaceless (m_insideTag st) (m_insideString st) b) = true)
        as He' by done.
      rewrite (htmlLoop_escaped _ _ _ _ Hz He'). cbn [fst snd].
      specialize (IH b). cbv zeta in IH. rewrite htmlRemove_loop in IH.
      destruct IH as (-> & -> & ->). done.
Qed.

Lemma chars_cons c p1 : chars (String c p1) = c :: chars p1.
Proof. done. Qed.

Lemma nextState_outside c st :
  m_insideTag st = false → m_insideString st = zero → Ascii.eqb c ltChar = false →
  m_insideTag (nextState c st) = false ∧ m_insideString (nextState c st) = zero.
Proof.
  intros Ht Hs Hlt. unfold nextState. rewrite Hlt, Ht, Hs. simpl.
  by repeat case_match.
Qed.

Lemma nextState_inside c st :
  m_insideTag st = true → Ascii.eqb c gtChar = false →
  m_insideTag (nextState c st) = true.
Proof.
  intros Ht Hgt. unfold nextState. rewrite Hgt, Ht. simpl.
  by repeat case_match.
Qed.

(** X23. Outside tags the HTML filter is the LaTeX filter: started outside
    a tag, on text that opens none, it deletes every blank, tab and newline,
    copies the rest and ends outside a tag. *)
Theorem html_outside_tags s st :
  m_insideTag st = false → m_insideString st = zero → ltChar ∉ chars s →
  (htmlRemove s st).1 = latexRemove s
  ∧ m_insideTag (htmlRemove s st).2 = false
  ∧ m_insideString (htmlRemove s st).2 = zero.
Proof.
  rewrite htmlRemove_loop, latexRemove_loop. revert s st.
  apply (htmlLoop_rounds (λ s st r st2,
           m_insideTag st = false → m_insideString st = zero →
           ltChar ∉ chars s →
           r = latexLoop s ∧ m_insideTag st2 = false ∧ m_insideString st2 = zero)).
  - done.
  - intros c p1 st Hz Ht Hs _. by rewrite latexLoop_unfold, Hz.
  - intros c p1 st r st2 Hz _ IH Ht Hs Hlt.
    rewrite chars_cons in Hlt. apply not_elem_of_cons in Hlt as [Hc Hlt].
    assert (Ascii.eqb c ltChar = false) as Hc'
      by (apply Ascii.eqb_neq; congruence).
    destruct (nextState_outside c st Ht Hs Hc') as [Ht' Hs'].
    destruct (IH Ht' Hs' Hlt) as (-> & Ht2 & Hs2). split; [|done].
    rewrite latexLoop_unfold, Hz. unfold emitted. rewrite Ht.
    by destruct (isWhite c).
  - intros c d p2 st r st2 _ He _ _ Hs _. unfold escaped in He.
    rewrite Hs in He. simpl in He. by rewrite andb_false_r in He.
Qed.

(** X24. Inside a tag nothing is deleted: started inside a tag, on text
    that closes none, the filter writes one character for every character
    it reads and ends inside the tag. *)
Theorem html_inside_tag s st :
  m_insideTag st = true → gtChar ∉ chars s → zero ∉ chars s →
  String.length (htmlRemove s st).1 = String.length s
  ∧ m_insideTag (htmlRemove s st).2 = true.
Proof.
  rewrite htmlRemove_loop. revert s st.
  apply (htmlLoop_rounds (λ s st r st2,
           m_insideTag st = true → gtChar ∉ chars s → zero ∉ chars s →
           String.length r = String.length s ∧ m_insideTag st2 = true)).
  - done.
  - intros c p1 st Hz _ _ Hnul. apply Ascii.eqb_eq in Hz as ->.
    destruct Hnul. rewrite chars_cons. apply elem_of_cons. by left.
  - intros c p1 st r st2 Hz _ IH Ht Hgt Hnul.
    rewrite chars_cons in Hgt, Hnul.
    apply not_elem_of_cons in Hgt as [Hc Hgt].
    apply not_elem_of_cons in Hnul as [_ Hnul].
    assert (Ascii.eqb c gtChar = false) as Hc'
      by (apply Ascii.eqb_neq; congruence).
    destruct (IH (nextState_inside c st Ht Hc') Hgt Hnul) as [Hlen Ht2].
    split; [|done]. unfold emitted. rewrite Ht. simpl.
    destruct (isWhite c);
      change (String.length (String c p1)) with (S (String.length p1));
      rewrite <- Hlen; reflexivity.
  - intros c d p2 st r st2 Hz _ IH Ht Hgt Hnul.
    rewrite !chars_cons in Hgt, Hnul.
    apply not_elem_of_cons in Hgt as [_ Hgt].
    apply not_elem_of_cons in Hgt as [_ Hgt].
    apply not_elem_of_cons in Hnul as [_ Hnul].
    apply not_elem_of_cons in Hnul as [_ Hnul].
    destruct (IH Ht Hgt Hnul) as [Hlen Ht2]. split; [|done].
    simpl. by rewrite Hlen.
Qed.

Lemma append_assoc (a b c : string) :
  String.append (String.append a b) c = String.append a (String.append b c).
Proof.
  induction a as [|x a IH]; [done|].
  change (String x (String.append (String.append a b) c)
          = String x (String.append a (String.append b c))).
  by rewrite IH.
Qed.

(** X25. Text may reach the HTML filter in pieces: a first piece without a
    backslash (and without an end character) can be filtered on its own,
    the second piece then continues from the state the first left, and the
    two results put together are the result for the whole text. *)
Theorem html_chunks s1 s2 st :
  zero ∉ chars s1 → backslash ∉ chars s1 →
  htmlRemove (String.append s1 s2) st
  = (String.append (htmlRemove s1 st).1 (htmlRemove s2 (htmlRemove s1 st).2).1,
     (htmlRemove s2 (htmlRemove s1 st).2).2).
Proof.
  rewrite !htmlRemove_loop. revert s1 st.
  apply (htmlLoop_rounds (λ s1 st r st2,
           zero ∉ chars s1 → backslash ∉ chars s1 →
           htmlLoop (String.append s1 s2) st
           = (String.append r (htmlLoop s2 st2).1, (htmlLoop s2 st2).2))).
  - intros st _ _. change (String.append EmptyString s2) with s2.
    by destruct (htmlLoop s2 st).
  - intros c p1 st Hz Hnul _. apply Ascii.eqb_eq in Hz as ->.
    destruct Hnul. rewrite chars_cons. apply elem_of_cons. by left.
  - intros c p1 st r st2 Hz _ IH Hnul Hbs.
    rewrite chars_cons in Hnul, Hbs.
    apply not_elem_of_cons in Hnul as [_ Hnul].
    apply not_elem_of_cons in Hbs as [Hc Hbs].
    change (String.append (String c p1) s2) with (String c (String.append p1 s2)).
    assert (escaped c (String.append p1 s2) st = false) as He.
    { unfold escaped.
      assert (Ascii.eqb c backslash = false) as ->
        by (apply Ascii.eqb_neq; congruence).
      done. }
    rewrite (htmlLoop_plain _ _ _ Hz He), (IH Hnul Hbs). cbn [fst snd].
    by rewrite append_assoc.
  - intros c d p2 st r st2 _ He _ _ Hbs. unfold escaped in He.
    apply andb_true_iff in He as [He _]. apply andb_true_iff in He as [He _].
    apply Ascii.eqb_eq in He as ->.
    destruct Hbs. rewrite chars_cons. apply elem_of_cons. by left.
Qed.

End SpacelessFacts.

(** Text between two tags. *)
Lemma html_outside_tags_witness :
  Spaceless.m_insideTag Spaceless.reset = false
  ∧ Spaceless.m_insideString Spaceless.reset = zero
  ∧ (Spaceless.ltChar ∉ Spaceless.chars "a  b")
  ∧ (Spaceless.htmlRemove "a  b" Spaceless.reset).1 = "ab"%string.
Proof.
  assert (Spaceless.ltChar ∉ Spaceless.chars "a  b") as Hlt.
  { apply (bool_decide_unpack _). vm_compute. reflexivity. }
  split; [reflexivity|]. split; [reflexivity|]. split; [exact Hlt|].
  exact (proj1 (html_outside_tags "a  b" Spaceless.reset eq_refl eq_refl Hlt)).
Defined.

(** A tag cut in two. *)
Lemma html_chunks_witness :
  (zero ∉ Spaceless.chars "<a  b")
  ∧ (Spaceless.backslash ∉ Spaceless.chars "<a  b")
  ∧ (Spaceless.htmlRemove "<a  b> c d" Spaceless.reset).1 = "<a  b>cd"%string.
Proof.
  assert (zero ∉ Spaceless.chars "<a  b") as Hnul.
  { apply (bool_decide_unpack _). vm_compute. reflexivity. }
  assert (Spaceless.backslash ∉ Spaceless.chars "<a  b") as Hbs.
  { apply (bool_decide_unpack _). vm_compute. reflexivity. }
  split; [exact Hnul|]. split; [exact Hbs|].
  exact (f_equal fst (html_chunks "<a  b" "> c d" Spaceless.reset Hnul Hbs)).
Defined.

(** Text inside a tag. *)
Lemma html_inside_tag_witness :
  let st := Spaceless.mkHtmlSpaceless true zero false in
  Spaceless.m_insideTag st = true
  ∧ (Spaceless.gtChar ∉ Spaceless.chars "a  b")
  ∧ (zero ∉ Spaceless.chars "a  b")
  ∧ String.length (Spaceless.htmlRemove "a  b" st).1 = 4%nat.
Proof.
  intros st.
  assert (Spaceless.gtChar ∉ Spaceless.chars "a  b") as Hgt.
  { apply (bool_decide_unpack _). vm_compute. reflexivity. }
  assert (zero ∉ Spaceless.chars "a  b") as Hnul.
  { apply (bool_decide_unpack _). vm_compute. reflexivity. }
  split; [reflexivity|]. split; [exact Hgt|]. split; [exact Hnul|].
  exact (proj1 (html_inside_tag "a  b" st eq_refl Hgt Hnul)).
Defined.

(* ===================================================================== *)
(** * Properties of the symbol groups *)
(* ===================================================================== *)

Section SymbolGroupFacts.
Import SymbolGroups.

Variable searchName : nat → string.

#[local] Abbreviation groupLoop := (groupLoop searchName).
#[local] Abbreviation symbolGroups := (symbolGroups searchName).
#[local] Abbreviation nameAt := (nameAt searchName).
#[local] Abbreviation homogeneous := (homogeneous searchName).
#[local] Abbreviation boundary := (boundary searchName).
#[local] Abbreviation closed := (closed searchName).

Lemma tiles_snoc groups : ∀ a b c,
  tiles groups a b → (b < c)%nat → tiles (groups ++ [(b, c)]) a c.
Proof.
  induction groups as [|[s e] rest IH]; intros a b c Ht Hlt; simpl in *.
  - by subst.
  - destruct Ht as (-> & Hse & Ht). split; [done|]. split; [done|]. by eapply IH.
Qed.

Lemma tiles_le groups : ∀ a b, tiles groups a b → (a ≤ b)%nat.
Proof.
  induction groups as [|[s e] rest IH]; intros a b Ht; simpl in *; [lia|].
  destruct Ht as (-> & Hse & Ht). apply IH in Ht. lia.
Qed.

(** Groups that tile a stretch of the list hold its entries, in order. *)
Lemma tiles_concat sil groups : ∀ a b,
  tiles groups a b →
  List.concat (List.map (λ g, range sil g.1 g.2) groups) = range sil a b.
Proof.
  unfold range.
  induction groups as [|[s e] rest IH]; intros a b Ht; simpl in *.
  - subst. by rewrite Nat.sub_diag.
  - destruct Ht as (-> & Hse & Ht). pose proof (tiles_le _ _ _ Ht) as Hle.
    rewrite (IH _ _ Ht).
    replace (drop e sil) with (drop (e - a) (drop a sil))
      by (rewrite drop_drop; f_equal; lia).
    rewrite take_take_drop. f_equal. lia.
Qed.

(** What the loop keeps true: the groups made so far tile the list up to
    [it_begin] and are closed, and the entries from [it_begin] to [it] have
    the name [lastName]. *)
Lemma groupLoop_invariant sil : ∀ rest it it_begin lastName groups,
  drop it sil = rest →
  (it_begin ≤ it ≤ length sil)%nat →
  tiles groups 0 it_begin →
  Forall (closed sil) groups →
  (∀ k, (it_begin ≤ k < it)%nat → nameAt sil k = Some lastName) →
  boundary sil it_begin →
  let result := groupLoop rest it it_begin lastName groups in
  (result.2 ≤ length sil)%nat
  ∧ tiles result.1 0 result.2
  ∧ Forall (closed sil) result.1
  ∧ homogeneous sil result.2 (length sil)
  ∧ boundary sil result.2.
Proof.
  induction rest as [|def rest IH];
    intros it it_begin lastName groups Hdrop Hit Htiles Hclosed Hname Hb.
  - simpl. assert (it = length sil) as ->.
    { apply drop_nil_inv in Hdrop. lia. }
    split; [lia|]. split; [done|]. split; [done|]. split; [|done].
    intros k Hk. rewrite (Hname k Hk). symmetry. apply Hname. lia.
  - assert (sil !! it = Some def) as Hdef.
    { pose proof (lookup_drop sil it 0) as Hl. rewrite Hdrop in Hl.
      simpl in Hl. by rewrite Nat.add_0_r in Hl. }
    assert (drop (S it) sil = rest) as Hdrop'.
    { replace (S it) with (it + 1)%nat by lia.
      by rewrite <- drop_drop, Hdrop. }
    assert (it < length sil)%nat as Hlt by (by eapply lookup_lt_Some).
    assert (nameAt sil it = Some (searchName def)) as Hhere.
    { unfold SymbolGroups.nameAt. by rewrite Hdef. }
    simpl. destruct (decide (searchName def ≠ lastName)) as [Hne|Heq].
    + assert (boundary sil it) as Hbit.
      { destruct (decide (it = it_begin)) as [->|Hd]; [done|].
        right. right. rewrite Hhere, (Hname (it - 1)%nat) by lia. congruence. }
      apply IH; [done|lia| | | |done].
      * destruct (decide (it ≠ it_begin)) as [Hd|Hd].
        -- apply tiles_snoc; [done|lia].
        -- apply dec_stable in Hd. by subst.
      * destruct (decide (it ≠ it_begin)) as [Hd|Hd]; [|done].
        apply Forall_app. split; [done|]. apply Forall_singleton.
        split; [|split; [done|split; [done|simpl; lia]]].
        intros k Hk. simpl in *. rewrite (Hname k Hk). symmetry. apply Hname. lia.
      * intros k Hk. by replace k with it by lia.
    + apply dec_stable in Heq. apply IH; [done|lia|done|done| |done].
      intros k Hk. destruct (decide (k = it)) as [->|Hd].
      * by rewrite Hhere, Heq.
      * apply Hname. lia.
Qed.

(** The groups tile the list and are closed. *)
Lemma symbolGroups_closed sil :
  tiles (symbolGroups sil) 0 (length sil) ∧ Forall (closed sil) (symbolGroups sil).
Proof.
  unfold SymbolGroups.symbolGroups.
  pose proof (groupLoop_invariant sil sil 0 0 EmptyString [] eq_refl) as Hinv.
  destruct Hinv as (Hle & Ht & Hc & Hhom & Hb);
    [lia|done|done|intros; lia|by left|].
  destruct (SymbolGroups.groupLoop searchName sil 0 0 EmptyString [])
    as [groups it_begin]. simpl in *.
  destruct (decide (it_begin ≠ length sil)) as [Hd|Hd].
  - split; [apply tiles_snoc; [done|lia]|].
    apply Forall_app. split; [done|]. apply Forall_singleton.
    split; [done|]. split; [done|]. split; [right; by left|done].
  - apply dec_stable in Hd. by subst.
Qed.

(** X26. The groups of a search list: they cover the list in order, with no
    gap, overlap or empty group, so their entries put together are the
    list; each holds one search name and reaches from one change of name
    (or end of the list) to the next. *)
Theorem symbolGroups_partition sil :
  tiles (symbolGroups sil) 0 (length sil)
  ∧ Forall (closed sil) (symbolGroups sil)
  ∧ List.concat (List.map (λ g, range sil g.1 g.2) (symbolGroups sil)) = sil.
Proof.
  destruct (symbolGroups_closed sil) as [Ht Hc].
  split; [done|]. split; [done|].
  rewrite (tiles_concat _ _ _ _ Ht). unfold range.
  rewrite drop_0, Nat.sub_0_r. apply firstn_all.
Qed.

Lemma tiles_elem groups : ∀ a b start end_,
  tiles groups a b → (start, end_) ∈ groups → (start < end_)%nat.
Proof.
  induction groups as [|[s e] rest IH]; intros a b start end_ Ht Hin; simpl in *.
  - by apply elem_of_nil in Hin.
  - destruct Ht as (-> & Hse & Ht).
    apply elem_of_cons in Hin as [[= -> ->]|Hin]; [done|]. by eapply IH.
Qed.

Lemma range_lookup_Some sil start end_ i x :
  range sil start end_ !! i = Some x
  ↔ (start + i < end_)%nat ∧ sil !! (start + i)%nat = Some x.
Proof.
  unfold range. rewrite lookup_take_Some, lookup_drop. split.
  - intros [? ?]. split; [lia|done].
  - intros [? ?]. split; [done|lia].
Qed.

(** The entries of a symbol list: every symbol with the entry before it
    and the entry after it in the same list. *)
Lemma symbolLoop_lookup entries : ∀ prev i,
  symbolLoop entries prev !! i
  = (λ def, (def, match i with O => prev | S j => entries !! j end,
             entries !! S i)) <$> entries !! i.
Proof.
  induction entries as [|def rest IH]; intros prev i; [done|].
  destruct i as [|i]; simpl.
  - by rewrite head_lookup.
  - rewrite IH. destruct (rest !! i); [|done]. simpl. by destruct i.
Qed.

(** X27. A symbol of a group gets as [prev] and [next] its neighbours
    within the group, which have its search name.  Both are null, the test
    [scope()] makes for a unique name, exactly when the symbol stands
    between two changes of name in the search list. *)
Theorem symbol_neighbours sil start end_ i def prev next :
  (start, end_) ∈ symbolGroups sil →
  symbolList sil start end_ !! i = Some (def, prev, next) →
  sil !! (start + i)%nat = Some def
  ∧ (prev = None ↔ i = 0%nat)
  ∧ (next = None ↔ (start + S i)%nat = end_)
  ∧ (∀ p, prev = Some p →
          sil !! (start + i - 1)%nat = Some p ∧ searchName p = searchName def)
  ∧ (∀ n, next = Some n →
          sil !! (start + S i)%nat = Some n ∧ searchName n = searchName def)
  ∧ (prev = None ∧ next = None
     ↔ boundary sil (start + i) ∧ boundary sil (start + S i)).
Proof.
  intros Hin Hsym.
  destruct (symbolGroups_closed sil) as [Ht Hc].
  pose proof (tiles_elem _ _ _ _ _ Ht Hin) as Hse.
  rewrite Forall_forall in Hc. destruct (Hc _ Hin) as (Hhom & Hbs & Hbe & Hle).
  simpl in Hhom, Hbs, Hbe, Hle.
  unfold symbolList in Hsym. rewrite symbolLoop_lookup in Hsym.
  destruct (range sil start end_ !! i) as [def'|] eqn:Hi; [|done].
  simpl in Hsym. injection Hsym as -> Hprev Hnext.
  apply range_lookup_Some in Hi as [Hlt Hdef].
  assert (∀ k x, (start ≤ k < end_)%nat → sil !! k = Some x →
                 searchName x = searchName def) as Hsame.
  { intros k x Hk Hx.
    pose proof (Hhom k Hk) as H1. pose proof (Hhom (start + i)%nat) as H2.
    unfold SymbolGroups.nameAt in H1, H2. rewrite Hx in H1. rewrite Hdef in H2.
    rewrite <- H2 in H1 by lia. by injection H1. }
  assert (∀ k, (start < k < end_)%nat → ¬ boundary sil k) as Hinner.
  { intros k Hk [->|[->|Hne]]; [lia|lia|]. apply Hne.
    rewrite (Hhom k), (Hhom (k - 1)%nat) by lia. done. }
  assert (prev = None ↔ i = 0%nat) as Hp.
  { subst prev. destruct i as [|j]; [done|]. split; [|done].
    intros Hnone. assert (is_Some (sil !! (start + j)%nat)) as [x Hx].
    { apply lookup_lt_is_Some. lia. }
    assert (range sil start end_ !! j = Some x) as Hr.
    { apply range_lookup_Some. split; [lia|done]. }
    congruence. }
  assert (next = None ↔ (start + S i)%nat = end_) as Hn.
  { subst next. split.
    - intros Hnone. destruct (decide (start + S i = end_)%nat); [done|].
      assert (is_Some (sil !! (start + S i)%nat)) as [x Hx].
      { apply lookup_lt_is_Some. lia. }
      assert (range sil start end_ !! S i = Some x) as Hr.
      { apply range_lookup_Some. split; [lia|done]. }
      congruence.
    - intros He. destruct (range sil start end_ !! S i) as [x|] eqn:Hr; [|done].
      apply range_lookup_Some in Hr as [? _]. lia. }
  split; [done|]. split; [done|]. split; [done|]. split; [|split].
  - intros p Hpp. subst prev. destruct i as [|j]; [done|].
    apply range_lookup_Some in Hpp as [? Hpp].
    replace (start + S j - 1)%nat with (start + j)%nat by lia.
    split; [done|]. eapply (Hsame (start + j)%nat); [lia|done].
  - intros n Hnn. subst next.
    apply range_lookup_Some in Hnn as [? Hnn].
    split; [done|]. eapply (Hsame (start + S i)%nat); [lia|done].
  - rewrite Hp, Hn. split.
    + intros [-> <-]. rewrite Nat.add_0_r. done.
    + intros [Hb1 Hb2].
      assert (i = 0%nat) as ->.
      { destruct (decide (i = 0%nat)); [done|].
        destruct (Hinner (start + i)%nat); [lia|done]. }
      split; [done|].
      destruct (decide (start + 1 = end_)%nat); [done|].
      destruct (Hinner (start + 1)%nat); [lia|done].
Qed.

End SymbolGroupFacts.

(** Two symbols named [a] and one named [b]: the third is alone in its
    group. *)
Lemma symbol_neighbours_witness :
  let searchName := λ d : nat, if (d <? 2)%nat then "a"%string else "b"%string in
  (2%nat, 3%nat) ∈ SymbolGroups.symbolGroups searchName [0%nat; 1%nat; 2%nat]
  ∧ SymbolGroups.symbolList [0%nat; 1%nat; 2%nat] 2 3 !! 0%nat
    = Some (2%nat, None, None)
  ∧ [0%nat; 1%nat; 2%nat] !! (2 + 0)%nat = Some 2%nat.
Proof.
  intros searchName.
  assert ((2%nat, 3%nat)
          ∈ SymbolGroups.symbolGroups searchName [0%nat; 1%nat; 2%nat]) as Hin.
  { assert (SymbolGroups.symbolGroups searchName [0%nat; 1%nat; 2%nat]
            = [(0%nat, 2%nat); (2%nat, 3%nat)]) as -> by (vm_compute; reflexivity).
    apply elem_of_cons. right. apply elem_of_cons. by left. }
  split; [exact Hin|]. split; [reflexivity|].
  exact (proj1 (symbol_neighbours searchName [0%nat; 1%nat; 2%nat] 2 3 0 2
                  None None Hin eq_refl)).
Defined.

(* ===================================================================== *)
(** * Properties of the ids of tree nodes *)
(* ===================================================================== *)

Section NodeIdFacts.
Import Nesting NestingShape NodeIds.

Variable setNum : Z → string.
Hypothesis setNum_prints : printsNumbers setNum.

#[local] Abbreviation chars := Spaceless.chars.
#[local] Abbreviation id := (id setNum).
#[local] Abbreviation ids := (childIds setNum).

Lemma chars_append a b : chars (String.append a b) = chars a ++ chars b.
Proof. induction a as [|c a IH]; [done|]. simpl. by rewrite <- IH. Qed.

Lemma chars_id parentId n :
  chars (id parentId n)
  = chars parentId ++ chars (setNum (n_index n)) ++ [underscore].
Proof. unfold NodeIds.id. by rewrite !chars_append. Qed.

(** Two texts that agree up to their first underscore. *)
Lemma first_underscore (a : list ascii) : ∀ b x y,
  underscore ∉ a → underscore ∉ b →
  a ++ underscore :: x = b ++ underscore :: y → a = b.
Proof.
  induction a as [|c a IH]; intros [|e b] x y Ha Hb Heq; simpl in Heq.
  - done.
  - injection Heq as <- _. destruct Hb. apply elem_of_cons. by left.
  - injection Heq as -> _. destruct Ha. apply elem_of_cons. by left.
  - injection Heq as -> Heq. f_equal.
    apply not_elem_of_cons in Ha as [_ Ha]. apply not_elem_of_cons in Hb as [_ Hb].
    by eapply IH.
Qed.

Lemma childIds_unfold parentId d i l c :
  ids parentId (mkNode d i l c)
  = id parentId (mkNode d i l c)
    :: List.concat (List.map (ids (id parentId (mkNode d i l c))) c).
Proof. done. Qed.

(** Every id in the tree of a node starts with the id of the node. *)
Lemma ids_extend n : ∀ parentId s,
  s ∈ ids parentId n → ∃ z, chars s = chars (id parentId n) ++ z.
Proof.
  induction n as [d i l c IH] using NestingNode_forall_ind. intros parentId s.
  rewrite childIds_unfold, elem_of_cons. intros [->|Hs].
  - exists []. by rewrite app_nil_r.
  - apply elem_of_concat_map in Hs as (x & Hx & Hs).
    rewrite Forall_forall in IH. destruct (IH x Hx _ _ Hs) as [z Hz].
    rewrite Hz, chars_id. eexists. by rewrite <- app_assoc.
Qed.

(** The ids of a list of nodes numbered from [k] on: no two are equal, and
    each continues the parent's id with a number from [k] on. *)
Lemma ids_list_NoDup c : ∀ parentId k level,
  Forall (λ x, ∀ parentId index level,
            numbered x index level → 0 ≤ index → NoDup (ids parentId x)) c →
  numberedFrom c k level → 0 ≤ k →
  NoDup (List.concat (List.map (ids parentId) c))
  ∧ ∀ s, s ∈ List.concat (List.map (ids parentId) c) →
         ∃ j z, k ≤ j
                ∧ chars s = chars parentId ++ chars (setNum j) ++ underscore :: z.
Proof.
  destruct setNum_prints as [Hinj Hnou].
  induction c as [|x c IHc]; intros parentId k level IH Hnum Hk.
  - split; [constructor|]. intros s Hs. by apply elem_of_nil in Hs.
  - apply Forall_cons in IH as [IHx IH]. destruct Hnum as [Hx Hrest].
    destruct (IHc parentId (k + 1) level IH Hrest) as [Hnd Hshape]; [lia|].
    assert (∀ s, s ∈ ids parentId x →
              ∃ z, chars s = chars parentId ++ chars (setNum k) ++ underscore :: z)
      as Hhere.
    { intros s Hs. apply ids_extend in Hs as [z Hz].
      apply numbered_fields in Hx as (Hi & _ & _).
      rewrite Hz, chars_id, Hi. exists z. by rewrite <- !app_assoc. }
    simpl. split.
    + apply NoDup_app. split; [by eapply IHx|]. split; [|done].
      intros s Hs1 Hs2. destruct (Hhere s Hs1) as [z Hz].
      destruct (Hshape s Hs2) as (j & z' & Hj & Hz').
      rewrite Hz in Hz'. apply app_inv_head in Hz'.
      apply first_underscore in Hz'; [|apply Hnou; lia..].
      assert (setNum k = setNum j) as Heq.
      { rewrite <- (string_of_list_ascii_of_string (setNum k)),
                <- (string_of_list_ascii_of_string (setNum j)).
        by f_equal. }
      apply Hinj in Heq; lia.
    + intros s Hs. apply elem_of_app in Hs as [Hs|Hs].
      * destruct (Hhere s Hs) as [z Hz]. exists k, z. split; [lia|done].
      * destruct (Hshape s Hs) as (j & z & Hj & Hz). exists j, z.
        split; [lia|done].
Qed.

Lemma ids_NoDup n : ∀ parentId index level,
  numbered n index level → 0 ≤ index → NoDup (ids parentId n).
Proof.
  induction n as [d i l c IH] using NestingNode_forall_ind.
  intros parentId index level Hnum Hidx.
  apply numbered_unfold in Hnum as (-> & -> & Hc).
  rewrite childIds_unfold.
  destruct (ids_list_NoDup c (id parentId (mkNode d index level c)) 0 (level + 1)
              IH Hc) as [Hnd Hshape]; [lia|].
  constructor; [|done].
  intros Hin. destruct (Hshape _ Hin) as (j & z & _ & Hz).
  rewrite <- (app_nil_r (chars (id parentId (mkNode d index level c)))) in Hz at 1.
  apply app_inv_head in Hz. by destruct (chars (setNum j)).
Qed.

(** A context of member nodes counts them: the node at position [j] has the
    index [j]. *)
Lemma addMembers_counts visibleInIndex mv : ∀ ctx,
  (m_index ctx = Z.of_nat (length (m_nodes ctx))
   ∧ ∀ (j : nat) x, m_nodes ctx !! j = Some x → n_index x = Z.of_nat j) →
  m_index (addMembers visibleInIndex mv ctx)
  = Z.of_nat (length (m_nodes (addMembers visibleInIndex mv ctx)))
  ∧ ∀ (j : nat) x, m_nodes (addMembers visibleInIndex mv ctx) !! j = Some x →
                   n_index x = Z.of_nat j.
Proof.
  unfold addMembers. induction mv as [|md mv IH]; intros ctx [Hidx Hall]; [done|].
  simpl. apply IH. destruct (visibleInIndex md); [|done].
  unfold appendNode. simpl. split.
  - rewrite length_app. simpl. lia.
  - intros j x Hx. apply lookup_app_Some in Hx as [Hx|[Hj Hx]]; [by apply Hall|].
    apply list_lookup_singleton_Some in Hx as [Hz <-]. simpl. lia.
Qed.

Lemma membersOf_index visibleInIndex mvs level (j : nat) x :
  membersOf visibleInIndex mvs level !! j = Some x → n_index x = Z.of_nat j.
Proof.
  unfold membersOf.
  assert (∀ ctx,
            (m_index ctx = Z.of_nat (length (m_nodes ctx))
             ∧ ∀ (j : nat) x, m_nodes ctx !! j = Some x → n_index x = Z.of_nat j) →
            ∀ (j : nat) x,
              m_nodes (foldl (λ ctx mv, addMembers visibleInIndex mv ctx) ctx mvs) !! j
              = Some x → n_index x = Z.of_nat j) as Hgen.
  { induction mvs as [|mv mvs IH]; intros ctx Hctx; [by destruct Hctx|].
    simpl. apply IH. by apply addMembers_counts. }
  apply Hgen. split; [done|]. intros k y Hy. done.
Qed.

(** X28. Ids in the class-hierarchy tree, for any [setNum] that prints
    different numbers differently and without an underscore.  Among the
    nodes that [children()] reaches the ids are pairwise different.  They do
    not tell a member node from a child: the node at position [j] of the
    [m_members] of a node, whatever member lists filled it, has the index
    and the id of the child at position [j], so a node with a child and a
    member node holds two nodes with one id. *)
Theorem classHierarchy_ids_among_children g fuel classLinkedMap
    hiddenClassLinkedMap roots :
  classHierarchy g fuel classLinkedMap hiddenClassLinkedMap = Some roots →
  NoDup (List.concat (List.map (ids EmptyString) roots))
  ∧ (∀ m parentId visibleInIndex mvs (j : nat) c x,
       m ∈ List.concat (List.map subtree roots) →
       n_children m !! j = Some c →
       membersOf visibleInIndex mvs (n_level m) !! j = Some x →
       n_index x = n_index c ∧ id parentId x = id parentId c)
  ∧ (∀ m parentId visibleInIndex mvs,
       m ∈ List.concat (List.map subtree roots) →
       n_children m ≠ [] → membersOf visibleInIndex mvs (n_level m) ≠ [] →
       ¬ NoDup ((id parentId <$> n_children m)
                ++ (id parentId <$> membersOf visibleInIndex mvs (n_level m)))).
Proof.
  intros Hrun. apply classHierarchy_numberedFrom in Hrun.
  assert (∀ m (j : nat) c, m ∈ List.concat (List.map subtree roots) →
            n_children m !! j = Some c → n_index c = Z.of_nat j) as Hchild.
  { intros m j c Hm Hc. apply elem_of_concat_map in Hm as (r & Hr & Hm).
    apply list_elem_of_lookup in Hr as [k Hk].
    pose proof (numberedFrom_lookup _ _ _ _ _ Hrun Hk) as Hn.
    destruct (numbered_subtree _ _ _ _ Hn Hm) as (i' & l' & Hnm).
    apply numbered_fields in Hnm as (_ & _ & Hcs).
    pose proof (numberedFrom_lookup _ _ _ _ _ Hcs Hc) as Hnc.
    apply numbered_fields in Hnc as (-> & _ & _). lia. }
  assert (∀ m parentId visibleInIndex mvs (j : nat) c x,
            m ∈ List.concat (List.map subtree roots) →
            n_children m !! j = Some c →
            membersOf visibleInIndex mvs (n_level m) !! j = Some x →
            n_index x = n_index c ∧ id parentId x = id parentId c) as Hsame.
  { intros m parentId visibleInIndex mvs j c x Hm Hc Hx.
    assert (n_index x = n_index c) as Heq.
    { rewrite (Hchild m j c Hm Hc). by eapply membersOf_index. }
    split; [done|]. unfold NodeIds.id. by rewrite Heq. }
  split; [|split; [exact Hsame|]].
  - eapply (ids_list_NoDup roots EmptyString 0 0); [|done|lia].
    apply Forall_forall. intros x _ parentId index level. apply ids_NoDup.
  - intros m parentId visibleInIndex mvs Hm Hc Hx Hnd.
    destruct (n_children m) as [|c cs] eqn:Hcs; [done|].
    destruct (membersOf visibleInIndex mvs (n_level m)) as [|x xs] eqn:Hxs; [done|].
    destruct (Hsame m parentId visibleInIndex mvs 0%nat c x Hm) as [_ Hid].
    { by rewrite Hcs. }
    { by rewrite Hxs. }
    apply NoDup_app in Hnd as (_ & Hdisj & _).
    apply (Hdisj (id parentId c)).
    + rewrite fmap_cons. apply elem_of_cons. by left.
    + rewrite fmap_cons, Hid. apply elem_of_cons. by left.
Qed.

End NodeIdFacts.

(** Decimal printing, as stdpp's [pretty] does it, prints digits only. *)
Lemma pretty_N_go_chars x : ∀ s c,
  c ∈ Spaceless.chars (pretty_N_go x s) →
  c ∈ Spaceless.chars s ∨ c ∈ Spaceless.chars "0123456789".
Proof.
  induction (N.lt_wf_0 x) as [x _ IH]. intros s c Hc.
  assert (x = 0 ∨ 0 < x)%N as [->|Hpos] by lia.
  - left. by rewrite pretty_N_go_0 in Hc.
  - rewrite pretty_N_go_step in Hc by done.
    apply IH in Hc as [Hc|Hc]; [|by right|by apply N.div_lt].
    change (c ∈ pretty_N_char (x `mod` 10) :: Spaceless.chars s) in Hc.
    apply elem_of_cons in Hc as [->|Hc]; [right|by left].
    unfold pretty_N_char.
    repeat case_match; apply (bool_decide_unpack _); vm_compute; reflexivity.
Qed.

Lemma pretty_prints_numbers : NodeIds.printsNumbers (pretty : Z → string).
Proof.
  split.
  - intros i j _ _ Heq. by apply (inj pretty).
  - intros [|p|p] Hi Hin; [| |lia].
    + revert Hin. apply (bool_decide_unpack _). vm_compute. reflexivity.
    + change (pretty (Z.pos p)) with (pretty_N_go (N.pos p) EmptyString) in Hin.
      apply pretty_N_go_chars in Hin as [Hin|Hin].
      * by apply elem_of_nil in Hin.
      * revert Hin. apply (bool_decide_unpack _). vm_compute. reflexivity.
Qed.

(** The diamond with decimal numbers: the ids [0_], [0_0_], [0_0_0_],
    [0_1_] and [0_1_0_] of the nodes that [children()] reaches. *)
Lemma classHierarchy_ids_among_children_witness :
  NodeIds.printsNumbers (pretty : Z → string)
  ∧ Nesting.classHierarchy Examples.diamond 5 [0; 1; 2; 3]%nat []
    = Some [Nesting.mkNode 0 0 0 [Nesting.mkNode 1 0 1 [Nesting.mkNode 3 0 2 []];
                                  Nesting.mkNode 2 1 1 [Nesting.mkNode 3 0 2 []]]]
  ∧ NoDup ["0_"; "0_0_"; "0_0_0_"; "0_1_"; "0_1_0_"]%string.
Proof.
  split; [exact pretty_prints_numbers|]. split; [exact diamond_tree|].
  exact (proj1 (classHierarchy_ids_among_children pretty pretty_prints_numbers
                  Examples.diamond 5 _ _ _ diamond_tree)).
Defined.
